(** * toml: scanner, tree builder and decoder of htruong/toml

    A shallow embedding of the Go sources (lex.go, node.go, the parser and
    the decoder) together with the properties of the specification that
    were checked against them.

    Conventions of the embedding:
    - a Go [string] is a sequence of bytes; the scanner works on
      [list ascii] (one [ascii] per byte), tokens and nodes carry [string];
    - a [rune] is an integer ([Z]); [eof] is [-1];
    - [Pos] (Go [int]) is a natural number: positions are offsets into the
      input and never negative;
    - the token channel of the scanner is the list of tokens sent on it;
    - a panic recovered into an error is a value of a result type. *)

From stdpp Require Import base option list gmap strings.
From Stdlib Require Import ZArith QArith Ascii String List Bool Lia.
Import ListNotations.

Set Warnings "-register-all".

Local Open Scope string_scope.
Local Open Scope list_scope.
Local Open Scope Z_scope.

(** ** Bytes, runes and the parts of Go's library the code calls *)

Definition rune := Z.
Definition Pos := nat.

Definition b2z (c : ascii) : Z := Z.of_N (N_of_ascii c).
Definition ch (c : ascii) : rune := b2z c.
Definition bytes (s : string) : list ascii := list_ascii_of_string s.
Definition str (s : list ascii) : string := string_of_list_ascii s.

Module utf8.

Definition RuneError : rune := 65533.
Definition RuneSelf : Z := 128.

(** Size of the encoding announced by a leading byte, with the range
    accepted for the second byte (the tables [first] and
    [acceptRanges] of unicode/utf8). *)
Definition first (s0 : Z) : option (nat * Z * Z) :=
  if (194 <=? s0) && (s0 <=? 223) then Some (2%nat, 128, 191)
  else if s0 =? 224 then Some (3%nat, 160, 191)
  else if (225 <=? s0) && (s0 <=? 236) then Some (3%nat, 128, 191)
  else if s0 =? 237 then Some (3%nat, 128, 159)
  else if (238 <=? s0) && (s0 <=? 239) then Some (3%nat, 128, 191)
  else if s0 =? 240 then Some (4%nat, 144, 191)
  else if (241 <=? s0) && (s0 <=? 243) then Some (4%nat, 128, 191)
  else if s0 =? 244 then Some (4%nat, 128, 143)
  else None.

Definition cont (b : Z) : bool := (128 <=? b) && (b <=? 191).

Definition DecodeRuneInString (s : list ascii) : rune * nat :=
  match s with
  | [] => (RuneError, 0%nat)
  | c0 :: t =>
    let s0 := b2z c0 in
    if s0 <? RuneSelf then (s0, 1%nat)
    else match first s0 with
    | None => (RuneError, 1%nat)
    | Some (sz, lo, hi) =>
      if (length s <? sz)%nat then (RuneError, 1%nat)
      else match t with
      | [] => (RuneError, 1%nat)
      | c1 :: t1 =>
        let s1 := b2z c1 in
        if (s1 <? lo) || (hi <? s1) then (RuneError, 1%nat)
        else if (sz <=? 2)%nat
        then (Z.lor (Z.shiftl (Z.land s0 31) 6) (Z.land s1 63), 2%nat)
        else match t1 with
        | [] => (RuneError, 1%nat)
        | c2 :: t2 =>
          let s2 := b2z c2 in
          if negb (cont s2) then (RuneError, 1%nat)
          else if (sz <=? 3)%nat
          then (Z.lor (Z.lor (Z.shiftl (Z.land s0 15) 12)
                             (Z.shiftl (Z.land s1 63) 6))
                      (Z.land s2 63), 3%nat)
          else match t2 with
          | [] => (RuneError, 1%nat)
          | c3 :: _ =>
            let s3 := b2z c3 in
            if negb (cont s3) then (RuneError, 1%nat)
            else (Z.lor (Z.lor (Z.lor (Z.shiftl (Z.land s0 7) 18)
                                      (Z.shiftl (Z.land s1 63) 12))
                               (Z.shiftl (Z.land s2 63) 6))
                        (Z.land s3 63), 4%nat)
          end
        end
      end
    end
  end.

Definition ValidRune (r : rune) : bool :=
  ((0 <=? r) && (r <? 55296)) || ((57343 <? r) && (r <=? 1114111)).

Definition zb (z : Z) : ascii := ascii_of_N (Z.to_N (z mod 256)).

(** utf8.AppendRune: the encoding of a rune, [RuneError] for an invalid one. *)
Definition EncodeRune (r : rune) : list ascii :=
  let r := if ValidRune r then r else RuneError in
  if r <? 128 then [zb r]
  else if r <? 2048
  then [zb (Z.lor 192 (Z.shiftr r 6)); zb (Z.lor 128 (Z.land r 63))]
  else if r <? 65536
  then [zb (Z.lor 224 (Z.shiftr r 12));
        zb (Z.lor 128 (Z.land (Z.shiftr r 6) 63));
        zb (Z.lor 128 (Z.land r 63))]
  else [zb (Z.lor 240 (Z.shiftr r 18));
        zb (Z.lor 128 (Z.land (Z.shiftr r 12) 63));
        zb (Z.lor 128 (Z.land (Z.shiftr r 6) 63));
        zb (Z.lor 128 (Z.land r 63))].

(** utf8.ValidString, by decoding rune after rune. *)
Fixpoint ValidFrom (skip : nat) (s : list ascii) : bool :=
  match s with
  | [] => true
  | c :: t =>
    match skip with
    | S k => ValidFrom k t
    | O =>
      let '(r, w) := DecodeRuneInString s in
      if (r =? RuneError) && (w =? 1)%nat then false
      else ValidFrom (w - 1) t
    end
  end.
Definition ValidString (s : list ascii) : bool := ValidFrom 0 s.

End utf8.

Module strings.

(** strings.IndexRune(s, r) >= 0 for a set [s] of ASCII characters. *)
Definition ContainsRune (valid : list ascii) (r : rune) : bool :=
  (0 <=? r) && (r <? utf8.RuneSelf) && existsb (fun c => b2z c =? r) valid.

Fixpoint HasPrefix (s word : list ascii) : bool :=
  match word, s with
  | [], _ => true
  | w :: word', c :: s' => Ascii.eqb w c && HasPrefix s' word'
  | _ :: _, [] => false
  end.

(** strings.Count(s, "\n"). *)
Definition CountNewlines (s : list ascii) : nat :=
  length (List.filter (fun c => Ascii.eqb c "010"%char) s).

(** Lower-casing of one ASCII byte; other bytes are left alone. *)
Definition lower (c : ascii) : ascii :=
  let n := b2z c in
  if (65 <=? n) && (n <=? 90) then utf8.zb (n + 32) else c.

(** strings.EqualFold on names written in ASCII: equality under case
    folding of the letters A-Z.  Unicode folding of non-ASCII names
    (Go folds U+212A to k, for instance) is outside the model. *)
Definition EqualFold (s t : string) : bool :=
  bool_decide (map lower (bytes s) = map lower (bytes t)).

(** strings.Split(s, "."). *)
Fixpoint SplitDot (cur : list ascii) (s : list ascii) : list string :=
  match s with
  | [] => [str (rev cur)]
  | c :: t =>
    if Ascii.eqb c "."%char then str (rev cur) :: SplitDot [] t
    else SplitDot (c :: cur) t
  end.
Definition Split (s : string) : list string := SplitDot [] (bytes s).

End strings.

(** ** lex.go: the scanner *)

Inductive tokenType :=
  | tokenError | tokenEOF | tokenSpace | tokenKeyGroup | tokenKey
  | tokenKeySep | tokenBool | tokenNumber | tokenString | tokenDatetime
  | tokenArrayStart | tokenArrayEnd | tokenArraySep.

#[global] Instance tokenType_eq_dec : EqDecision tokenType.
Proof. solve_decision. Defined.

(** An argument of a format string.  [fmt.Sprintf] is not rendered: a
    message is kept as its format together with its arguments. *)
Inductive fmtArg :=
  | ArgRune (r : rune)
  | ArgString (s : string)
  | ArgInt (n : Z)
  | ArgToken (t : tokenType) (v : string) (a : list fmtArg)
  | ArgFormat (format : string) (a : list fmtArg).

Module Tok.
(** For an error token [val] is the format of the message and [args]
    its arguments; for every other token [val] is the text scanned
    and [args] is empty. *)
Record token := mk { typ : tokenType; pos : Pos; val : string; args : list fmtArg }.
End Tok.
Abbreviation token := Tok.token.
Arguments Tok.mk typ pos%_nat val%_string args.

Module Lexer.

Definition eof : rune := -1.
Definition keyGroupStart : rune := ch "[".
Definition keyGroupEnd : rune := ch "]".
Definition keyGroupSep : rune := ch ".".
Definition keySep : rune := ch "=".
Definition keySep2 : rune := ch ":".
Definition commentStart : rune := ch "#".

Definition datetimeFormat : list rune := map ch (bytes "0000-00-00T00:00:00Z").

Inductive stateFn :=
  | lexStartFn | lexKeyGroupFn | lexKeyFn | lexKeySepFn | lexValueFn
  | lexStringFn | lexNumberOrDatetimeFn | lexNumberFn | lexDatetimeFn.

Record lexer := mk {
  input : list ascii;
  pos : Pos;
  start : Pos;
  width : Pos;
  arrayDepth : Z
}.

(** What one call of a state function does: the tokens it sends, the
    scanner it leaves, and the next state ([None] for Go's nil). *)
Definition stepResult : Type := list token * lexer * option stateFn.

Definition isSpace (r : rune) : bool := (r =? ch " ") || (r =? ch "009").
Definition isDash (r : rune) : bool := r =? ch "-".
Definition isNewLine (r : rune) : bool := (r =? ch "010") || (r =? ch "013").
Definition isDigit (r : rune) : bool := (ch "0" <=? r) && (r <=? ch "9").
Definition isAlpha (r : rune) : bool :=
  (r =? ch "_") || ((ch "a" <=? r) && (r <=? ch "z"))
                || ((ch "A" <=? r) && (r <=? ch "Z")).
Definition isAlphaNumeric (r : rune) : bool := isAlpha r || isDigit r.

Arguments mk input pos%_nat start%_nat width%_nat arrayDepth%_Z.

(** The input that has not been read. *)
Definition unread (l : lexer) : list ascii := drop (pos l) (input l).

(** The scanner [n] bytes further, with [w] the width of the last rune. *)
Definition moved (n : nat) (w : Pos) (l : lexer) : lexer :=
  mk (input l) (pos l + n)%nat (start l) w (arrayDepth l).

Arguments moved n%_nat w%_nat l.

(** next returns the next rune in the input. *)
Definition next (l : lexer) : rune * lexer :=
  if (length (input l) <=? pos l)%nat
  then (eof, mk (input l) (pos l) (start l) 0%nat (arrayDepth l))
  else
    let '(r, w) := utf8.DecodeRuneInString (drop (pos l) (input l)) in
    (r, mk (input l) (pos l + w)%nat (start l) w (arrayDepth l)).

(** backup steps back one rune. *)
Definition backup (l : lexer) : lexer :=
  mk (input l) (pos l - width l)%nat (start l) (width l) (arrayDepth l).

(** peek returns but does not consume the next rune in the input. *)
Definition peek (l : lexer) : rune * lexer :=
  let '(r, l1) := next l in (r, backup l1).

Definition is_ (l : lexer) (word : string) : bool :=
  strings.HasPrefix (drop (pos l - width l)%nat (input l)) (bytes word).

(** accept consumes the next rune if it's from the valid set. *)
Definition accept (valid : string) (l : lexer) : bool * lexer :=
  let '(r, l1) := next l in
  if strings.ContainsRune (bytes valid) r then (true, l1)
  else (false, backup l1).

(** The loop of acceptRun: the scanner after the first rune that is
    not in the set has been read.  [fuel] bounds the iterations and
    is the length of the input, which is never reached. *)
Fixpoint acceptRun_loop (fuel : nat) (valid : string) (l : lexer) : lexer :=
  let '(r, l1) := next l in
  if strings.ContainsRune (bytes valid) r
  then match fuel with O => l1 | S f => acceptRun_loop f valid l1 end
  else l1.

(** acceptRun consumes a run of runes from the valid set. *)
Definition acceptRun (valid : string) (l : lexer) : lexer :=
  backup (acceptRun_loop (length (input l)) valid l).

Definition text (l : lexer) : string :=
  str (take (pos l - start l)%nat (drop (start l) (input l))).

(** emit passes a token back to the client. *)
Definition emit (t : tokenType) (l : lexer) : token * lexer :=
  (Tok.mk t (start l) (text l) [],
   mk (input l) (pos l) (pos l) (width l) (arrayDepth l)).

(** errorf sends an error token and ends the scan. *)
Definition errorf (l : lexer) (format : string) (a : list fmtArg) : stepResult :=
  ([Tok.mk tokenError (start l) format a], l, None).

(** ignore skips over the pending input before this point. *)
Definition ignore (l : lexer) : lexer :=
  mk (input l) (pos l) (pos l) (width l) (arrayDepth l).

Definition send (t : tokenType) (l : lexer) (nxt : option stateFn) : stepResult :=
  let '(tok, l1) := emit t l in ([tok], l1, nxt).

Fixpoint ignoreSpaces_loop (fuel : nat) (l : lexer) : lexer :=
  let '(r, l1) := next l in
  if isSpace r
  then match fuel with O => l1 | S f => ignoreSpaces_loop f l1 end
  else l1.

Definition ignoreSpaces (l : lexer) : lexer :=
  ignore (backup (ignoreSpaces_loop (length (input l)) l)).

Fixpoint lexComment_loop (fuel : nat) (l : lexer) : lexer :=
  let '(r, l1) := next l in
  if (r =? ch "010") || (r =? eof) then backup l1
  else match fuel with O => l1 | S f => lexComment_loop f l1 end.

Definition lexComment (l : lexer) (nextState : stateFn) : stepResult :=
  ([], ignore (lexComment_loop (length (input l)) l), Some nextState).

Definition lexStart (l : lexer) : stepResult :=
  let '(r, l) := next l in
  if r =? eof then send tokenEOF l None
  else if isDash r then ([], ignore l, Some lexStartFn)
  else if isNewLine r then
    let '(r2, l) := peek l in
    if isNewLine r2 then send tokenEOF l None
    else ([], ignore l, Some lexStartFn)
  else if isSpace r then ([], ignoreSpaces l, Some lexStartFn)
  else if r =? commentStart then lexComment l lexStartFn
  else if r =? keyGroupStart then ([], l, Some lexKeyGroupFn)
  else if isAlpha r then ([], l, Some lexKeyFn)
  else errorf l "lexStart parse error %#U" [ArgRune r].

(** The loop of lexKeyGroup: [None] once the closing bracket has been
    read, the offending rune otherwise (after backup). *)
Fixpoint lexKeyGroup_loop (fuel : nat) (l : lexer) : option rune * lexer :=
  let '(r, l1) := next l in
  if r =? keyGroupEnd then (None, l1)
  else if isAlphaNumeric r || (r =? keyGroupSep)
  then match fuel with O => (Some r, backup l1) | S f => lexKeyGroup_loop f l1 end
  else (Some r, backup l1).

Definition lexKeyGroup (l : lexer) : stepResult :=
  match lexKeyGroup_loop (length (input l)) l with
  | (Some r, l1) => errorf l1 "bad keygroup name %#U" [ArgRune r]
  | (None, l1) => send tokenKeyGroup l1 (Some lexStartFn)
  end.

(** The loop of lexKey: [None] when it stopped before a space, the
    offending rune otherwise (the scanner is backed up in both cases). *)
Fixpoint lexKey_loop (fuel : nat) (l : lexer) : option rune * lexer :=
  let '(r, l1) := next l in
  if isAlphaNumeric r
  then match fuel with O => (Some r, backup l1) | S f => lexKey_loop f l1 end
  else if isSpace r then (None, backup l1)
  else (Some r, backup l1).

Definition lexKey (l : lexer) : stepResult :=
  match lexKey_loop (length (input l)) l with
  | (Some r, l1) => errorf l1 "bad keyname %#U" [ArgRune r]
  | (None, l1) => send tokenKey l1 (Some lexKeySepFn)
  end.

Definition lexKeySep (l : lexer) : stepResult :=
  let l := ignoreSpaces l in
  let '(r, l) := next l in
  if (r =? keySep) || (r =? keySep2) then send tokenKeySep l (Some lexValueFn)
  else errorf l "bad key seperator %#U, want %#U" [ArgRune r; ArgRune keySep].

Definition setDepth (d : Z) (l : lexer) : lexer :=
  mk (input l) (pos l) (start l) (width l) d.

Definition advance (n : nat) (l : lexer) : lexer :=
  mk (input l) (pos l + n)%nat (start l) (width l) (arrayDepth l).

Definition lexValue (l : lexer) : stepResult :=
  let '(r, l) := next l in
  if r =? eof then send tokenEOF l None
  else if r =? ch "013" then ([], ignore l, Some lexValueFn)
  else if r =? ch "010" then
    let l := ignore l in
    if arrayDepth l =? 0 then ([], l, Some lexStartFn)
    else ([], l, Some lexValueFn)
  else if isSpace r then ([], ignoreSpaces l, Some lexValueFn)
  else if r =? commentStart then lexComment l lexValueFn
  else if r =? ch "034" then ([], l, Some lexStringFn)
  else if r =? ch "[" then
    send tokenArrayStart (setDepth (arrayDepth l + 1) l) (Some lexValueFn)
  else if r =? ch "]" then
    let l := setDepth (arrayDepth l - 1) l in
    if arrayDepth l <? 0 then errorf l "unexpected array end %#U" [ArgRune r]
    else send tokenArrayEnd l (Some lexValueFn)
  else if r =? ch "," then
    if 0 <? arrayDepth l then send tokenArraySep l (Some lexValueFn)
    else errorf l "unexpected comma outside array" []
  else if (r =? ch "+") || (r =? ch "-") then ([], backup l, Some lexNumberFn)
  else if (ch "0" <=? r) && (r <=? ch "9")
  then ([], backup l, Some lexNumberOrDatetimeFn)
  else if is_ l "true" then send tokenBool (advance 3 l) (Some lexStartFn)
  else if is_ l "false" then send tokenBool (advance 4 l) (Some lexStartFn)
  else errorf l "bad value %#U" [ArgRune r].

(** The loop of lexString: [true] once the closing quote has been read,
    [false] for an unterminated string. *)
Fixpoint lexString_loop (fuel : nat) (l : lexer) : bool * lexer :=
  let '(r, l1) := next l in
  if r =? ch "\" then
    let '(r2, l2) := next l1 in
    if r2 =? eof then (false, l2)
    else match fuel with O => (false, l2) | S f => lexString_loop f l2 end
  else if (r =? eof) || (r =? ch "010") then (false, l1)
  else if r =? ch "034" then (true, l1)
  else match fuel with O => (false, l1) | S f => lexString_loop f l1 end.

Definition lexString (l : lexer) : stepResult :=
  match lexString_loop (length (input l)) l with
  | (false, l1) => errorf l1 "unterminated string" []
  | (true, l1) => send tokenString l1 (Some lexValueFn)
  end.

Definition lexNumberOrDatetime (l : lexer) : stepResult :=
  let i := (pos l + 4)%nat in
  if (i <? length (input l))%nat && bool_decide (input l !! i = Some "-"%char)
  then ([], l, Some lexDatetimeFn)
  else ([], l, Some lexNumberFn).

Definition digits : string := "0123456789".

Definition lexNumber (l : lexer) : stepResult :=
  let '(_, l) := accept "+-" l in
  let l := acceptRun digits l in
  let '(dot, l) := accept "." l in
  let l := if dot then acceptRun digits l else l in
  let '(r, l) := peek l in
  if isAlphaNumeric r || (r =? ch "-") then
    let '(_, l) := next l in
    errorf l "bad number syntax: %q" [ArgString (text l)]
  else send tokenNumber l (Some lexValueFn).

(** The range loop of lexDatetime over the layout: the rune that does
    not fit, if any. *)
Fixpoint lexDatetime_loop (format : list rune) (l : lexer) : option rune * lexer :=
  match format with
  | [] => (None, l)
  | f :: format' =>
    let '(r, l1) := next l in
    if ((f =? ch "0") && isDigit r) || (f =? r) then lexDatetime_loop format' l1
    else (Some r, l1)
  end.

Definition lexDatetime (l : lexer) : stepResult :=
  match lexDatetime_loop datetimeFormat l with
  | (Some r, l1) => errorf l1 "bad datetime %#U" [ArgRune r]
  | (None, l1) => send tokenDatetime l1 (Some lexValueFn)
  end.

Definition call (st : stateFn) (l : lexer) : stepResult :=
  match st with
  | lexStartFn => lexStart l
  | lexKeyGroupFn => lexKeyGroup l
  | lexKeyFn => lexKey l
  | lexKeySepFn => lexKeySep l
  | lexValueFn => lexValue l
  | lexStringFn => lexString l
  | lexNumberOrDatetimeFn => lexNumberOrDatetime l
  | lexNumberFn => lexNumber l
  | lexDatetimeFn => lexDatetime l
  end.

(** run: the state loop, as the tokens it sends.  [None] when [fuel]
    state calls did not reach the nil state. *)
Fixpoint run (fuel : nat) (st : stateFn) (l : lexer) : option (list token) :=
  match fuel with
  | O => None
  | S f =>
    let '(out, l1, nxt) := call st l in
    match nxt with
    | None => Some out
    | Some st1 => (fun rest => out ++ rest) <$> run f st1 l1
    end
  end.

(** The first [n] calls of the state loop: the tokens they send, the
    scanner they leave and the state that would be called next. *)
Fixpoint after (n : nat) (st : stateFn) (l : lexer) : stepResult :=
  match n with
  | O => ([], l, Some st)
  | S n' =>
    let '(out, l1, nxt) := call st l in
    match nxt with
    | None => (out, l1, None)
    | Some st1 =>
      let '(out', l2, nxt') := after n' st1 l1 in (out ++ out', l2, nxt')
    end
  end.

Definition init (text : string) : lexer := mk (bytes text) 0%nat 0%nat 0%nat 0.

(** Every state call but lexNumberOrDatetime reads at least one byte or
    ends the scan, so three calls per byte and three more suffice. *)
Definition steps (text : string) : nat := (3 * String.length text + 3)%nat.

(** lex: the token stream of a text. *)
Definition lex (text : string) : option (list token) :=
  run (steps text) lexStartFn (init text).

(** The positions of a scanner are in order and inside the input; in
    the key group state the opening bracket has been read. *)
Definition inBounds (l : lexer) : Prop :=
  (start l <= pos l <= length (input l))%nat.

Definition Inv (st : stateFn) (l : lexer) : Prop :=
  inBounds l /\ (st = lexKeyGroupFn -> (start l < pos l)%nat).

(** [l'] is [l] after some runes have been read, the last of them
    [width l'] bytes wide. *)
Definition adv (l l' : lexer) : Prop :=
  input l' = input l /\ start l' = start l
  /\ (pos l + width l' <= pos l')%nat /\ (pos l' <= length (input l))%nat.

(** [l'] is [l] further on in the same input. *)
Definition fwd (l l' : lexer) : Prop :=
  input l' = input l /\ start l' = start l
  /\ (pos l <= pos l' <= length (input l))%nat.

(** lineNumber, from the position of the last token received. *)
Definition lineNumber (text : string) (lastPos : Pos) : nat :=
  (1 + strings.CountNewlines (take lastPos (bytes text)))%nat.

End Lexer.

Definition dq : string := String "034"%char EmptyString.
Definition nl : string := String "010"%char EmptyString.
Definition newline : ascii := "010"%char.

(** ** strconv and time, as far as the tree builder calls them *)

(** A [float64] is represented by the exact decimal value of the literal
    it was read from, in lowest terms; rounding to binary64 is not
    modelled. *)
Definition float64 := Q.

Module strconv.

Definition digitVal (c : ascii) : option Z :=
  let n := b2z c in
  if (48 <=? n) && (n <=? 57) then Some (n - 48) else None.

(** The digit loop of ParseUint in base [base], without its bound. *)
Fixpoint digitsVal (base : Z) (acc : Z) (s : list ascii) : option Z :=
  match s with
  | [] => Some acc
  | c :: t =>
    match digitVal c with
    | Some d => if d <? base then digitsVal base (acc * base + d) t else None
    | None => None
    end
  end.

Definition splitSign (s : list ascii) : bool * list ascii :=
  match s with
  | c :: t =>
    if Ascii.eqb c "+"%char then (false, t)
    else if Ascii.eqb c "-"%char then (true, t)
    else (false, s)
  | [] => (false, [])
  end.

(** strconv.ParseInt(s, 0, 64) on texts made of a sign, digits and a
    point, the characters of a number token: base 8 after a leading
    zero, base 10 otherwise, and the bounds of int64.  Prefixes 0x, 0b,
    0o and underscores, which no number token contains, are not
    modelled and give [None] here. *)
Definition ParseInt (s : string) : option Z :=
  match bytes s with
  | [] => None
  | _ =>
    let '(neg, ds) := splitSign (bytes s) in
    match ds with
    | [] => None
    | c :: t =>
      let un := if Ascii.eqb c "0"%char then digitsVal 8 0 t
                else digitsVal 10 0 ds in
      match un with
      | None => None
      | Some n =>
        if neg then (if n <=? 9223372036854775808 then Some (- n) else None)
        else (if n <? 9223372036854775808 then Some n else None)
      end
    end
  end.

Definition isDigitB (c : ascii) : bool :=
  match digitVal c with Some _ => true | None => false end.

(** The longest prefix of digits, and what follows it. *)
Fixpoint spanDigits (s : list ascii) : list ascii * list ascii :=
  match s with
  | c :: t =>
    if isDigitB c then let '(d, r) := spanDigits t in (c :: d, r)
    else ([], s)
  | [] => ([], [])
  end.

(** strconv.ParseFloat(s, 64) on the same texts: a sign, digits with
    at most one point, at least one digit.  Exponents, hexadecimal
    mantissas, infinities and NaN are not modelled, nor is the range
    of float64: a literal beyond it is read where Go answers ErrRange. *)
Definition ParseFloat (s : string) : option float64 :=
  let '(neg, ds) := splitSign (bytes s) in
  let '(ip, rest) := spanDigits ds in
  let '(fp, tl) :=
    match rest with
    | c :: t => if Ascii.eqb c "."%char then spanDigits t else ([], rest)
    | [] => ([], [])
    end in
  match tl, ip ++ fp with
  | _ :: _, _ => None
  | [], [] => None
  | [], _ =>
    match digitsVal 10 0 (ip ++ fp) with
    | Some m =>
      let q := Qred (Qmake m (Pos.of_nat (Z.to_nat (10 ^ Z.of_nat (length fp))))) in
      Some (if neg then Qred (Qopp q) else q)
    | None => None
    end
  end.

Definition unhex (c : ascii) : option Z :=
  let n := b2z c in
  if (48 <=? n) && (n <=? 57) then Some (n - 48)
  else if (97 <=? n) && (n <=? 102) then Some (n - 97 + 10)
  else if (65 <=? n) && (n <=? 70) then Some (n - 65 + 10)
  else None.

Fixpoint hexVal (acc : Z) (s : list ascii) : option Z :=
  match s with
  | [] => Some acc
  | c :: t => match unhex c with Some x => hexVal (Z.lor (Z.shiftl acc 4) x) t | None => None end
  end.

Fixpoint octVal (acc : Z) (s : list ascii) : option Z :=
  match s with
  | [] => Some acc
  | c :: t =>
    let x := b2z c - 48 in
    if (x <? 0) || (7 <? x) then None else octVal (Z.lor (Z.shiftl acc 3) x) t
  end.

(** strconv.UnquoteChar for a double-quoted literal: the bytes the first character or
    escape stands for, and the rest of the text. *)
Definition UnquoteChar (s : list ascii) : option (list ascii * list ascii) :=
  match s with
  | [] => None
  | c :: t =>
    if Ascii.eqb c "034"%char then None
    else if utf8.RuneSelf <=? b2z c then
      let '(r, size) := utf8.DecodeRuneInString s in
      Some (utf8.EncodeRune r, drop size s)
    else if negb (Ascii.eqb c "\"%char) then Some ([c], t)
    else match t with
    | [] => None
    | e :: s2 =>
      let simple z := Some ([utf8.zb z], s2) in
      let numeric n (single : bool) :=
        if (length s2 <? n)%nat then None
        else match hexVal 0 (take n s2) with
        | None => None
        | Some v =>
          if single then Some ([utf8.zb v], drop n s2)
          else if utf8.ValidRune v then Some (utf8.EncodeRune v, drop n s2)
          else None
        end in
      if Ascii.eqb e "a"%char then simple 7
      else if Ascii.eqb e "b"%char then simple 8
      else if Ascii.eqb e "f"%char then simple 12
      else if Ascii.eqb e "n"%char then simple 10
      else if Ascii.eqb e "r"%char then simple 13
      else if Ascii.eqb e "t"%char then simple 9
      else if Ascii.eqb e "v"%char then simple 11
      else if Ascii.eqb e "x"%char then numeric 2%nat true
      else if Ascii.eqb e "u"%char then numeric 4%nat false
      else if Ascii.eqb e "U"%char then numeric 8%nat false
      else if (48 <=? b2z e) && (b2z e <=? 55) then
        if (length s2 <? 2)%nat then None
        else match octVal (b2z e - 48) (take 2 s2) with
        | Some v => if 255 <? v then None else Some ([utf8.zb v], drop 2 s2)
        | None => None
        end
      else if Ascii.eqb e "\"%char then simple 92
      else if Ascii.eqb e "034"%char then simple 34
      else None
    end
  end.

(** The loop of Unquote over the text after the opening quote. *)
Fixpoint unquote_loop (fuel : nat) (buf : list ascii) (s : list ascii)
  : option (list ascii) :=
  match s with
  | [] => None
  | c :: t =>
    if Ascii.eqb c "034"%char then (match t with [] => Some buf | _ => None end)
    else if Ascii.eqb c "010"%char then None
    else match UnquoteChar s, fuel with
    | Some (out, rem), S f => unquote_loop f (buf ++ out) rem
    | _, _ => None
    end
  end.

Definition contains (c : ascii) (s : list ascii) : bool := existsb (Ascii.eqb c) s.

(** The position after the first [c] of [s], if any. *)
Fixpoint indexAfter (c : ascii) (s : list ascii) : option nat :=
  match s with
  | [] => None
  | x :: t => if Ascii.eqb x c then Some 1%nat else S <$> indexAfter c t
  end.

(** strconv.Unquote of a double-quoted literal; single-quoted and raw
    literals, which no string token is, are rejected. *)
Definition Unquote (s : string) : option string :=
  match bytes s with
  | q :: body =>
    if negb (Ascii.eqb q "034"%char) then None
    else match indexAfter "034"%char body with
    | None => None
    | Some e =>
      let lit := take (e - 1) body in
      if negb (contains "\"%char lit) && negb (contains "010"%char lit)
         && utf8.ValidString lit
      then (if (e <? length body)%nat then None else Some (str lit))
      else str <$> unquote_loop (length body) [] body
    end
  | [] => None
  end.

End strconv.

Module time.

(** A time.Time in UTC, by its calendar fields. *)
Record Time := mk { year : Z; month : Z; day : Z; hour : Z; minute : Z; second : Z }.

Definition isLeap (y : Z) : bool :=
  (y mod 4 =? 0) && (negb (y mod 100 =? 0) || (y mod 400 =? 0)).

Definition daysIn (m y : Z) : Z :=
  if m =? 2 then (if isLeap y then 29 else 28)
  else if (m =? 4) || (m =? 6) || (m =? 9) || (m =? 11) then 30 else 31.

Definition num (s : list ascii) : option Z :=
  if forallb strconv.isDigitB s then strconv.digitsVal 10 0 s else None.

(** time.Parse(time.RFC3339, s) on the layout of a date-time token,
    yyyy-mm-ddThh:mm:ssZ: the fields are read and their ranges checked.
    Offsets and fractional seconds, which no date-time token has, are
    not modelled. *)
Definition Parse (s : string) : option Time :=
  let b := bytes s in
  if negb (length b =? 20)%nat then None
  else if negb (bool_decide (b !! 4%nat = Some "-"%char /\ b !! 7%nat = Some "-"%char
                 /\ b !! 10%nat = Some "T"%char /\ b !! 13%nat = Some ":"%char
                 /\ b !! 16%nat = Some ":"%char /\ b !! 19%nat = Some "Z"%char))
  then None
  else
    match num (take 4 b), num (take 2 (drop 5 b)), num (take 2 (drop 8 b)),
          num (take 2 (drop 11 b)), num (take 2 (drop 14 b)), num (take 2 (drop 17 b)) with
    | Some y, Some m, Some d, Some h, Some mi, Some sec =>
      if (1 <=? m) && (m <=? 12) && (1 <=? d) && (d <=? daysIn m y)
         && (h <? 24) && (mi <? 60) && (sec <? 60)
      then Some (mk y m d h mi sec) else None
    | _, _, _, _, _, _ => None
    end.

End time.

(** ** node.go: the tree *)

Inductive NodeType :=
  | NodeList | NodeEntryGroup | NodeKeyGroup | NodeEntry | NodeKey
  | NodeBool | NodeString | NodeNumber | NodeDatetime | NodeArray.

Record KeyNode := newKey { KeyPos : Pos; Key : string }.

(** [Keys] is the list node of the key nodes, with its own position. *)
Record KeyGroupNode := newKeyGroup {
  KeyGroupPos : Pos; KeysPos : Pos; Keys : list KeyNode; KeyGroupText : string }.

Record BoolNode := newBool { BoolPos : Pos; True_ : bool }.

Record StringNode := newString { StringPos : Pos; Text : string; Quoted : string }.

Record NumberNode := mkNumber {
  NumberPos : Pos;
  IsInt : bool;
  IsFloat : bool;
  Int : Z;
  Float : float64;
  NumberText : string
}.

Record DatetimeNode := newDatetime { DatetimePos : Pos; Time : time.Time }.

(** A Node: a pointer to one of the node structs.  A list node is given
    by its position and its [Nodes]. *)
Inductive Node :=
  | ListNode (p : Pos) (Nodes : list Node)
  | EntryGroupNode (p : Pos) (KeyGroup : KeyGroupNode) (EntriesPos : Pos) (Entries : list Node)
  | EntryNode (p : Pos) (key : KeyNode) (Value : Node)
  | Bool_ (n : BoolNode)
  | String_ (n : StringNode)
  | Number (n : NumberNode)
  | Datetime (n : DatetimeNode)
  | ArrayNode (p : Pos) (Array : list Node).

Arguments newKey KeyPos%_nat Key%_string.
Arguments newKeyGroup KeyGroupPos%_nat KeysPos%_nat Keys KeyGroupText%_string.
Arguments newBool BoolPos%_nat True_.
Arguments newString StringPos%_nat Text%_string Quoted%_string.
Arguments mkNumber NumberPos%_nat IsInt IsFloat Int%_Z Float%_Q NumberText%_string.
Arguments newDatetime DatetimePos%_nat Time.
Arguments ListNode p%_nat Nodes.
Arguments EntryGroupNode p%_nat KeyGroup EntriesPos%_nat Entries.
Arguments EntryNode p%_nat key Value.
Arguments ArrayNode p%_nat Array.

Definition Type_ (n : Node) : NodeType :=
  match n with
  | ListNode _ _ => NodeList
  | EntryGroupNode _ _ _ _ => NodeEntryGroup
  | EntryNode _ _ _ => NodeEntry
  | Bool_ _ => NodeBool
  | String_ _ => NodeString
  | Number _ => NodeNumber
  | Datetime _ => NodeDatetime
  | ArrayNode _ _ => NodeArray
  end.

Definition StringKeys (g : KeyGroupNode) : list string := map Key (Keys g).

(** An error built by fmt.Errorf: the format and its arguments. *)
Record error := Errorf { format : string; fargs : list fmtArg }.

(** newNumber over the two parsers of strconv. *)
Definition newNumberWith (parseInt : string -> option Z)
    (parseFloat : string -> option float64) (pos : Pos) (text : string)
  : NumberNode + error :=
  match parseInt text with
  | Some i => inl (mkNumber pos true false i 0%Q text)
  | None =>
    match parseFloat text with
    | Some f => inl (mkNumber pos false true 0 f text)
    | None => inr (Errorf "illegal number syntax: %q" [ArgString text])
    end
  end.

Definition newNumber : Pos -> string -> NumberNode + error :=
  newNumberWith strconv.ParseInt strconv.ParseFloat.

(** ** Results *)

(** The outcome of a call that may panic: a value, an error recovered at
    the entry point, a panic that is not recovered (a runtime error, or
    a receive on the token channel after the scanner has stopped), or
    the exhaustion of the fuel of the model. *)
Inductive result (E A : Type) :=
  | Ok (a : A)
  | Err (e : E)
  | Crash (what : string)
  | OutOfFuel.
Arguments Ok {E A} a.
Arguments Err {E A} e.
Arguments Crash {E A} what.
Arguments OutOfFuel {E A}.

Definition rbind {E A B} (r : result E A) (k : A -> result E B) : result E B :=
  match r with
  | Ok a => k a
  | Err e => Err e
  | Crash w => Crash w
  | OutOfFuel => OutOfFuel
  end.

Notation "'let?' p := c 'in' k" := (rbind c (fun x => let 'p := x in k))
  (at level 10, p pattern, c at level 100, k at level 200, only parsing).

(** ** The tree builder *)

Module Tree.

(** A syntax error: the line of the last token received and the
    message, as format and arguments. *)
Record SyntaxError := mkError { line : nat; what : string; wargs : list fmtArg }.
Arguments mkError line%_nat what%_string wargs.

(** [lex] is the part of the token stream not yet received and
    [lastPos] the position of the last token received (the lexer's
    lastPos); [token0], [token1], [token2] are the lookahead array. *)
Record Tree := mk {
  Root : option (Pos * list Node);
  text : string;
  lex : list token;
  lastPos : Pos;
  token0 : token;
  token1 : token;
  token2 : token;
  peekCount : nat
}.

Arguments mk Root text%_string lex lastPos%_nat token0 token1 token2 peekCount%_nat.

Definition M (A : Type) : Type := result SyntaxError (A * Tree).

Definition zeroToken : token := Tok.mk tokenError 0%nat "" [].

(** t.token[i]; an index out of range is a runtime error. *)
Definition slot (i : nat) (t : Tree) : result SyntaxError token :=
  match i with
  | 0%nat => Ok (token0 t)
  | 1%nat => Ok (token1 t)
  | 2%nat => Ok (token2 t)
  | _ => Crash "index out of range"
  end.

Definition setPeek (n : nat) (t : Tree) : Tree :=
  mk (Root t) (text t) (lex t) (lastPos t) (token0 t) (token1 t) (token2 t) n.

Definition setRoot (r : option (Pos * list Node)) (t : Tree) : Tree :=
  mk r (text t) (lex t) (lastPos t) (token0 t) (token1 t) (token2 t) (peekCount t).

(** t.token[0] = t.lex.nextToken() *)
Definition nextToken (t : Tree) : M token :=
  match lex t with
  | [] => Crash "all goroutines are asleep"
  | tok :: rest =>
    Ok (tok, mk (Root t) (text t) rest (Tok.pos tok) tok (token1 t) (token2 t) (peekCount t))
  end.

(** next returns the next tok. *)
Definition next (t : Tree) : M token :=
  match peekCount t with
  | S n => let t := setPeek n t in let? tok := slot n t in Ok (tok, t)
  | O => let? (_, t) := nextToken t in let? tok := slot (peekCount t) t in Ok (tok, t)
  end.

(** backup backs the input stream up one tok. *)
Definition backup (t : Tree) : Tree := setPeek (S (peekCount t)) t.

(** peek returns but does not consume the next tok. *)
Definition peek (t : Tree) : M token :=
  match peekCount t with
  | S n => let? tok := slot n t in Ok (tok, t)
  | O => let? (_, t) := nextToken (setPeek 1 t) in Ok (token0 t, t)
  end.

(** The number of tokens that can still be read. *)
Definition pending (t : Tree) : nat := (peekCount t + length (lex t))%nat.

Fixpoint nextNonSpace_loop (fuel : nat) (t : Tree) : M token :=
  match fuel with
  | O => OutOfFuel
  | S f =>
    let? (tok, t) := next t in
    if decide (Tok.typ tok = tokenSpace) then nextNonSpace_loop f t
    else Ok (tok, t)
  end.

(** nextNonSpace returns the next non-space tok. *)
Definition nextNonSpace (t : Tree) : M token :=
  nextNonSpace_loop (S (pending t)) t.

(** peekNonSpace returns but does not consume the next non-space tok. *)
Definition peekNonSpace (t : Tree) : M token :=
  let? (tok, t) := nextNonSpace t in Ok (tok, backup t).

(** token.String, unrendered. *)
Definition tokArg (tok : token) : fmtArg :=
  ArgToken (Tok.typ tok) (Tok.val tok) (Tok.args tok).

(** tok.val as an argument: the text of the token, or the message of
    an error token. *)
Definition valArg (tok : token) : fmtArg := ArgFormat (Tok.val tok) (Tok.args tok).

(** errorf formats the error and terminates processing. *)
Definition errorf {A} (t : Tree) (format : string) (a : list fmtArg) : M A :=
  Err (mkError (Lexer.lineNumber (text t) (lastPos t)) format a).

(** error terminates processing. *)
Definition error_ {A} (t : Tree) (e : error) : M A :=
  errorf t "%s" [ArgFormat (format e) (fargs e)].

(** unexpected complains about the token and terminates processing. *)
Definition unexpected {A} (t : Tree) (tok : token) (context : string) : M A :=
  errorf t "unexpected %s in %s" [tokArg tok; ArgString context].

(** expect consumes the next token and guarantees it has the required type. *)
Definition expect (expected : tokenType) (context : string) (t : Tree) : M token :=
  let? (tok, t) := nextNonSpace t in
  if decide (Tok.typ tok = expected) then Ok (tok, t)
  else unexpected t tok context.

(** "[foo.bar]" *)
Definition parseKeyGroup (tok : token) : result SyntaxError KeyGroupNode :=
  let text := Tok.val tok in
  if (String.length text <? 2)%nat then Crash "slice bounds out of range"
  else
    let name := substring 1 (String.length text - 2) text in
    let keys := map (fun v => newKey (Tok.pos tok + String.length v)%nat v)
                    (strings.Split name) in
    Ok (newKeyGroup (Tok.pos tok) (Tok.pos tok + 1)%nat keys text).

(** value and array, which call each other, by recursion on [fuel]. *)
Fixpoint value_fuel (fuel : nat) (t : Tree) : M Node :=
  match fuel with
  | O => OutOfFuel
  | S f =>
    let? (tok, t) := nextNonSpace t in
    match Tok.typ tok with
    | tokenBool =>
      Ok (Bool_ (newBool (Tok.pos tok) (bool_decide (Tok.val tok = "true"))), t)
    | tokenNumber =>
      match newNumber (Tok.pos tok) (Tok.val tok) with
      | inl v => Ok (Number v, t)
      | inr err => error_ t err
      end
    | tokenString =>
      match strconv.Unquote (Tok.val tok) with
      | Some v => Ok (String_ (newString (Tok.pos tok) v (Tok.val tok)), t)
      | None => error_ t (Errorf "invalid syntax" [])
      end
    | tokenDatetime =>
      match time.Parse (Tok.val tok) with
      | Some v => Ok (Datetime (newDatetime (Tok.pos tok) v), t)
      | None => error_ t (Errorf "parsing time" [ArgString (Tok.val tok)])
      end
    | tokenArrayStart =>
      let? (ptok, t) := peek t in
      array_fuel f (Tok.pos ptok) [] t
    | _ => errorf t "unexpected %q in value" [valArg tok]
    end
  end
with array_fuel (fuel : nat) (pos : Pos) (array : list Node) (t : Tree) : M Node :=
  match fuel with
  | O => OutOfFuel
  | S f =>
    let? (tok, t) := peekNonSpace t in
    match Tok.typ tok with
    | tokenArrayEnd =>
      let? (_, t) := nextNonSpace t in
      Ok (ArrayNode pos array, t)
    | _ =>
      let? (node, t) := value_fuel f t in
      let? (tok2, t) := peekNonSpace t in
      let? (_, t) := (if decide (Tok.typ tok2 = tokenArrayEnd) then Ok (tok2, t)
                      else expect tokenArraySep "array" t) in
      array_fuel f pos (array ++ [node]) t
    end
  end.

(** Two calls per token that can still be read, and two more. *)
Definition fuelFor (t : Tree) : nat := (2 * pending t + 2)%nat.

(** value: string, array, ... *)
Definition value (t : Tree) : M Node := value_fuel (fuelFor t) t.

(** [1, 2]: the array after its opening bracket. *)
Definition array (t : Tree) : M Node :=
  let? (ptok, t) := peek t in array_fuel (fuelFor t) (Tok.pos ptok) [] t.

(** key = value *)
Definition entry (t : Tree) : M Node :=
  let? (tok, t) := nextNonSpace t in
  let key := newKey (Tok.pos tok) (Tok.val tok) in
  let? (_, t) := expect tokenKeySep "key seperator" t in
  let? (v, t) := value t in
  Ok (EntryNode (Tok.pos tok) key v, t).

Fixpoint entryGroup_loop (fuel : nat) (entries : list Node) (t : Tree)
  : M (list Node) :=
  match fuel with
  | O => OutOfFuel
  | S f =>
    let? (tok, t) := peekNonSpace t in
    match Tok.typ tok with
    | tokenKey => let? (e, t) := entry t in entryGroup_loop f (entries ++ [e]) t
    | _ => Ok (entries, t)
    end
  end.

(** [keygroup] followed by its entries. *)
Definition entryGroup (t : Tree) : M Node :=
  let? (tok, t) := nextNonSpace t in
  let? keyGroup := parseKeyGroup tok in
  let? (ptok, t) := peek t in
  let? (entries, t) := entryGroup_loop (S (pending t)) [] t in
  Ok (EntryGroupNode (Tok.pos tok) keyGroup (Tok.pos ptok) entries, t).

(** key = value, or [keygroup] *)
Definition top (t : Tree) : M Node :=
  let? (tok, t) := peekNonSpace t in
  match Tok.typ tok with
  | tokenError => let? (_, t) := nextNonSpace t in errorf t "%s" [valArg tok]
  | tokenKeyGroup => entryGroup t
  | tokenKey => entry t
  | _ => errorf t "unexpected %q" [valArg tok]
  end.

Fixpoint parse_loop (fuel : nat) (t : Tree) : M unit :=
  match fuel with
  | O => OutOfFuel
  | S f =>
    let? (tok, t) := peek t in
    if decide (Tok.typ tok = tokenEOF) then Ok (tt, t)
    else
      let? (n, t) := top t in
      let t := match Root t with
               | Some (p, nodes) => setRoot (Some (p, nodes ++ [n])) t
               | None => t
               end in
      parse_loop f t
  end.

Definition parse (t : Tree) : M unit :=
  let? (tok, t) := peek t in
  let t := setRoot (Some (Tok.pos tok, [])) t in
  parse_loop (S (pending t)) t.

(** Parse: the tree of a text, or the error the panic was recovered
    into. *)
Definition Parse (text : string) : result SyntaxError Tree :=
  match Lexer.lex text with
  | None => OutOfFuel
  | Some toks =>
    let? (_, t) := parse (mk None text toks 0%nat zeroToken zeroToken zeroToken 0%nat) in
    Ok t
  end.

(** The tokens the tree builder will read, the one it has peeked at
    first. *)
Definition stream (t : Tree) : list token :=
  match peekCount t with
  | O => lex t
  | S _ => token0 t :: lex t
  end.

(** A token of the middle of a stream, as the scanner sends them:
    neither end-of-input nor an error nor a space, and a key group
    token has its two brackets. *)
Definition middle (tok : token) : Prop :=
  Tok.typ tok <> tokenEOF /\ Tok.typ tok <> tokenError /\ Tok.typ tok <> tokenSpace
  /\ (Tok.typ tok = tokenKeyGroup -> (2 <= String.length (Tok.val tok))%nat).

(** The tree builder in front of the tokens of a scan: tokens of the
    middle, then one token of type [k], end-of-input or an error. *)
Definition closing (k : tokenType) (t : Tree) : Prop :=
  (peekCount t <= 1)%nat /\ (k = tokenEOF \/ k = tokenError)
  /\ exists pre e, stream t = pre ++ [e] /\ Forall middle pre /\ Tok.typ e = k.

(** What a call in front of such a stream may answer: an error, or a
    value with the tree builder in front of a shorter such stream. *)
Definition fails_or_advances {A} (k : tokenType) (t : Tree) (r : M A) : Prop :=
  (exists e, r = Err e)
  \/ (exists a t', r = Ok (a, t') /\ closing k t'
                   /\ (length (stream t') < length (stream t))%nat).

(** The document of a successful Parse. *)
Definition Document (r : result SyntaxError Tree) : option (list Node) :=
  match r with
  | Ok t => snd <$> Root t
  | _ => None
  end.

End Tree.

(** ** What the scanner sends *)

(** The last answer of a scan: one token, end-of-input or an error. *)
Definition final (out : list token) : Prop :=
  exists tok, out = [tok] /\ (Tok.typ tok = tokenEOF \/ Tok.typ tok = tokenError).

(** What a state call answers, from a scanner whose positions are in
    bounds. *)
Definition answers (r : Lexer.stepResult) : Prop :=
  match r with
  | (out, l', Some st') => Lexer.Inv st' l' /\ Forall Tree.middle out
  | (out, _, None) => final out
  end.

(** How far a state call is from the end of the scan: three for every
    byte left, and the calls that may follow without a byte being read
    (the value state hands a number over to the number-or-datetime state,
    that one to the number state; the key state may send an empty rest
    of a key). *)
Definition rank (st : Lexer.stateFn) : nat :=
  match st with
  | Lexer.lexValueFn => 2
  | Lexer.lexKeyFn | Lexer.lexNumberOrDatetimeFn => 1
  | _ => 0
  end.

Definition potential (st : Lexer.stateFn) (l : Lexer.lexer) : nat :=
  (3 * (length (Lexer.input l) - Lexer.pos l) + rank st)%nat.

(** What the value state has seen before it hands over: the number
    states are entered in front of a sign or a digit. *)
Definition ready (st : Lexer.stateFn) (l : Lexer.lexer) : Prop :=
  match st with
  | Lexer.lexNumberFn =>
    exists c t, Lexer.unread l = c :: t
      /\ (b2z c = ch "+" \/ b2z c = ch "-" \/ Lexer.isDigit (b2z c) = true)
  | Lexer.lexNumberOrDatetimeFn =>
    exists c t, Lexer.unread l = c :: t /\ Lexer.isDigit (b2z c) = true
  | _ => True
  end.

(** A state call either ends the scan or leaves it nearer to its end. *)
Definition progresses (st : Lexer.stateFn) (l : Lexer.lexer) (r : Lexer.stepResult) : Prop :=
  match r with
  | (_, l', Some st') => ready st' l' /\ (potential st' l' < potential st l)%nat
  | (_, _, None) => True
  end.

(** The side conditions of a step of the scan: the next scanner is in
    the same input and further on. *)
Ltac lens :=
  repeat match goal with
         | H : Lexer.input _ = Lexer.input _ |- _ => apply (f_equal (@length ascii)) in H
         end.

Ltac settle :=
  match goal with
  | |- ready _ _ => exact I
  | |- forall y, ready _ y => intros y; exact I
  | |- Lexer.input _ = Lexer.input _ => simpl in *; congruence
  | |- (_ <= _)%nat => simpl in *; lens; lia
  | |- _ \/ _ =>
    first [left; simpl in *; lens; lia | right; simpl in *; lens; split; simpl; lia]
  end.

(** ** reflect: the targets of the decoder *)

Module reflect.

Inductive Kind :=
  | KBool | KInt | KUint | KFloat | KString | KInterface
  | KStruct | KMap | KSlice | KArray | KOther.

#[global] Instance Kind_eq_dec : EqDecision Kind.
Proof. solve_decision. Defined.

(** The types a target can have.  [TInt], [TUint] and [TFloat] carry
    their width in bits; [TTime] is time.Time; [Tag] of a field is the
    value of its toml key, empty when the field has none. *)
Inductive Typ :=
  | TBool
  | TInt (bits : Z)
  | TUint (bits : Z)
  | TFloat (bits : Z)
  | TString
  | TInterface (numMethod : nat)
  | TTime
  | TStruct (fields : list StructField)
  | TMap (key elem : Typ)
  | TSlice (elem : Typ)
  | TArray (len : nat) (elem : Typ)
  | TOther (name : string)
with StructField :=
  | mkField (Name Tag : string) (Exported : bool) (Type_ : Typ).

Definition Name (f : StructField) : string := let 'mkField n _ _ _ := f in n.
Definition Tag (f : StructField) : string := let 'mkField _ t _ _ := f in t.
Definition Exported (f : StructField) : bool := let 'mkField _ _ e _ := f in e.
Definition FieldType (f : StructField) : Typ := let 'mkField _ _ _ t := f in t.

Definition kind (t : Typ) : Kind :=
  match t with
  | TBool => KBool
  | TInt _ => KInt
  | TUint _ => KUint
  | TFloat _ => KFloat
  | TString => KString
  | TInterface _ => KInterface
  | TTime | TStruct _ => KStruct
  | TMap _ _ => KMap
  | TSlice _ => KSlice
  | TArray _ _ => KArray
  | TOther _ => KOther
  end.

(** The fields of time.Time are not exported. *)
Definition timeFields : list StructField :=
  [mkField "wall" "" false (TUint 64); mkField "ext" "" false (TInt 64);
   mkField "loc" "" false (TOther "*time.Location")].

Definition fieldsOf (t : Typ) : list StructField :=
  match t with
  | TStruct fs => fs
  | TTime => timeFields
  | _ => []
  end.

(** The values.  A map value is nil or a reference to a map object;
    an interface value is nil or a value with its dynamic type.  A
    slice is its elements: the backing array that the copies of a
    slice share is not modelled. *)
Inductive Value :=
  | VBool (b : bool)
  | VInt (n : Z)
  | VUint (n : Z)
  | VFloat (f : float64)
  | VString (s : string)
  | VTime (t : time.Time)
  | VInterface (dyn : option (Typ * Value))
  | VStruct (fields : list Value)
  | VMap (ref : option nat)
  | VSlice (elems : list Value)
  | VArray (elems : list Value)
  | VOther.

Definition epoch : time.Time := time.mk 1 1 1 0 0 0.

(** reflect.Zero *)
Fixpoint zero (t : Typ) : Value :=
  match t with
  | TBool => VBool false
  | TInt _ => VInt 0
  | TUint _ => VUint 0
  | TFloat _ => VFloat 0%Q
  | TString => VString ""
  | TInterface _ => VInterface None
  | TTime => VTime epoch
  | TStruct fs => VStruct (map zeroField fs)
  | TMap _ _ => VMap None
  | TSlice _ => VSlice []
  | TArray n e => VArray (replicate n (zero e))
  | TOther _ => VOther
  end
with zeroField (f : StructField) : Value :=
  match f with mkField _ _ _ t => zero t end.

Definition mapStringInterface : Typ := TMap TString (TInterface 0).

(** The memory a decode works on: the variables ([vars], of which
    number 0 is the target and the others were made by reflect.New)
    and the map objects ([maps]); a map value refers to its object by
    its index. *)
Record State := mkState {
  vars : list Value;
  maps : list (gmap string Value)
}.

(** Where a reflect.Value lives: in a variable, at the end of a path
    of field indices, or nowhere when it is the plain value of a map
    or the zero Value. *)
Inductive Place :=
  | PVar (x : nat) (path : list nat) (settable : bool)
  | PMap (a : nat)
  | PInvalid.

Record RValue := mkValue { typ : Typ; place : Place }.

Fixpoint getPath (v : Value) (path : list nat) : option Value :=
  match path with
  | [] => Some v
  | i :: p =>
    match v with
    | VStruct fs => f ← fs !! i; getPath f p
    | _ => None
    end
  end.

Fixpoint setPath (v : Value) (path : list nat) (new : Value) : option Value :=
  match path with
  | [] => Some new
  | i :: p =>
    match v with
    | VStruct fs => f ← fs !! i; f' ← setPath f p new; Some (VStruct (<[i:=f']> fs))
    | _ => None
    end
  end.

Definition load (v : RValue) (st : State) : option Value :=
  match place v with
  | PVar x path _ => r ← vars st !! x; getPath r path
  | PMap a => Some (VMap (Some a))
  | PInvalid => None
  end.

Definition CanSet (v : RValue) : bool :=
  match place v with
  | PVar _ _ settable => settable
  | _ => false
  end.

(** v.Set(new) on a settable value. *)
Definition store (v : RValue) (new : Value) (st : State) : option State :=
  match place v with
  | PVar x path true =>
    r ← vars st !! x; r' ← setPath r path new;
    Some (mkState (<[x:=r']> (vars st)) (maps st))
  | _ => None
  end.

(** reflect.New(t).Elem(): a new variable holding the zero value. *)
Definition New (t : Typ) (st : State) : RValue * State :=
  (mkValue t (PVar (length (vars st)) [] true),
   mkState (vars st ++ [zero t]) (maps st)).

(** reflect.MakeMap, and make(map[string]interface{}): a new, empty
    map object. *)
Definition MakeMap (st : State) : nat * State :=
  (length (maps st), mkState (vars st) (maps st ++ [∅])).

(** Signed wrap-around of SetInt into [bits] bits. *)
Definition wrap (bits : Z) (n : Z) : Z :=
  (n + 2 ^ (bits - 1)) mod 2 ^ bits - 2 ^ (bits - 1).

End reflect.

(** ** The decoder *)

Module Decode.
Import reflect.

(** The errors of Unmarshal: the error of Parse, or what the decoder
    panicked with. *)
Inductive DecodeError :=
  | SyntaxErr (e : Tree.SyntaxError)
  | UnmarshalTypeError (Value : string) (Type_ : Typ)
  | FmtError (format : string) (a : list fmtArg)
  | ValueError (method : string).

Definition R (A : Type) : Type := result DecodeError A.

Definition ill {A} : R A := Crash "the target does not have its type".

(** An Array node into the elements of a sequence, one after the
    other: d.value(v.Index(i), subn). *)
Definition elements (value : Typ -> Value -> Node -> R Value) (elem : Typ) :=
  fix loop (i : nat) (nodes : list Node) (vals : list Value) {struct nodes}
    : R (list Value) :=
    match nodes with
    | [] => Ok vals
    | subn :: nodes' =>
      match vals !! i with
      | None => Crash "reflect: slice index out of range"
      | Some old =>
        let? x := value elem old subn in
        loop (S i) nodes' (<[i:=x]> vals)
      end
    end.

(** d.value(v, node), as the contents of v afterwards, from the type
    of v and its contents before.  Every v the decoder passes is
    settable. *)
Fixpoint value (t : Typ) (old : Value) (node : Node) {struct node} : R Value :=
  match node with
  | Bool_ n =>
    match t with
    | TBool => Ok (VBool (True_ n))
    | TInterface O => Ok (VInterface (Some (TBool, VBool (True_ n))))
    | _ => Err (UnmarshalTypeError "bool" t)
    end
  | String_ n =>
    match t with
    | TString => Ok (VString (Text n))
    | TInterface O => Ok (VInterface (Some (TString, VString (Text n))))
    | _ => Err (UnmarshalTypeError "string" t)
    end
  | Number n =>
    match t with
    | TInt bits =>
      if IsInt n then Ok (VInt (wrap bits (Int n)))
      else Err (UnmarshalTypeError "int" t)
    | TFloat _ =>
      if IsFloat n then Ok (VFloat (Float n))
      else Err (UnmarshalTypeError "float" t)
    | TInterface O =>
      if IsInt n then Ok (VInterface (Some (TInt 64, VInt (Int n))))
      else Ok (VInterface (Some (TFloat 64, VFloat (Float n))))
    | _ => Err (UnmarshalTypeError "number" t)
    end
  | Datetime n =>
    match t with
    | TTime => Ok (VTime (Time n))
    | TInterface O => Ok (VInterface (Some (TTime, VTime (Time n))))
    | _ => Err (UnmarshalTypeError "datetime" t)
    end
  | ArrayNode _ nodes =>
    let l := length nodes in
    let each elem vals := elements value elem 0%nat nodes vals in
    match t with
    | TInterface O =>
      (* newv := make([]interface{}, l); d.value(newv, n); v.Set(newv) *)
      let? vs := each (TInterface 0) (replicate l (VInterface None)) in
      Ok (VInterface (Some (TSlice (TInterface 0), VSlice vs)))
    | TArray _ elem =>
      match old with
      | VArray vals =>
        if (length vals <? l)%nat
        then Err (FmtError "run out of fixed array, len is %d, want %d -- %s"
                    [ArgInt (Z.of_nat (length vals)); ArgInt (Z.of_nat l)])
        else let? vs := each elem vals in Ok (VArray vs)
      | _ => ill
      end
    | TSlice elem =>
      match old with
      | VSlice vals =>
        (* Growing slice *)
        let vals := if (length vals <? l)%nat
                    then vals ++ replicate (l - length vals) (zero elem)
                    else vals in
        let? vs := each elem vals in Ok (VSlice vs)
      | _ => ill
      end
    | _ => Err (UnmarshalTypeError "array" t)
    end
  | ListNode _ _ | EntryGroupNode _ _ _ _ | EntryNode _ _ _ => Ok old
  end.

(** d.value on a reflect.Value: its contents are replaced. *)
Definition valueAt (v : RValue) (node : Node) (st : State) : R State :=
  match load v st with
  | None => ill
  | Some old =>
    let? new := value (typ v) old node in
    match store v new st with
    | Some st' => Ok st'
    | None => Crash "reflect.Value.Set using unaddressable value"
    end
  end.

(** The map object of a value of kind Map; a nil map is made first:
    if v.IsNil() { v.Set(reflect.MakeMap(v.Type())) } *)
Definition initMap (v : RValue) (st : State) : R (nat * State) :=
  match load v st with
  | Some (VMap (Some a)) => Ok (a, st)
  | Some (VMap None) =>
    let '(a, st1) := MakeMap st in
    match store v (VMap (Some a)) st1 with
    | Some st2 => Ok (a, st2)
    | None => Crash "reflect.Value.Set using unaddressable value"
    end
  | _ => ill
  end.

(** v.SetMapIndex(key, elem) on the map object [a]. *)
Definition SetMapIndex (a : nat) (key : string) (elem : Value) (st : State) : R State :=
  match maps st !! a with
  | Some m => Ok (mkState (vars st) (<[a := <[key := elem]> m]> (maps st)))
  | None => ill
  end.

(** A map[string]interface{} as a value of type [elem], where it can
    be assigned to it. *)
Definition asElem (elem : Typ) (a : nat) : R Value :=
  match elem with
  | TInterface O => Ok (VInterface (Some (mapStringInterface, VMap (Some a))))
  | TMap TString (TInterface O) => Ok (VMap (Some a))
  | _ => Crash "reflect.Value.SetMapIndex: value is not assignable"
  end.

(** The name a field is looked up by. *)
Definition fieldName (tf : StructField) : string :=
  if bool_decide (Tag tf = "") then Name tf else Tag tf.

Definition matches (tf : StructField) (key : string) : bool :=
  bool_decide (fieldName tf = key) || strings.EqualFold (fieldName tf) key.

(** A field is taken for a key when the name it is looked up by is the
    key, exactly or up to case, and the field can be set. *)
Definition takes (canSet : bool) (key : string) (tf : StructField) : Prop :=
  (fieldName tf = key \/ strings.EqualFold (fieldName tf) key = true)
  /\ canSet && Exported tf = true.

(** The loop of findField over the fields of a struct, from field [i]:
    the index of the first field that matches and can be set. *)
Fixpoint findStructField (canSet : bool) (key : string) (i : nat)
    (fields : list StructField) : option (nat * StructField) :=
  match fields with
  | [] => None
  | tf :: rest =>
    if matches tf key && (canSet && Exported tf) then Some (i, tf)
    else findStructField canSet key (S i) rest
  end.

Definition Field (v : RValue) (i : nat) (tf : StructField) : RValue :=
  match place v with
  | PVar x path s => mkValue (FieldType tf) (PVar x (path ++ [i]) (s && Exported tf))
  | _ => mkValue (FieldType tf) PInvalid
  end.

Definition invalid : RValue := mkValue (TOther "invalid") PInvalid.

Definition findField (context : string) (v : RValue) (key : string) (st : State)
  : R (RValue * bool * State) :=
  match place v with
  | PInvalid => Err (ValueError "reflect.Value.Type")
  | _ =>
    match typ v with
    | TMap kt elem =>
      if negb (bool_decide (kind kt = KString))
      then Err (UnmarshalTypeError context (typ v))
      else
        let? (a, st) := initMap v st in
        if bool_decide (context = "keygroup") then
          let '(a', st) := MakeMap st in
          let? e := asElem elem a' in
          let? st := SetMapIndex a key e st in
          Ok (mkValue mapStringInterface (PMap a'), true, st)
        else
          let '(next, st) := New elem st in
          Ok (next, true, st)
    | TStruct _ | TTime =>
      match findStructField (CanSet v) key 0 (fieldsOf (typ v)) with
      | Some (i, tf) => Ok (Field v i tf, true, st)
      | None => Ok (invalid, false, st)
      end
    | _ => Err (UnmarshalTypeError context (typ v))
    end
  end.

Definition entry (v : RValue) (key : KeyNode) (val : Node) (st : State) : R State :=
  let? (f, ok, st) := findField "entry" v (Key key) st in
  if negb ok then Ok st
  else
    let? st := valueAt f val st in
    (* Write to map, if using struct, f points into struct already. *)
    if bool_decide (kind (typ v) = KMap) then
      match load v st, load f st with
      | Some (VMap (Some a)), Some x => SetMapIndex a (Key key) x st
      | Some (VMap None), Some _ => Crash "assignment to entry in nil map"
      | _, _ => ill
      end
    else Ok st.

(** The loop of top over the keys of a group. *)
Fixpoint descend (keys : list string) (v : RValue) (st : State)
  : R (RValue * bool * State) :=
  match keys with
  | [] => Ok (v, true, st)
  | key :: keys' =>
    let? (v, ok, st) := findField "keygroup" v key st in
    if negb ok then Ok (v, false, st) else descend keys' v st
  end.

(** The loop of top over the entries of a group. *)
Fixpoint entries (v : RValue) (nodes : list Node) (st : State) : R State :=
  match nodes with
  | [] => Ok st
  | EntryNode _ key val :: nodes' =>
    let? st := entry v key val st in entries v nodes' st
  | _ :: _ => Crash "interface conversion: Node is not *EntryNode"
  end.

(** top: the cursor [v] is a variable of the function, assigned in
    the loop over the keys of a group. *)
Fixpoint top (v : RValue) (nodes : list Node) (st : State) : R State :=
  match nodes with
  | [] => Ok st
  | node :: nodes' =>
    match node with
    | EntryGroupNode _ keyGroup _ es =>
      let? (v, ok, st) := descend (StringKeys keyGroup) v st in
      if negb ok then Ok st
      else let? st := entries v es st in top v nodes' st
    | EntryNode _ key val =>
      let? st := entry v key val st in top v nodes' st
    | _ => top v nodes' st
    end
  end.

(** What Unmarshal is given: whether it is a pointer, the type and
    the contents of what it points to (or of the value itself), and
    the map objects it refers to. *)
Record Target := mkTarget {
  pointer : bool;
  ttype : Typ;
  tvalue : Value;
  tmaps : list (gmap string Value)
}.

Definition Unmarshal (data : string) (v : Target) : R State :=
  match Tree.Parse data with
  | Err e => Err (SyntaxErr e)
  | Crash w => Crash w
  | OutOfFuel => OutOfFuel
  | Ok tree =>
    match Tree.Root tree with
    | None => Crash "nil pointer dereference"
    | Some (_, nodes) =>
      let st := mkState [tvalue v] (tmaps v) in
      let rv := mkValue (ttype v) (PVar 0 [] (pointer v)) in
      match ttype v with
      | TInterface O =>
        (* Decoding into nil interface. *)
        let '(a, st) := MakeMap st in
        let newv := mkValue mapStringInterface (PMap a) in
        let? st := top newv nodes st in
        match store rv (VInterface (Some (mapStringInterface, VMap (Some a)))) st with
        | Some st' => Ok st'
        | None => Crash "reflect.Value.Set using unaddressable value"
        end
      | _ => top rv nodes st
      end
    end
  end.

(** The contents of the target after a decode. *)
Definition target (r : R State) : option Value :=
  match r with Ok st => vars st !! 0%nat | _ => None end.

(** The value under [key] in the map object [a] after a decode. *)
Definition mapGet (r : R State) (a : nat) (key : string) : option Value :=
  match r with
  | Ok st => m ← maps st !! a; m !! key
  | _ => None
  end.

(** The entries of the map object [a], listed. *)
Definition mapOf (r : R State) (a : nat) : list (string * Value) :=
  match r with
  | Ok st => match maps st !! a with Some m => map_to_list m | None => [] end
  | _ => []
  end.

End Decode.

(** ** The documents and targets of the examples *)

Module Examples.
Import reflect.

(** The document and the types of decode_test.go. *)
Definition doc3 : string :=
  nl +:+ "A = 1" +:+ nl +:+ "[User]" +:+ nl +:+ "Name = " +:+ dq +:+ "guten" +:+ dq +:+ nl.

Definition User : Typ := TStruct [mkField "Name" "" true TString].
Definition Rc : Typ :=
  TStruct [mkField "A" "" true (TInt 64); mkField "User" "" true User].

(** A pointer to a variable of type [t] holding its zero value. *)
Definition ptr (t : Typ) : Decode.Target := Decode.mkTarget true t (zero t) [].

(** var config interface{}; Unmarshal(doc, &config) *)
Definition dynamic : Decode.Target := ptr (TInterface 0).

(** The document of the section-group scoping property: the group
    [owner] twice. *)
Definition twice : string :=
  "[owner]" +:+ nl +:+ "name = " +:+ dq +:+ "a" +:+ dq +:+ nl +:+
  "[owner]" +:+ nl +:+ "name = " +:+ dq +:+ "b" +:+ dq +:+ nl.

Definition Owner : Typ := TStruct [mkField "Name" "" true TString].
Definition Config : Typ := TStruct [mkField "Owner" "" true Owner].

Definition iface (t : Typ) (v : Value) : Value := VInterface (Some (t, v)).
Definition imap (a : nat) : Value := iface mapStringInterface (VMap (Some a)).

End Examples.

(** ** What the tokens of a scan are *)

(** input[from:to] *)
Definition slice (input : list ascii) (from to : nat) : string :=
  str (take (to - from) (drop from input)).

(** The bytes between the quotes of a string token: a backslash takes
    the byte after it along, and no other quote or newline occurs. *)
Fixpoint strBody (s : list ascii) : bool :=
  match s with
  | [] => true
  | c :: t =>
    if Ascii.eqb c "\"%char
    then match t with [] => false | _ :: t' => strBody t' end
    else negb (Ascii.eqb c "034"%char) && negb (Ascii.eqb c "010"%char) && strBody t
  end.

(** An optional sign, digits, and an optional point with digits. *)
Definition numberText (s : list ascii) : Prop :=
  exists sign ds frac,
    s = sign ++ ds ++ frac
    /\ (sign = [] \/ sign = ["+"%char] \/ sign = ["-"%char])
    /\ Forall (fun d => Lexer.isDigit (b2z d) = true) ds
    /\ (frac = [] \/ exists ds2, frac = "."%char :: ds2
                     /\ Forall (fun d => Lexer.isDigit (b2z d) = true) ds2).

(** A byte at a place of the layout of datetimes. *)
Definition fitsLayout (f : rune) (c : ascii) : Prop :=
  (f = ch "0" /\ Lexer.isDigit (b2z c) = true) \/ f = b2z c.

(** The text a token of each type has. *)
Definition tokenText (t : tokenType) (s : list ascii) : Prop :=
  match t with
  | tokenBool => s = bytes "true" \/ s = bytes "false"
  | tokenKeySep => s = bytes "=" \/ s = bytes ":"
  | tokenArrayStart => s = bytes "["
  | tokenArrayEnd => s = bytes "]"
  | tokenArraySep => s = bytes ","
  | tokenKey =>
    exists c rest, s = c :: rest /\ Lexer.isAlpha (b2z c) = true
      /\ Forall (fun d => Lexer.isAlphaNumeric (b2z d) = true) rest
  | tokenKeyGroup =>
    exists name, s = "["%char :: name ++ ["]"%char]
      /\ Forall (fun d => Lexer.isAlphaNumeric (b2z d) = true \/ d = "."%char) name
  | tokenString =>
    exists body, s = "034"%char :: body ++ ["034"%char] /\ strBody body = true
  | tokenNumber => numberText s
  | tokenDatetime => Forall2 fitsLayout Lexer.datetimeFormat s
  | tokenEOF | tokenError | tokenSpace => True
  end.

(** A scanner as a state function finds it: nothing is pending, but in
    the key group, key and string states, which are entered with their
    first byte read. *)
Definition entered (st : Lexer.stateFn) (l : Lexer.lexer) : Prop :=
  (Lexer.pos l <= length (Lexer.input l))%nat /\
  match st with
  | Lexer.lexKeyGroupFn =>
    Lexer.pos l = S (Lexer.start l) /\ Lexer.input l !! Lexer.start l = Some "["%char
  | Lexer.lexKeyFn =>
    Lexer.pos l = S (Lexer.start l)
    /\ exists c, Lexer.input l !! Lexer.start l = Some c /\ Lexer.isAlpha (b2z c) = true
  | Lexer.lexStringFn =>
    Lexer.pos l = S (Lexer.start l) /\ Lexer.input l !! Lexer.start l = Some "034"%char
  | _ => Lexer.start l = Lexer.pos l
  end.

(** A token sent by a call from the scanner [l] that leaves the pending
    input at [e]: an error, or the input from its position to [e], with
    the text of its type. *)
Definition sent (l : Lexer.lexer) (tok : token) (e : nat) : Prop :=
  (Lexer.start l <= Tok.pos tok <= e)%nat
  /\ (Tok.typ tok = tokenError
      \/ ((e <= length (Lexer.input l))%nat
          /\ Tok.val tok = slice (Lexer.input l) (Tok.pos tok) e
          /\ Tok.args tok = []
          /\ tokenText (Tok.typ tok) (bytes (Tok.val tok)))).

(** What a state call does to a scanner that it was entered with. *)
Definition stepOK (l : Lexer.lexer) (r : Lexer.stepResult) : Prop :=
  let '(out, l', nxt) := r in
  Lexer.input l' = Lexer.input l /\ (Lexer.start l <= Lexer.start l')%nat
  /\ (out = [] \/ exists tok, out = [tok] /\ sent l tok (Lexer.start l'))
  /\ match nxt with Some st' => entered st' l' | None => True end.

(** Tokens one after the other in the input, from [from] on: each is
    the piece of the input at its position and has the text of its
    type; an error token ends them. *)
Fixpoint chain (input : list ascii) (from : nat) (toks : list token) : Prop :=
  match toks with
  | [] => True
  | tok :: rest =>
    (from <= Tok.pos tok)%nat
    /\ ((Tok.typ tok = tokenError /\ rest = [])
        \/ (Tok.typ tok <> tokenError
            /\ (Tok.pos tok + String.length (Tok.val tok) <= length input)%nat
            /\ Tok.val tok
               = slice input (Tok.pos tok) (Tok.pos tok + String.length (Tok.val tok))
            /\ tokenText (Tok.typ tok) (bytes (Tok.val tok))
            /\ chain input (Tok.pos tok + String.length (Tok.val tok)) rest))
  end.

(** The states that are entered with nothing pending. *)
Definition plain (nxt : option Lexer.stateFn) : Prop :=
  match nxt with
  | Some Lexer.lexKeyGroupFn | Some Lexer.lexKeyFn | Some Lexer.lexStringFn => False
  | _ => True
  end.

(** ** The nodes of a document *)

(** A value of the tree: a scalar, or an array of values. *)
Fixpoint isValue (n : Node) : bool :=
  match n with
  | Bool_ _ | String_ _ | Number _ | Datetime _ => true
  | ArrayNode _ ns => forallb isValue ns
  | _ => false
  end.

(** An entry with its value, and a node of the top level: an entry, or
    a group of entries. *)
Definition isEntry (n : Node) : bool :=
  match n with
  | EntryNode _ _ v => isValue v
  | _ => false
  end.

Definition isTop (n : Node) : bool :=
  match n with
  | EntryNode _ _ v => isValue v
  | EntryGroupNode _ _ _ es => forallb isEntry es
  | _ => false
  end.

(** The calls of the tree builder read tokens; the root and the text
    stay. *)
Definition kept (t t' : Tree.Tree) : Prop :=
  Tree.Root t' = Tree.Root t /\ Tree.text t' = Tree.text t.

(** ** parse.go: the rest of the lookahead, and ErrorContext *)

Module Lookahead.
Import Tree.

(** backup2 backs the input stream up two tokens.  The zeroth token is
    already there. *)
Definition backup2 (t1 : token) (t : Tree) : Tree :=
  mk (Root t) (text t) (lex t) (lastPos t) (token0 t) t1 (token2 t) 2.

(** backup3 backs the input stream up three tokens.  The zeroth token
    is already there. *)
Definition backup3 (t2 t1 : token) (t : Tree) : Tree :=
  mk (Root t) (text t) (lex t) (lastPos t) (token0 t) t1 t2 3.

(** expectOneOf consumes the next token and guarantees it has one of
    the required types. *)
Definition expectOneOf (expected1 expected2 : tokenType) (context : string) (t : Tree)
  : M token :=
  let? (tok, t) := nextNonSpace t in
  if negb (bool_decide (Tok.typ tok = expected1))
     && negb (bool_decide (Tok.typ tok = expected2))
  then unexpected t tok context
  else Ok (tok, t).

(** n.Position() *)
Definition Position (n : Node) : Pos :=
  match n with
  | ListNode p _ | EntryGroupNode p _ _ _ | EntryNode p _ _ | ArrayNode p _ => p
  | Bool_ b => BoolPos b
  | String_ s => StringPos s
  | Number m => NumberPos m
  | Datetime d => DatetimePos d
  end.

(** strings.LastIndex(s, "\n"), [None] for -1. *)
Fixpoint LastIndexNewline (s : list ascii) : option nat :=
  match s with
  | [] => None
  | c :: t =>
    match LastIndexNewline t with
    | Some i => Some (S i)
    | None => if Ascii.eqb c "010"%char then Some 0%nat else None
    end
  end.

(** ErrorContext returns a textual representation of the location of
    the node in the input text: the line and the byte in it that
    location renders as "%d:%d", and the context.  The text is sliced
    at the position of the node, which panics beyond its end. *)
Definition ErrorContext (t : Tree) (n : Node) : result SyntaxError (nat * nat * string) :=
  let pos := Position n in
  if (String.length (text t) <? pos)%nat then Crash "slice bounds out of range"
  else
    let text := take pos (bytes (text t)) in
    let byteNum :=
      match LastIndexNewline text with
      | None => pos (* On first line. *)
      | Some byteNum => (pos - S byteNum)%nat (* After the newline. *)
      end in
    let lineNum := (1 + strings.CountNewlines text)%nat in
    Ok (lineNum, byteNum, "TODO").

End Lookahead.

(** ** node.go: the nodes as text *)

Module Print.

(** strings.Join *)
Fixpoint Join (elems : list string) (sep : string) : string :=
  match elems with
  | [] => ""
  | x :: rest =>
    match rest with
    | [] => x
    | _ :: _ => x +:+ sep +:+ Join rest sep
    end
  end.

Definition KeyNode_String (k : KeyNode) : string := Key k.

(** fmt.Sprintf("[%s]", strings.Join(keys, ".")) *)
Definition KeyGroupNode_String (g : KeyGroupNode) : string :=
  "[" +:+ Join (map KeyNode_String (Keys g)) "." +:+ "]".

Definition BoolNode_String (b : BoolNode) : string :=
  if True_ b then "true" else "false".

Definition StringNode_String (s : StringNode) : string := Quoted s.

Definition NumberNode_String (n : NumberNode) : string := NumberText n.

End Print.

(** ** Targets and what a decode leaves in them *)

(** The value a node gives to a dynamic target. *)
Definition dynamicOf (n : Node) : reflect.Value :=
  match Decode.value (reflect.TInterface 0) (reflect.VInterface None) n with
  | Ok x => x
  | _ => reflect.VInterface None
  end.

(** The value of the last entry with the key [k] among [nodes], [acc]
    when there is none. *)
Fixpoint latest (k : string) (nodes : list Node) (acc : option reflect.Value)
  : option reflect.Value :=
  match nodes with
  | [] => acc
  | EntryNode _ key v :: rest =>
    latest k rest (if bool_decide (Key key = k) then Some (dynamicOf v) else acc)
  | _ :: rest => latest k rest acc
  end.

(** The values of a type: a fixed array has its length, the elements of
    a sequence and the fields of a struct their types, and what an
    interface holds the type it is held with. *)
Fixpoint fits (v : reflect.Value) (t : reflect.Typ) {struct v} : bool :=
  match v, t with
  | reflect.VBool _, reflect.TBool => true
  | reflect.VInt _, reflect.TInt _ => true
  | reflect.VUint _, reflect.TUint _ => true
  | reflect.VFloat _, reflect.TFloat _ => true
  | reflect.VString _, reflect.TString => true
  | reflect.VTime _, reflect.TTime => true
  | reflect.VInterface None, reflect.TInterface _ => true
  | reflect.VInterface (Some (t', x)), reflect.TInterface _ => fits x t'
  | reflect.VStruct vs, reflect.TStruct fs =>
    (fix go (vs : list reflect.Value) (fs : list reflect.StructField) : bool :=
       match vs, fs with
       | [], [] => true
       | x :: vs', f :: fs' => fits x (reflect.FieldType f) && go vs' fs'
       | _, _ => false
       end) vs fs
  | reflect.VMap _, reflect.TMap _ _ => true
  | reflect.VSlice vs, reflect.TSlice e => forallb (fun x => fits x e) vs
  | reflect.VArray vs, reflect.TArray n e =>
    (length vs =? n)%nat && forallb (fun x => fits x e) vs
  | reflect.VOther, reflect.TOther _ => true
  | _, _ => false
  end.

(** What an empty interface holds after a decode: a bool, a string, an
    int64, a float64, a time.Time, or a []interface{} of such. *)
Fixpoint isDynamic (v : reflect.Value) : bool :=
  match v with
  | reflect.VInterface (Some (t, x)) =>
    match t, x with
    | reflect.TBool, reflect.VBool _ => true
    | reflect.TString, reflect.VString _ => true
    | reflect.TInt 64, reflect.VInt _ => true
    | reflect.TFloat 64, reflect.VFloat _ => true
    | reflect.TTime, reflect.VTime _ => true
    | reflect.TSlice (reflect.TInterface O), reflect.VSlice vs => forallb isDynamic vs
    | _, _ => false
    end
  | _ => false
  end.

(** The panics of the decoder that Unmarshal returns as its error. *)
Definition ownError (e : Decode.DecodeError) : Prop :=
  match e with
  | Decode.UnmarshalTypeError _ _ | Decode.FmtError _ _ => True
  | _ => False
  end.

(** The map of a group of entries decoded into a map of empty
    interfaces. *)
Definition put (m : gmap string reflect.Value) (n : Node) : gmap string reflect.Value :=
  match n with
  | EntryNode _ key v => <[Key key := dynamicOf v]> m
  | _ => m
  end.

(** What a call of value may come to, for a target of type [t]. *)
Definition sound (t : reflect.Typ) (r : Decode.R reflect.Value) : Prop :=
  match r with
  | Ok x => fits x t = true
  | Err e => ownError e
  | _ => False
  end.

(** ** The tree builder and the text *)

(** The tree builder with the text [s] in place of its own. *)
Definition retext (s : string) (t : Tree.Tree) : Tree.Tree :=
  Tree.mk (Tree.Root t) s (Tree.lex t) (Tree.lastPos t)
          (Tree.token0 t) (Tree.token1 t) (Tree.token2 t) (Tree.peekCount t).

(** Two answers of the tree builder that differ by the text only: the
    same value and the same tree but for its text, or an error with the
    same message, whose line is counted in the text. *)
Definition alike {A} (s : string) (r r' : Tree.M A) : Prop :=
  match r with
  | Ok (a, t) => r' = Ok (a, retext s t)
  | Err e => exists line, r' = Err (Tree.mkError line (Tree.what e) (Tree.wargs e))
  | Crash w => r' = Crash w
  | OutOfFuel => r' = OutOfFuel
  end.


(** * Properties *)

(** ** Number nodes *)

Section NewNumber.
Variable parseInt : string -> option Z.
Variable parseFloat : string -> option float64.

(** Whatever the two parsers of strconv answer, a number node that
    was built has one flag set, and the value next to it is the one
    the parser that was tried at that point returned. *)
Lemma newNumberWith_flags pos text n :
  newNumberWith parseInt parseFloat pos text = inl n ->
  (IsInt n = true /\ IsFloat n = false /\ parseInt text = Some (Int n)) \/
  (IsInt n = false /\ IsFloat n = true /\ parseInt text = None
     /\ parseFloat text = Some (Float n)).
Proof.
  unfold newNumberWith. intros H.
  destruct (parseInt text) as [i|] eqn:Hi.
  - left. inversion H; subst; simpl. auto.
  - destruct (parseFloat text) as [f|] eqn:Hf; [|discriminate].
    right. inversion H; subst; simpl. auto.
Qed.

Lemma newNumberWith_fails pos text :
  (exists e, newNumberWith parseInt parseFloat pos text = inr e) <->
  parseInt text = None /\ parseFloat text = None.
Proof.
  unfold newNumberWith.
  destruct (parseInt text), (parseFloat text); split;
    try (intros [e He]; discriminate); try (intros [? ?]; discriminate);
    eauto.
Qed.
End NewNumber.

(** C8: a number node that was built has exactly one of its integer and
    floating values populated, the integer one when the text parses as
    an integer and the floating one otherwise; a dynamic target receives
    the populated value, so that 3 decodes as the integer 3 and 3.0 as
    the float 3.0. *)
Theorem C8_number_has_exactly_one_value pos text n old :
  newNumber pos text = inl n ->
  xorb (IsInt n) (IsFloat n) = true
  /\ (IsInt n = true -> strconv.ParseInt text = Some (Int n))
  /\ (IsFloat n = true ->
        strconv.ParseInt text = None /\ strconv.ParseFloat text = Some (Float n))
  /\ Decode.value (reflect.TInterface 0) old (Number n)
     = Ok (if IsInt n then Examples.iface (reflect.TInt 64) (reflect.VInt (Int n))
           else Examples.iface (reflect.TFloat 64) (reflect.VFloat (Float n)))
  /\ Decode.mapOf (Decode.Unmarshal "x = 3" Examples.dynamic) 0
     = [("x", Examples.iface (reflect.TInt 64) (reflect.VInt 3))]
  /\ Decode.mapOf (Decode.Unmarshal "x = 3.0" Examples.dynamic) 0
     = [("x", Examples.iface (reflect.TFloat 64) (reflect.VFloat 3%Q))].
Proof.
  intros H. apply newNumberWith_flags in H.
  destruct H as [(Hi & Hf & Hp) | (Hi & Hf & Hp & Hq)];
    rewrite ?Hi, ?Hf; repeat split; try discriminate; auto;
    simpl; rewrite ?Hi; reflexivity.
Qed.

Lemma C8_number_has_exactly_one_value_witness :
  newNumber 4%nat "3.0" = inl (mkNumber 4%nat false true 0 3%Q "3.0")
  /\ xorb false true = true.
Proof.
  split; [reflexivity|].
  exact (proj1 (C8_number_has_exactly_one_value 4%nat "3.0"
                  (mkNumber 4%nat false true 0 3%Q "3.0")
                  (reflect.VInterface None) eq_refl)).
Defined.

(** ** Field resolution *)

Section FindField.
Import reflect Decode.

Lemma takes_test canSet key tf :
  takes canSet key tf <-> matches tf key && (canSet && Exported tf) = true.
Proof.
  unfold takes, matches.
  rewrite !andb_true_iff, orb_true_iff, bool_decide_eq_true. tauto.
Qed.

Lemma findStructField_Some canSet key fs : forall i j tf,
  findStructField canSet key i fs = Some (j, tf) ->
  exists k, j = (i + k)%nat /\ fs !! k = Some tf /\ takes canSet key tf
    /\ forall k' tf', (k' < k)%nat -> fs !! k' = Some tf' -> ~ takes canSet key tf'.
Proof.
  induction fs as [|f fs IH]; intros i j tf H; simpl in H; [discriminate|].
  destruct (matches f key && (canSet && Exported f)) eqn:E.
  - inversion H; subst. exists 0%nat.
    refine (conj _ (conj eq_refl (conj _ _))).
    + lia.
    + apply takes_test, E.
    + intros k' tf' Hk. lia.
  - apply IH in H. destruct H as (k & -> & Hk & Ht & Hfirst).
    exists (S k). refine (conj _ (conj Hk (conj Ht _))); [lia|].
    intros [|k'] tf' Hlt Hl; simpl in Hl.
    + inversion Hl; subst. rewrite takes_test, E. discriminate.
    + apply (Hfirst k'); auto. lia.
Qed.

Lemma findStructField_None canSet key fs : forall i,
  findStructField canSet key i fs = None ->
  forall k tf, fs !! k = Some tf -> ~ takes canSet key tf.
Proof.
  induction fs as [|f fs IH]; intros i H k tf Hl; [discriminate|].
  simpl in H. destruct (matches f key && (canSet && Exported f)) eqn:E; [discriminate|].
  destruct k as [|k]; simpl in Hl.
  - inversion Hl; subst. rewrite takes_test, E. discriminate.
  - eapply IH; eauto.
Qed.
End FindField.

(** C7, as the code has it: findField on a record answers with the first
    field, in the order of declaration, that can be set and whose lookup
    name is the key exactly or up to case, where the lookup name of a
    field is its tag when it has one and its natural name otherwise; it
    answers not found exactly when there is no such field, and leaves
    the target as it is. *)
Theorem C7_findField_struct fs x path s context key st :
  let v := reflect.mkValue (reflect.TStruct fs) (reflect.PVar x path s) in
  match Decode.findField context v key st with
  | Ok (f, true, st') =>
    st' = st /\
    exists i tf, fs !! i = Some tf /\ f = Decode.Field v i tf /\ Decode.takes s key tf
      /\ forall j tf', (j < i)%nat -> fs !! j = Some tf' -> ~ Decode.takes s key tf'
  | Ok (f, false, st') =>
    st' = st /\ forall j tf', fs !! j = Some tf' -> ~ Decode.takes s key tf'
  | _ => False
  end.
Proof.
  intros v. unfold Decode.findField, reflect.CanSet, v. simpl.
  destruct (Decode.findStructField s key 0 fs) as [[i tf]|] eqn:E.
  - split; [reflexivity|].
    apply findStructField_Some in E. destruct E as (k & -> & Hk & Ht & Hfirst).
    exists k, tf. simpl. auto.
  - split; [reflexivity|]. eapply findStructField_None; eauto.
Qed.

(** C7, as the specification has it, fails: a field with the tag Foo is
    taken for the key foo, which its tag does not equal, and findField
    answers with that field. *)
Lemma C7_tag_is_matched_up_to_case :
  ~ (forall tf key, Decode.matches tf key = true ->
       reflect.Tag tf <> "" -> reflect.Tag tf = key)
  /\ let T := reflect.TStruct [reflect.mkField "X" "Foo" true reflect.TString] in
     let v := reflect.mkValue T (reflect.PVar 0 [] true) in
     let st := reflect.mkState [reflect.zero T] [] in
     Decode.findField "entry" v "foo" st
     = Ok (reflect.mkValue reflect.TString (reflect.PVar 0 [0%nat] true), true, st).
Proof.
  split; [|reflexivity].
  intros H.
  specialize (H (reflect.mkField "X" "Foo" true reflect.TString) "foo" eq_refl).
  simpl in H. discriminate H. discriminate.
Qed.

(** ** Arrays into sequences *)

(** Induction on nodes, with the hypothesis for every node of a list. *)
Lemma Node_nested_ind (P : Node -> Prop)
  (HList : forall p ns, Forall P ns -> P (ListNode p ns))
  (HGroup : forall p kg ep es, Forall P es -> P (EntryGroupNode p kg ep es))
  (HEntry : forall p k v, P v -> P (EntryNode p k v))
  (HBool : forall n, P (Bool_ n))
  (HString : forall n, P (String_ n))
  (HNumber : forall n, P (Number n))
  (HDatetime : forall n, P (Datetime n))
  (HArray : forall p ns, Forall P ns -> P (ArrayNode p ns)) :
  forall n, P n.
Proof.
  fix IH 1. intros [p ns|p kg ep es|p k v|n|n|n|n|p ns].
  - apply HList. induction ns; constructor; auto.
  - apply HGroup. induction es; constructor; auto.
  - apply HEntry, IH.
  - apply HBool.
  - apply HString.
  - apply HNumber.
  - apply HDatetime.
  - apply HArray. induction ns; constructor; auto.
Qed.

Section Elements.
Import reflect Decode.
Variable val : Typ -> Value -> Node -> R Value.
Variable elem : Typ.


(** The loop succeeds when every element does and the sequence is
    long enough. *)
Lemma elements_total nodes : forall i vals,
  Forall (fun n => forall o, exists x, val elem o n = Ok x) nodes ->
  (i + length nodes <= length vals)%nat ->
  exists vs, elements val elem i nodes vals = Ok vs.
Proof.
  induction nodes as [|n nodes IH]; intros i vals Hall Hlen; simpl.
  - eauto.
  - simpl in Hlen. inversion Hall as [|? ? Hn Hrest]; subst.
    destruct (lookup_lt_is_Some_2 vals i) as [o Ho]; [lia|].
    rewrite Ho. destruct (Hn o) as [x Hx]. rewrite Hx. simpl.
    apply IH; auto. rewrite length_insert. lia.
Qed.
End Elements.

(** Every node decodes into a dynamic target. *)
Lemma value_dynamic_total node :
  forall o, exists x, Decode.value (reflect.TInterface 0) o node = Ok x.
Proof.
  induction node as [p ns _|p kg ep es _|p k v _|n|n|n|n|p ns IH]
    using Node_nested_ind; intros o; simpl; eauto.
  - destruct (IsInt n); eauto.
  - destruct (elements_total Decode.value (reflect.TInterface 0) ns 0
                (replicate (length ns) (reflect.VInterface None)) IH) as [vs Hvs].
    + rewrite length_replicate. lia.
    + rewrite Hvs. simpl. eauto.
Qed.




(** ** The cursor of top *)

Section Top.
Import reflect Decode.

(** An entry whose key no field takes leaves everything as it is, and
    the entries after it are decoded. *)
Lemma entry_not_found fs x path s key val st :
  (forall j tf, fs !! j = Some tf -> ~ takes s (Key key) tf) ->
  entry (mkValue (TStruct fs) (PVar x path s)) key val st = Ok st.
Proof.
  intros Hno. unfold entry, findField, CanSet. simpl.
  destruct (findStructField s (Key key) 0 fs) as [[i tf]|] eqn:E; [|reflexivity].
  apply findStructField_Some in E. destruct E as (k & _ & Hk & Ht & _).
  destruct (Hno k tf Hk Ht).
Qed.

Lemma findStructField_not_taken fs s key :
  (forall j tf, fs !! j = Some tf -> ~ takes s key tf) ->
  findStructField s key 0 fs = None.
Proof.
  intros Hno. destruct (findStructField s key 0 fs) as [[i tf]|] eqn:E; [|reflexivity].
  apply findStructField_Some in E. destruct E as (k & _ & Hk & Ht & _).
  destruct (Hno k tf Hk Ht).
Qed.

(** A group whose first key no field of the record takes. *)
Lemma descend_not_taken fs x path s key keys st :
  (forall j tf, fs !! j = Some tf -> ~ takes s key tf) ->
  descend (key :: keys) (mkValue (TStruct fs) (PVar x path s)) st = Ok (invalid, false, st).
Proof.
  intros Hno. unfold descend, findField, CanSet. simpl.
  rewrite (findStructField_not_taken fs s key Hno). reflexivity.
Qed.

(** A group whose key path is not found ends top: the nodes after it
    are not looked at. *)
Lemma top_group_not_found v p kg ep es rest st v1 st1 :
  descend (StringKeys kg) v st = Ok (v1, false, st1) ->
  top v (EntryGroupNode p kg ep es :: rest) st = Ok st1.
Proof. intros H. simpl. rewrite H. reflexivity. Qed.
End Top.

(** C2: once the decoder has gone through a section group, whose key
    path led from the cursor [v] to the value [v1], every later
    top-level node is decoded against [v1]: top continues with [v1] as
    its cursor, never with [v] again.  In the document with the groups a
    and b, decoded into a dynamic target, the map of b is therefore an
    entry of the map of a and not of the root. *)
Theorem C2_cursor_stays_where_the_group_led v p kg ep es rest st v1 st1 st2 :
  Decode.descend (StringKeys kg) v st = Ok (v1, true, st1) ->
  Decode.entries v1 es st1 = Ok st2 ->
  Decode.top v (EntryGroupNode p kg ep es :: rest) st = Decode.top v1 rest st2
  /\ let r := Decode.Unmarshal
                ("[a]" +:+ nl +:+ "x = 1" +:+ nl +:+ "[b]" +:+ nl +:+ "y = 2" +:+ nl)
                Examples.dynamic in
     Decode.target r = Some (Examples.imap 0)
     /\ Decode.mapGet r 0 "a" = Some (Examples.imap 1)
     /\ Decode.mapGet r 0 "b" = None
     /\ Decode.mapGet r 1 "x" = Some (Examples.iface (reflect.TInt 64) (reflect.VInt 1))
     /\ Decode.mapGet r 1 "b" = Some (Examples.imap 2)
     /\ Decode.mapGet r 2 "y" = Some (Examples.iface (reflect.TInt 64) (reflect.VInt 2)).
Proof.
  intros Hd He. split.
  - simpl. rewrite Hd. simpl. rewrite He. reflexivity.
  - vm_compute. repeat split; reflexivity.
Qed.

Lemma C2_cursor_stays_where_the_group_led_witness :
  let root := reflect.mkValue Examples.Rc (reflect.PVar 0 [] true) in
  let user := reflect.mkValue Examples.User (reflect.PVar 0 [1%nat] true) in
  let st := reflect.mkState [reflect.zero Examples.Rc] [] in
  let group := EntryGroupNode 0%nat
                 (newKeyGroup 0%nat 1%nat [newKey 4%nat "User"] "[User]") 7%nat [] in
  let other := EntryNode 7%nat (newKey 7%nat "A") (Number (mkNumber 11%nat true false 5 0%Q "5")) in
  Decode.top root [group; other] st = Decode.top user [other] st
  /\ Decode.top user [other] st = Ok st
  /\ Decode.top root [other] st
     = Ok (reflect.mkState [reflect.VStruct [reflect.VInt 5; reflect.VStruct [reflect.VString ""]]] []).
Proof.
  intros root user st group other. split; [|split; reflexivity].
  exact (proj1 (C2_cursor_stays_where_the_group_led root 0%nat
                  (newKeyGroup 0%nat 1%nat [newKey 4%nat "User"] "[User]") 7%nat []
                  [other] st user st st eq_refl eq_refl)).
Defined.

(** C3: a key that no field of a record takes.  An entry with such a
    key is passed over: no error, nothing is changed, and the nodes
    after it are decoded.  A section group whose first key no field
    takes is not: no error is raised and nothing is changed, but top
    returns, and no node after the group is decoded.  At the document
    with the groups Nope and User, decoded into the record of
    decode_test.go, the group User is not decoded and its field Name
    keeps the zero value; without the group Nope the name is decoded,
    and after the entry Nope the entry A is. *)
Theorem C3_unmatched_group_key_ends_the_decode :
  (forall fs x path s p key val rest st,
     (forall j tf, fs !! j = Some tf -> ~ Decode.takes s (Key key) tf) ->
     let v := reflect.mkValue (reflect.TStruct fs) (reflect.PVar x path s) in
     Decode.top v (EntryNode p key val :: rest) st = Decode.top v rest st)
  /\ (forall fs x path s p kg ep es rest st key keys,
        StringKeys kg = key :: keys ->
        (forall j tf, fs !! j = Some tf -> ~ Decode.takes s key tf) ->
        let v := reflect.mkValue (reflect.TStruct fs) (reflect.PVar x path s) in
        Decode.top v (EntryGroupNode p kg ep es :: rest) st = Ok st)
  /\ Decode.Unmarshal
       ("[Nope]" +:+ nl +:+ "x = 1" +:+ nl +:+ "[User]" +:+ nl +:+
        "Name = " +:+ dq +:+ "guten" +:+ dq +:+ nl) (Examples.ptr Examples.Rc)
     = Ok (reflect.mkState
             [reflect.VStruct [reflect.VInt 0; reflect.VStruct [reflect.VString ""]]] [])
  /\ Decode.Unmarshal
       ("[User]" +:+ nl +:+ "Name = " +:+ dq +:+ "guten" +:+ dq +:+ nl)
       (Examples.ptr Examples.Rc)
     = Ok (reflect.mkState
             [reflect.VStruct [reflect.VInt 0; reflect.VStruct [reflect.VString "guten"]]] [])
  /\ Decode.Unmarshal ("Nope = 1" +:+ nl +:+ "A = 2" +:+ nl) (Examples.ptr Examples.Rc)
     = Ok (reflect.mkState
             [reflect.VStruct [reflect.VInt 2; reflect.VStruct [reflect.VString ""]]] []).
Proof.
  split; [|split].
  - intros fs x path s p key val rest st Hno v. simpl.
    unfold v. rewrite (entry_not_found fs x path s key val st Hno). reflexivity.
  - intros fs x path s p kg ep es rest st key keys Hk Hno v.
    apply (top_group_not_found v p kg ep es rest st Decode.invalid st).
    rewrite Hk. apply descend_not_taken, Hno.
  - vm_compute. repeat split; reflexivity.
Qed.

Lemma C3_unmatched_group_key_ends_the_decode_witness :
  let st := reflect.mkState [reflect.zero Examples.Rc] [] in
  Decode.top (reflect.mkValue Examples.Rc (reflect.PVar 0 [] true))
    [EntryGroupNode 0 (newKeyGroup 0 1 [newKey 4 "Nope"] "[Nope]") 7
       [EntryNode 7 (newKey 7 "x") (Number (mkNumber 11 true false 1 0%Q "1"))];
     EntryGroupNode 13 (newKeyGroup 13 14 [newKey 17 "User"] "[User]") 20
       [EntryNode 20 (newKey 20 "Name")
          (String_ (newString 27 "guten" (dq +:+ "guten" +:+ dq)))]]
    st
  = Ok st.
Proof.
  intros st.
  refine (proj1 (proj2 C3_unmatched_group_key_ends_the_decode)
            [reflect.mkField "A" "" true (reflect.TInt 64);
             reflect.mkField "User" "" true Examples.User]
            0%nat [] true 0%nat (newKeyGroup 0 1 [newKey 4 "Nope"] "[Nope]") 7%nat
            _ _ st "Nope" [] eq_refl _).
  intros j tf H [[E|E] _]; destruct j as [|[|j]]; simpl in H; try discriminate;
    inversion H; subst; vm_compute in E; discriminate.
Defined.

(** C4: the same group twice.  In a record, the first sighting of the
    group leads to the field that takes its key; the second sighting
    is looked up in that field, and when the record of the field has no
    field that takes the key itself, the decode ends there: the entries
    of the second group are not applied, and nothing after it is
    decoded.  At the document with the group owner twice, decoded into
    the record with the field Owner, Name keeps the a of the first
    group.  Into a dynamic target the map made at the second sighting
    is stored in the map of the first one, under owner, and the root
    keeps the map of the first one with the name a. *)
Theorem C4_second_group_is_resolved_inside_the_first :
  (forall fs x path s key i tf fs1 p1 p2 kg1 kg2 ep1 ep2 es1 es2 rest st st2,
     let v := reflect.mkValue (reflect.TStruct fs) (reflect.PVar x path s) in
     StringKeys kg1 = [key] -> StringKeys kg2 = [key] ->
     Decode.findStructField s key 0 fs = Some (i, tf) ->
     reflect.FieldType tf = reflect.TStruct fs1 ->
     (forall j tf', fs1 !! j = Some tf' ->
        ~ Decode.takes (s && reflect.Exported tf) key tf') ->
     Decode.entries (Decode.Field v i tf) es1 st = Ok st2 ->
     Decode.top v (EntryGroupNode p1 kg1 ep1 es1 :: EntryGroupNode p2 kg2 ep2 es2 :: rest) st
     = Ok st2)
  /\ Decode.target (Decode.Unmarshal Examples.twice (Examples.ptr Examples.Config))
     = Some (reflect.VStruct [reflect.VStruct [reflect.VString "a"]])
  /\ let r := Decode.Unmarshal Examples.twice Examples.dynamic in
     Decode.target r = Some (Examples.imap 0)
     /\ Decode.mapGet r 0 "owner" = Some (Examples.imap 1)
     /\ Decode.mapGet r 1 "name" = Some (Examples.iface reflect.TString (reflect.VString "a"))
     /\ Decode.mapGet r 1 "owner" = Some (Examples.imap 2)
     /\ Decode.mapGet r 2 "name" = Some (Examples.iface reflect.TString (reflect.VString "b")).
Proof.
  split; [|vm_compute; repeat split; reflexivity].
  intros fs x path s key i tf fs1 p1 p2 kg1 kg2 ep1 ep2 es1 es2 rest st st2 v
    Hk1 Hk2 Hf Ht Hno He.
  assert (Hd : Decode.descend (StringKeys kg1) v st = Ok (Decode.Field v i tf, true, st)).
  { rewrite Hk1. unfold Decode.descend, Decode.findField, reflect.CanSet, v. simpl.
    rewrite Hf. reflexivity. }
  change (Decode.top v (EntryGroupNode p1 kg1 ep1 es1 :: EntryGroupNode p2 kg2 ep2 es2 :: rest) st)
    with (rbind (Decode.descend (StringKeys kg1) v st)
            (fun r => let '(v1, ok, st1) := r in
               if negb ok then Ok st1
               else rbind (Decode.entries v1 es1 st1)
                      (fun st' => Decode.top v1 (EntryGroupNode p2 kg2 ep2 es2 :: rest) st'))).
  rewrite Hd. cbn [rbind negb]. rewrite He. cbn [rbind].
  unfold Decode.Field, v. cbn [reflect.place]. rewrite Ht.
  apply (top_group_not_found _ p2 kg2 ep2 es2 rest st2 Decode.invalid st2).
  rewrite Hk2. apply descend_not_taken, Hno.
Qed.

Lemma C4_second_group_is_resolved_inside_the_first_witness :
  let name c p := EntryNode p (newKey p "name") (String_ (newString (p + 7) c (dq +:+ c +:+ dq))) in
  Decode.top (reflect.mkValue Examples.Config (reflect.PVar 0 [] true))
    [EntryGroupNode 0 (newKeyGroup 0 1 [newKey 5 "owner"] "[owner]") 8 [name "a" 8%nat];
     EntryGroupNode 19 (newKeyGroup 19 20 [newKey 24 "owner"] "[owner]") 27 [name "b" 27%nat]]
    (reflect.mkState [reflect.zero Examples.Config] [])
  = Ok (reflect.mkState [reflect.VStruct [reflect.VStruct [reflect.VString "a"]]] []).
Proof.
  intros name.
  refine (proj1 C4_second_group_is_resolved_inside_the_first
            [reflect.mkField "Owner" "" true Examples.Owner] 0%nat [] true "owner" 0%nat
            (reflect.mkField "Owner" "" true Examples.Owner)
            [reflect.mkField "Name" "" true reflect.TString] 0%nat 19%nat
            (newKeyGroup 0 1 [newKey 5 "owner"] "[owner]")
            (newKeyGroup 19 20 [newKey 24 "owner"] "[owner]") 8%nat 27%nat
            [name "a" 8%nat] [name "b" 27%nat] []
            (reflect.mkState [reflect.zero Examples.Config] []) _
            eq_refl eq_refl _ eq_refl _ _).
  - vm_compute. reflexivity.
  - intros j tf' H [[E|E] _]; destruct j as [|j]; simpl in H; try discriminate;
      inversion H; subst; vm_compute in E; discriminate.
  - vm_compute. reflexivity.
Defined.

(** ** Arrays in the tree builder *)

(** C5, as the specification has it, fails: [a = [1,]] is parsed, to
    the array of the one element 1. *)
Lemma C5_separator_before_close_is_parsed :
  Tree.Document (Tree.Parse "a = [1,]")
  = Some [EntryNode 0 (newKey 0 "a")
            (ArrayNode 5 [Number (mkNumber 5 true false 1 0%Q "1")])].
Proof. vm_compute. reflexivity. Qed.

Section TreeSteps.
Import Tree.

Lemma nextNonSpace_fresh t tok rest :
  peekCount t = 0%nat -> lex t = tok :: rest -> Tok.typ tok <> tokenSpace ->
  nextNonSpace t
  = Ok (tok, mk (Root t) (text t) rest (Tok.pos tok) tok (token1 t) (token2 t) 0).
Proof.
  intros Hp Hl Hs. unfold nextNonSpace. cbn [nextNonSpace_loop].
  unfold next, nextToken. rewrite Hp, Hl. simpl. rewrite ?Hp. simpl.
  destruct (decide (Tok.typ tok = tokenSpace)); [contradiction|reflexivity].
Qed.

Lemma nextNonSpace_peeked t :
  peekCount t = 1%nat -> Tok.typ (token0 t) <> tokenSpace ->
  nextNonSpace t = Ok (token0 t, setPeek 0 t).
Proof.
  intros Hp Hs. unfold nextNonSpace. cbn [nextNonSpace_loop].
  unfold next. rewrite Hp. simpl.
  destruct (decide (Tok.typ (token0 t) = tokenSpace)); [contradiction|reflexivity].
Qed.

Lemma peekNonSpace_fresh t tok rest :
  peekCount t = 0%nat -> lex t = tok :: rest -> Tok.typ tok <> tokenSpace ->
  peekNonSpace t
  = Ok (tok, mk (Root t) (text t) rest (Tok.pos tok) tok (token1 t) (token2 t) 1).
Proof.
  intros Hp Hl Hs. unfold peekNonSpace.
  rewrite (nextNonSpace_fresh t tok rest Hp Hl Hs). reflexivity.
Qed.

Lemma peekNonSpace_peeked t :
  peekCount t = 1%nat -> Tok.typ (token0 t) <> tokenSpace ->
  peekNonSpace t = Ok (token0 t, t).
Proof.
  intros Hp Hs. unfold peekNonSpace. rewrite (nextNonSpace_peeked t Hp Hs).
  simpl. unfold backup, setPeek. simpl. destruct t; simpl in *. subst. reflexivity.
Qed.

(** More fuel does not change what value and array answer. *)
Lemma value_array_fuel_mono f :
  (forall t r, value_fuel f t = r -> r <> OutOfFuel ->
     forall f', (f <= f')%nat -> value_fuel f' t = r)
  /\ (forall pos acc t r, array_fuel f pos acc t = r -> r <> OutOfFuel ->
        forall f', (f <= f')%nat -> array_fuel f' pos acc t = r).
Proof.
  induction f as [|f [IHv IHa]].
  - split; intros; simpl in *; congruence.
  - split.
    + intros t r H Hr [|f'] Hle; [lia|]. simpl in *.
      destruct (nextNonSpace t) as [[tok t1]| | |]; simpl in *; auto.
      destruct (Tok.typ tok); auto.
      destruct (peek t1) as [[ptok t2]| | |]; simpl in *; auto.
      apply IHa; auto. lia.
    + intros pos acc t r H Hr [|f'] Hle; [lia|]. simpl in *.
      destruct (peekNonSpace t) as [[tok t1]| | |]; simpl in *; auto.
      assert (Hdef :
        (let? (node, t) := value_fuel f' t1 in
         let? (tok2, t) := peekNonSpace t in
         let? (_, t) := (if decide (Tok.typ tok2 = tokenArrayEnd) then Ok (tok2, t)
                         else expect tokenArraySep "array" t) in
         array_fuel f' pos (acc ++ [node]) t)
        = (let? (node, t) := value_fuel f t1 in
           let? (tok2, t) := peekNonSpace t in
           let? (_, t) := (if decide (Tok.typ tok2 = tokenArrayEnd) then Ok (tok2, t)
                           else expect tokenArraySep "array" t) in
           array_fuel f pos (acc ++ [node]) t) \/ Tok.typ tok = tokenArrayEnd).
      { destruct (decide (Tok.typ tok = tokenArrayEnd)) as [|Hne]; [right; auto|left].
        assert (Hr' : (let? (node, t) := value_fuel f t1 in
           let? (tok2, t) := peekNonSpace t in
           let? (_, t) := (if decide (Tok.typ tok2 = tokenArrayEnd) then Ok (tok2, t)
                           else expect tokenArraySep "array" t) in
           array_fuel f pos (acc ++ [node]) t) <> OutOfFuel).
        { destruct (Tok.typ tok); congruence. }
        destruct (value_fuel f t1) as [[node t2]| | |] eqn:Ev; simpl in Hr'; try congruence;
          rewrite (IHv t1 _ Ev ltac:(discriminate) f' ltac:(lia)); simpl; auto.
        destruct (peekNonSpace t2) as [[tok2 t3]| | |]; simpl in *; auto.
        destruct (if decide (Tok.typ tok2 = tokenArrayEnd) then Ok (tok2, t3)
                  else expect tokenArraySep "array" t3) as [[x t4]| | |]; simpl in *; auto.
        apply IHa; auto. lia. }
      destruct Hdef as [Hdef|Hend].
      * destruct (Tok.typ tok); auto; try (rewrite Hdef; exact H).
      * rewrite Hend in *. exact H.
Qed.

Lemma value_fuel_mono f f' t r :
  value_fuel f t = Ok r -> (f <= f')%nat -> value_fuel f' t = Ok r.
Proof.
  intros H Hle. eapply (proj1 (value_array_fuel_mono f)); eauto; discriminate.
Qed.
End TreeSteps.

Section ArrayLoop.
Import Tree.

Lemma array_fuel_element f pos acc t tok t0 :
  peekNonSpace t = Ok (tok, t0) -> Tok.typ tok <> tokenArrayEnd ->
  array_fuel (S f) pos acc t
  = (let? (node, t) := value_fuel f t0 in
     let? (tok2, t) := peekNonSpace t in
     let? (_, t) := (if decide (Tok.typ tok2 = tokenArrayEnd) then Ok (tok2, t)
                     else expect tokenArraySep "array" t) in
     array_fuel f pos (acc ++ [node]) t).
Proof.
  intros Hp Hne. simpl. rewrite Hp. simpl.
  destruct (Tok.typ tok); try reflexivity. contradiction.
Qed.

Lemma array_fuel_close f pos acc t tok t0 :
  peekNonSpace t = Ok (tok, t0) -> Tok.typ tok = tokenArrayEnd ->
  array_fuel (S f) pos acc t
  = (let? (_, t) := nextNonSpace t0 in Ok (ArrayNode pos acc, t)).
Proof. intros Hp He. simpl. rewrite Hp. simpl. rewrite He. reflexivity. Qed.
End ArrayLoop.

Section ArrayErrors.
Import Tree.

(** The token that next returned is the one in the slot of the
    lookahead that peekCount points at. *)
Lemma next_slot t tok t1 :
  next t = Ok (tok, t1) -> slot (peekCount t1) t1 = Ok tok.
Proof.
  unfold next, nextToken. destruct t as [R tx lx lp a b c pc]. simpl.
  destruct pc as [|[|[|pc]]]; simpl; try discriminate.
  - destruct lx as [|tk rest]; simpl; [discriminate|].
    intros H. inversion H; subst. reflexivity.
  - intros H. inversion H; subst. reflexivity.
  - intros H. inversion H; subst. reflexivity.
  - destruct pc; simpl; [|discriminate]. intros H. inversion H; subst. reflexivity.
Qed.

Lemma nextNonSpace_loop_slot fuel : forall t tok t1,
  nextNonSpace_loop fuel t = Ok (tok, t1) ->
  slot (peekCount t1) t1 = Ok tok /\ Tok.typ tok <> tokenSpace.
Proof.
  induction fuel as [|fuel IH]; intros t tok t1 H; simpl in H; [discriminate|].
  destruct (next t) as [[tk t2]| | |] eqn:Hn; simpl in H; try discriminate.
  destruct (decide (Tok.typ tk = tokenSpace)) as [Hs|Hs]; [eapply IH; eauto|].
  inversion H; subst. split; [eapply next_slot; eauto|exact Hs].
Qed.

(** The token that peekNonSpace answered is the one nextNonSpace reads
    next. *)
Lemma nextNonSpace_after_peek t tok t0 :
  peekNonSpace t = Ok (tok, t0) -> exists t1, nextNonSpace t0 = Ok (tok, t1).
Proof.
  unfold peekNonSpace. intros H.
  destruct (nextNonSpace t) as [[tk t1]| | |] eqn:Hn; simpl in H; try discriminate.
  inversion H; subst tk t0.
  destruct (nextNonSpace_loop_slot _ _ _ _ Hn) as [Hslot Hs].
  exists t1. unfold nextNonSpace. cbn [nextNonSpace_loop].
  unfold next, backup. simpl. 
  assert (E : setPeek (peekCount t1) (setPeek (S (peekCount t1)) t1) = t1)
    by (destruct t1; reflexivity).
  rewrite E. rewrite Hslot. simpl.
  destruct (decide (Tok.typ tok = tokenSpace)); [contradiction|reflexivity].
Qed.

(** Where an element or the closing bracket is expected, a separator
    is an unexpected token of value. *)
Lemma array_fuel_separator_first f pos acc t tok t0 :
  peekNonSpace t = Ok (tok, t0) -> Tok.typ tok = tokenArraySep ->
  exists line,
    array_fuel (S (S f)) pos acc t
    = Err (mkError line "unexpected %q in value" [valArg tok]).
Proof.
  intros Hp Ht.
  rewrite (array_fuel_element _ _ _ _ _ _ Hp) by (rewrite Ht; discriminate).
  destruct (nextNonSpace_after_peek _ _ _ Hp) as [t1 Hn].
  simpl. rewrite Hn. simpl. rewrite Ht. unfold errorf. simpl. eauto.
Qed.

(** After an element, a token that is neither a separator nor the
    closing bracket is an unexpected token of expect. *)
Lemma array_fuel_no_separator f pos acc t tok t0 node t1 tok2 t2 :
  peekNonSpace t = Ok (tok, t0) -> Tok.typ tok <> tokenArrayEnd ->
  value_fuel f t0 = Ok (node, t1) ->
  peekNonSpace t1 = Ok (tok2, t2) ->
  Tok.typ tok2 <> tokenArrayEnd -> Tok.typ tok2 <> tokenArraySep ->
  exists line,
    array_fuel (S (S f)) pos acc t
    = Err (mkError line "unexpected %s in %s" [tokArg tok2; ArgString "array"]).
Proof.
  intros Hp Hne Hv Hp2 He Hs.
  rewrite (array_fuel_element _ _ _ _ _ _ Hp Hne).
  rewrite (value_fuel_mono f (S f) t0 _ Hv) by lia. cbn [rbind].
  rewrite Hp2. cbn [rbind].
  destruct (decide (Tok.typ tok2 = tokenArrayEnd)); [contradiction|].
  destruct (nextNonSpace_after_peek _ _ _ Hp2) as [t3 Hn].
  unfold expect. rewrite Hn. cbn [rbind].
  destruct (decide (Tok.typ tok2 = tokenArraySep)); [contradiction|].
  unfold unexpected, errorf. simpl. eauto.
Qed.

End ArrayErrors.

(** C5, as the code has it: a separator immediately before the closing
    bracket is accepted.  When an element of an array has been read and
    the tokens after it are the closing bracket, or a separator and then
    the closing bracket, the array ends there, with the same elements in
    both cases.  What is a syntax error of array is a separator where
    an element or the closing bracket is expected, that is, with no
    element before it, and an element that neither a separator nor the
    closing bracket follows; so Parse fails for the arrays [,], [1,,]
    and [1 2]. *)
Theorem C5_separator_before_close_is_accepted :
  (forall f pos acc t tok t0 node t1 seps close rest,
     Tree.peekNonSpace t = Ok (tok, t0) ->
     Tok.typ tok <> tokenArrayEnd ->
     Tree.value_fuel f t0 = Ok (node, t1) ->
     Tree.peekCount t1 = 0%nat ->
     Tree.lex t1 = seps ++ close :: rest ->
     seps = [] \/ (exists sep, seps = [sep] /\ Tok.typ sep = tokenArraySep) ->
     Tok.typ close = tokenArrayEnd ->
     Tree.array_fuel (S (S f)) pos acc t
     = Ok (ArrayNode pos (acc ++ [node]),
           Tree.mk (Tree.Root t1) (Tree.text t1) rest (Tok.pos close) close
                   (Tree.token1 t1) (Tree.token2 t1) 0))
  /\ (forall f pos acc t tok t0,
        Tree.peekNonSpace t = Ok (tok, t0) -> Tok.typ tok = tokenArraySep ->
        exists line,
          Tree.array_fuel (S (S f)) pos acc t
          = Err (Tree.mkError line "unexpected %q in value" [Tree.valArg tok]))
  /\ (forall f pos acc t tok t0 node t1 tok2 t2,
        Tree.peekNonSpace t = Ok (tok, t0) -> Tok.typ tok <> tokenArrayEnd ->
        Tree.value_fuel f t0 = Ok (node, t1) ->
        Tree.peekNonSpace t1 = Ok (tok2, t2) ->
        Tok.typ tok2 <> tokenArrayEnd -> Tok.typ tok2 <> tokenArraySep ->
        exists line,
          Tree.array_fuel (S (S f)) pos acc t
          = Err (Tree.mkError line "unexpected %s in %s"
                   [Tree.tokArg tok2; ArgString "array"]))
  /\ Tree.Parse "a = [,]"
     = Err (Tree.mkError 1 "unexpected %q in value"
              [Tree.valArg (Tok.mk tokenArraySep 5 "," [])])
  /\ Tree.Parse "a = [1,,]"
     = Err (Tree.mkError 1 "unexpected %q in value"
              [Tree.valArg (Tok.mk tokenArraySep 7 "," [])])
  /\ Tree.Parse "a = [1 2]"
     = Err (Tree.mkError 1 "unexpected %s in %s"
              [Tree.tokArg (Tok.mk tokenNumber 7 "2" []); ArgString "array"]).
Proof.
  split; [|split; [|split; [|repeat split; vm_compute; reflexivity]]].
  - intros f pos acc t tok t0 node t1 seps close rest Hp Hne Hv Hpc Hlex Hseps Hclose.
    assert (HcS : Tok.typ close <> tokenSpace) by (rewrite Hclose; discriminate).
    rewrite (array_fuel_element _ _ _ _ _ _ Hp Hne).
    rewrite (value_fuel_mono f (S f) t0 _ Hv) by lia. simpl.
    destruct Hseps as [->|(sep & -> & Hsep)]; simpl in Hlex.
    + rewrite (peekNonSpace_fresh t1 close rest Hpc Hlex HcS). simpl.
      destruct (decide (Tok.typ close = tokenArrayEnd)); [|contradiction]. simpl.
      rewrite peekNonSpace_peeked by (simpl; auto). simpl.
      rewrite Hclose. rewrite nextNonSpace_peeked by (simpl; auto). reflexivity.
    + assert (HsS : Tok.typ sep <> tokenSpace) by (rewrite Hsep; discriminate).
      rewrite (peekNonSpace_fresh t1 sep (close :: rest) Hpc Hlex HsS). simpl.
      destruct (decide (Tok.typ sep = tokenArrayEnd)) as [E|_]; [congruence|].
      unfold Tree.expect. rewrite nextNonSpace_peeked by (simpl; auto). simpl.
      destruct (decide (Tok.typ sep = tokenArraySep)); [|contradiction]. simpl.
      rewrite (peekNonSpace_fresh _ close rest) by (simpl; auto). simpl.
      rewrite Hclose. rewrite nextNonSpace_peeked by (simpl; auto). reflexivity.
  - intros f pos acc t tok t0 Hp Ht.
    exact (array_fuel_separator_first f pos acc t tok t0 Hp Ht).
  - intros f pos acc t tok t0 node t1 tok2 t2 Hp Hne Hv Hp2 He Hs.
    exact (array_fuel_no_separator f pos acc t tok t0 node t1 tok2 t2 Hp Hne Hv Hp2 He Hs).
Qed.

Lemma C5_separator_before_close_is_accepted_witness :
  let one := Tok.mk tokenNumber 5 "1" [] in
  let sep := Tok.mk tokenArraySep 6 "," [] in
  let close := Tok.mk tokenArrayEnd 7 "]" [] in
  let eof := Tok.mk tokenEOF 8 "" [] in
  let t := Tree.mk None "a = [1,]" [one; sep; close; eof] 4 Tree.zeroToken
             Tree.zeroToken Tree.zeroToken 0 in
  Tree.array_fuel 3 5%nat [] t
  = Ok (ArrayNode 5 [Number (mkNumber 5 true false 1 0%Q "1")],
        Tree.mk None "a = [1,]" [eof] 7 close Tree.zeroToken Tree.zeroToken 0).
Proof.
  intros one sep close eof t.
  exact (proj1 C5_separator_before_close_is_accepted 1%nat 5%nat [] t one
    (Tree.mk None "a = [1,]" [sep; close; eof] 5 one Tree.zeroToken Tree.zeroToken 1)
    (Number (mkNumber 5 true false 1 0%Q "1"))
    (Tree.mk None "a = [1,]" [sep; close; eof] 5 one Tree.zeroToken Tree.zeroToken 0)
    [sep] close [eof]
    eq_refl ltac:(discriminate) eq_refl eq_refl eq_refl
    (or_intror (ex_intro _ sep (conj eq_refl eq_refl))) eq_refl).
Defined.

(** ** Runes *)

Section Utf8.
Import utf8.

Lemma b2z_range c : 0 <= b2z c < 256.
Proof.
  unfold b2z. pose proof (N_ascii_bounded c) as H.
  split; [apply N2Z.is_nonneg|].
  change 256 with (Z.of_N 256). apply N2Z.inj_lt. exact H.
Qed.

Lemma lor_ge_l a b : 0 <= a -> 0 <= b -> a <= Z.lor a b.
Proof.
  intros Ha Hb.
  assert (H0 : Z.land a (Z.ldiff b a) = 0).
  { rewrite Z.land_comm. apply Z.land_ldiff. }
  assert (H : Z.lor a b = a + Z.ldiff b a).
  { rewrite (Z.add_nocarry_lxor _ _ H0), (Z.lxor_lor _ _ H0).
    apply Z.bits_inj'. intros n Hn.
    rewrite !Z.lor_spec, Z.ldiff_spec.
    destruct (Z.testbit a n), (Z.testbit b n); reflexivity. }
  rewrite H. pose proof (proj2 (Z.ldiff_nonneg b a) (or_introl Hb)). lia.
Qed.

Lemma lor_ge_128 a b : 0 <= a -> 0 <= b -> 128 <= a \/ 128 <= b -> 128 <= Z.lor a b.
Proof.
  intros Ha Hb [H|H].
  - pose proof (lor_ge_l a b Ha Hb). lia.
  - rewrite Z.lor_comm. pose proof (lor_ge_l b a Hb Ha). lia.
Qed.

Lemma land_low_bits x n : 0 <= n -> Z.land x (Z.ones n) = x mod 2 ^ n.
Proof. intros Hn. apply Z.land_ones. exact Hn. Qed.

(** The bits a leading or continuation byte gives to the rune, once
    shifted into place, are not negative. *)
Lemma part_nonneg x m k : 0 <= m -> 0 <= k -> 0 <= Z.shiftl (Z.land x m) k.
Proof.
  intros Hm Hk. apply Z.shiftl_nonneg. apply Z.land_nonneg. auto.
Qed.

Lemma first_spec s0 sz lo hi :
  first s0 = Some (sz, lo, hi) ->
  (128 <= lo /\ hi <= 191) /\
  ((sz = 2%nat /\ 128 <= Z.shiftl (Z.land s0 31) 6)
   \/ (sz = 3%nat /\ (128 <= Z.shiftl (Z.land s0 15) 12 \/ 160 <= lo))
   \/ (sz = 4%nat /\ (128 <= Z.shiftl (Z.land s0 7) 18 \/ 144 <= lo))).
Proof.
  unfold first. intros H.
  repeat match type of H with
  | (if ?c then _ else _) = _ => destruct c eqn:?
  end; inversion H; subst; clear H; (split; [lia|]);
  rewrite ?Z.shiftl_mul_pow2 by lia;
  change 31 with (Z.ones 5); change 15 with (Z.ones 4); change 7 with (Z.ones 3);
  rewrite ?land_low_bits by lia;
  repeat match goal with
  | H : _ && _ = true |- _ => apply andb_true_iff in H; destruct H
  | H : (_ <=? _) = true |- _ => apply Z.leb_le in H
  | H : (_ =? _) = true |- _ => apply Z.eqb_eq in H
  | H : _ = false |- _ => clear H
  end; change (2 ^ 5) with 32; change (2 ^ 4) with 16; change (2 ^ 3) with 8;
  change (2 ^ 6) with 64; change (2 ^ 12) with 4096; change (2 ^ 18) with 262144.
  all: try (left; split; [reflexivity|]; Z.to_euclidean_division_equations; lia).
  all: try (right; left; split; [reflexivity|];
            first [right; lia | left; Z.to_euclidean_division_equations; lia]).
  all: right; right; split; [reflexivity|];
       first [right; lia | left; Z.to_euclidean_division_equations; lia].
Qed.

(** What DecodeRuneInString answers on a text that is not empty: at
    least one byte and no more than there are; an ASCII byte stands for
    itself; otherwise the rune is not an ASCII one and none of the bytes
    read is. *)
Lemma decode_spec c t r w :
  DecodeRuneInString (c :: t) = (r, w) ->
  (1 <= w <= length (c :: t))%nat
  /\ (b2z c < 128 -> r = b2z c /\ w = 1%nat)
  /\ (128 <= b2z c ->
      128 <= r /\ Forall (fun b => 128 <= b2z b) (take w (c :: t))).
Proof.
  unfold DecodeRuneInString, RuneSelf, RuneError, cont. intros H.
  pose proof (b2z_range c) as Hc.
  destruct (b2z c <? 128) eqn:E0.
  { inversion H; subst. simpl. repeat split; try lia. }
  apply Z.ltb_ge in E0.
  assert (Hone : forall r0, 128 <= r0 -> (r0, 1%nat) = (r, w) ->
            (1 <= w <= length (c :: t))%nat
            /\ (b2z c < 128 -> r = b2z c /\ w = 1%nat)
            /\ (128 <= b2z c ->
                128 <= r /\ Forall (fun b => 128 <= b2z b) (take w (c :: t)))).
  { intros r0 Hr0 Heq. inversion Heq; subst. simpl. repeat split; try lia.
    repeat constructor. lia. }
  destruct (first (b2z c)) as [[[sz lo] hi]|] eqn:F; [|apply (Hone 65533); [lia|exact H]].
  apply first_spec in F. destruct F as ((Hlo & Hhi) & Hsz).
  destruct (length (c :: t) <? sz)%nat eqn:El; [apply (Hone 65533); [lia|exact H]|].
  apply Nat.ltb_ge in El.
  destruct t as [|c1 t1]; [apply (Hone 65533); [lia|exact H]|].
  pose proof (b2z_range c1) as Hc1.
  destruct ((b2z c1 <? lo) || (hi <? b2z c1)) eqn:E1; [apply (Hone 65533); [lia|exact H]|].
  apply orb_false_iff in E1. destruct E1 as [E1 E1'].
  apply Z.ltb_ge in E1. apply Z.ltb_ge in E1'.
  assert (Hp0 : forall m k, 0 <= m -> 0 <= k -> 0 <= Z.shiftl (Z.land (b2z c) m) k)
    by (intros; apply part_nonneg; auto).
  assert (Hp1 : forall k, 0 <= k -> 0 <= Z.shiftl (Z.land (b2z c1) 63) k)
    by (intros; apply part_nonneg; lia).
  assert (Hq1 : 0 <= Z.land (b2z c1) 63) by (apply Z.land_nonneg; lia).
  assert (Hb1 : forall k, 6 <= k -> 160 <= lo \/ 144 <= lo ->
                  128 <= Z.shiftl (Z.land (b2z c1) 63) k).
  { intros k Hk Hlo'. rewrite Z.shiftl_mul_pow2 by lia.
    change 63 with (Z.ones 6). rewrite land_low_bits by lia.
    assert (16 <= b2z c1 mod 2 ^ 6)
      by (change (2 ^ 6) with 64; Z.to_euclidean_division_equations; lia).
    assert (2 ^ 6 <= 2 ^ k) by (apply Z.pow_le_mono_r; lia). nia. }
  pose proof (Hp0 31 6 ltac:(lia) ltac:(lia)) as Ha2.
  pose proof (Hp0 15 12 ltac:(lia) ltac:(lia)) as Ha3.
  pose proof (Hp0 7 18 ltac:(lia) ltac:(lia)) as Ha4.
  pose proof (Hp1 6 ltac:(lia)) as Hb3.
  pose proof (Hp1 12 ltac:(lia)) as Hb4.
  destruct (sz <=? 2)%nat eqn:E2.
  { apply Nat.leb_le in E2.
    inversion H; subst. simpl. split; [lia|]. split; [lia|]. intros _. split.
    - apply lor_ge_128; [assumption|assumption|].
      destruct Hsz as [[_ Hs]|[[Hs _]|[Hs _]]]; [left; exact Hs|lia|lia].
    - repeat constructor; lia. }
  apply Nat.leb_gt in E2.
  destruct t1 as [|c2 t2]; [apply (Hone 65533); [lia|exact H]|].
  pose proof (b2z_range c2) as Hc2.
  destruct (negb ((128 <=? b2z c2) && (b2z c2 <=? 191))) eqn:E3;
    [apply (Hone 65533); [lia|exact H]|].
  apply negb_false_iff, andb_true_iff in E3. destruct E3 as [E3 _]. apply Z.leb_le in E3.
  assert (Hq2 : 0 <= Z.land (b2z c2) 63) by (apply Z.land_nonneg; lia).
  assert (Hc4 : 0 <= Z.shiftl (Z.land (b2z c2) 63) 6) by (apply part_nonneg; lia).
  destruct (sz <=? 3)%nat eqn:E4.
  { apply Nat.leb_le in E4.
    inversion H; subst. simpl. split; [lia|]. split; [lia|]. intros _. split.
    - apply lor_ge_128; [apply Z.lor_nonneg; split; assumption|assumption|].
      left. apply lor_ge_128; [assumption|assumption|].
      destruct Hsz as [[Hs _]|[[_ Hs]|[Hs _]]]; [lia| |lia].
      destruct Hs as [Hs|Hs]; [left; exact Hs|right; apply Hb1; lia].
    - repeat constructor; lia. }
  apply Nat.leb_gt in E4.
  destruct t2 as [|c3 t3]; [apply (Hone 65533); [lia|exact H]|].
  pose proof (b2z_range c3) as Hc3.
  destruct (negb ((128 <=? b2z c3) && (b2z c3 <=? 191))) eqn:E5;
    [apply (Hone 65533); [lia|exact H]|].
  apply negb_false_iff, andb_true_iff in E5. destruct E5 as [E5 _]. apply Z.leb_le in E5.
  assert (Hq3 : 0 <= Z.land (b2z c3) 63) by (apply Z.land_nonneg; lia).
  inversion H; subst. simpl. split; [lia|]. split; [lia|]. intros _. split.
  - apply lor_ge_128;
      [repeat (apply Z.lor_nonneg; split); assumption|assumption|].
    left. apply lor_ge_128; [apply Z.lor_nonneg; split; assumption|assumption|].
    left. apply lor_ge_128; [assumption|assumption|].
    destruct Hsz as [[Hs _]|[[Hs _]|[_ Hs]]]; [lia|lia|].
    destruct Hs as [Hs|Hs]; [left; exact Hs|right; apply Hb1; lia].
  - repeat constructor; lia.
Qed.
End Utf8.

(** ** The scanner, step by step *)

Section LexerSteps.
Import Lexer.

Lemma b2z_inj c d : b2z c = b2z d -> c = d.
Proof.
  unfold b2z. intros H. apply N2Z.inj in H.
  rewrite <- (ascii_N_embedding c), <- (ascii_N_embedding d), H. reflexivity.
Qed.

Lemma unread_moved n w l : unread (moved n w l) = drop n (unread l).
Proof. unfold unread, moved. simpl. rewrite drop_drop. reflexivity. Qed.

Lemma moved_moved n m w v l : moved m v (moved n w l) = moved (n + m) v l.
Proof. unfold moved. simpl. f_equal. lia. Qed.

Lemma unread_length l : length (unread l) = (length (input l) - pos l)%nat.
Proof. unfold unread. apply length_drop. Qed.

Lemma next_eof l : unread l = [] -> next l = (eof, moved 0 0 l).
Proof.
  intros H. unfold next.
  pose proof (unread_length l) as Hl. rewrite H in Hl. simpl in Hl.
  destruct (Nat.leb_spec (length (input l)) (pos l)); [|lia].
  unfold moved. rewrite Nat.add_0_r. reflexivity.
Qed.

Lemma next_cons l c t r w :
  unread l = c :: t -> utf8.DecodeRuneInString (c :: t) = (r, w) ->
  next l = (r, moved w w l).
Proof.
  intros H Hd. unfold next.
  pose proof (unread_length l) as Hl. rewrite H in Hl. simpl in Hl.
  destruct (Nat.leb_spec (length (input l)) (pos l)); [lia|].
  fold (unread l). rewrite H, Hd. reflexivity.
Qed.

(** Reading an ASCII byte. *)
Lemma next_ascii l c t :
  unread l = c :: t -> b2z c < 128 -> next l = (b2z c, moved 1 1 l).
Proof.
  intros H Hc. destruct (utf8.DecodeRuneInString (c :: t)) as [r w] eqn:Hd.
  destruct (decode_spec _ _ _ _ Hd) as (_ & Ha & _).
  destruct (Ha Hc) as [-> ->]. eapply next_cons; eauto.
Qed.

(** Reading the first rune of a run [c :: body] that is followed by
    nothing or by an ASCII byte: the rune ends inside the run. *)
Lemma next_in_run l c body tail :
  unread l = (c :: body) ++ tail ->
  (tail = [] \/ exists d t, tail = d :: t /\ b2z d < 128) ->
  exists r w,
    next l = (r, moved w w l)
    /\ (1 <= w <= S (length body))%nat
    /\ unread (moved w w l) = drop w (c :: body) ++ tail
    /\ ((b2z c < 128 /\ r = b2z c /\ w = 1%nat) \/ (128 <= b2z c /\ 128 <= r)).
Proof.
  intros H Htail. simpl in H.
  destruct (utf8.DecodeRuneInString (c :: body ++ tail)) as [r w] eqn:Hd.
  exists r, w. split; [eapply next_cons; eauto|].
  destruct (decode_spec _ _ _ _ Hd) as (Hw & Ha & Hn).
  assert (Hin : (w <= S (length body))%nat).
  { destruct (Z.lt_ge_cases (b2z c) 128) as [Hc|Hc].
    - destruct (Ha Hc) as [_ ->]. lia.
    - destruct (Hn Hc) as [_ Hall].
      destruct Htail as [->|(d & t & -> & Hd')].
      + rewrite app_nil_r in Hw. simpl in Hw. lia.
      + destruct (Nat.le_gt_cases w (S (length body))) as [|Hgt]; [assumption|].
        exfalso. rewrite Forall_forall in Hall.
        assert (Hd'' : 128 <= b2z d).
        { apply Hall. apply list_elem_of_In, list_elem_of_lookup.
          exists (S (length body)). rewrite lookup_take_lt by lia.
          change (c :: body ++ d :: t) with ((c :: body) ++ d :: t).
          rewrite lookup_app_r by (simpl; lia).
          simpl. rewrite Nat.sub_diag. reflexivity. }
        lia. }
  split; [lia|]. split.
  - rewrite unread_moved, H.
    change (c :: body ++ tail) with ((c :: body) ++ tail).
    rewrite drop_app_le by (simpl; lia). reflexivity.
  - destruct (Z.lt_ge_cases (b2z c) 128) as [Hc|Hc].
    + left. destruct (Ha Hc). auto.
    + right. destruct (Hn Hc). auto.
Qed.
End LexerSteps.

Section LexerLoops.
Import Lexer.

Lemma backup_moved n w l : (w <= n)%nat -> backup (moved n w l) = moved (n - w) w l.
Proof. intros H. unfold backup, moved. simpl. f_equal. lia. Qed.

(** Reading the first byte of what is unread, whatever it is. *)
Lemma next_head l c t :
  unread l = c :: t ->
  exists r w,
    next l = (r, moved w w l) /\ (1 <= w)%nat
    /\ ((b2z c < 128 /\ r = b2z c /\ w = 1%nat) \/ (128 <= b2z c /\ 128 <= r)).
Proof.
  intros H. destruct (utf8.DecodeRuneInString (c :: t)) as [r w] eqn:Hd.
  exists r, w. split; [eapply next_cons; eauto|].
  destruct (decode_spec _ _ _ _ Hd) as (Hw & Ha & Hn). split; [lia|].
  destruct (Z.lt_ge_cases (b2z c) 128) as [Hc|Hc].
  - left. destruct (Ha Hc). auto.
  - right. destruct (Hn Hc). auto.
Qed.

Lemma not_newline_rune c r :
  c <> newline -> (b2z c < 128 /\ r = b2z c) \/ (128 <= b2z c /\ 128 <= r) ->
  (r =? ch "010") || (r =? eof) = false.
Proof.
  intros Hc Hr. apply orb_false_iff. unfold eof.
  pose proof (b2z_range c).
  split; apply Z.eqb_neq; destruct Hr as [[_ ->]|[_ Hr]]; try (change (ch "010") with 10; lia).
  intros E. apply Hc. apply b2z_inj. exact E.
Qed.

(** The loop of lexComment over a comment [body] that ends at a newline
    or at the end of the input: it stops in front of that end. *)
Lemma lexComment_loop_spec fuel : forall body l tail,
  unread l = body ++ tail ->
  Forall (fun c => c <> newline) body ->
  (tail = [] \/ exists t, tail = newline :: t) ->
  (length body <= fuel)%nat ->
  lexComment_loop fuel l = moved (length body) (length (take 1 tail)) l.
Proof.
  induction fuel as [|fuel IH]; intros body l tail Hu Hb Htail Hf.
  - destruct body; [|simpl in Hf; lia]. simpl in Hu. simpl.
    destruct Htail as [->|(t & ->)].
    + rewrite (next_eof l Hu). simpl. rewrite backup_moved by lia. reflexivity.
    + rewrite (next_ascii l newline t Hu) by (vm_compute; reflexivity).
      simpl. rewrite backup_moved by lia. reflexivity.
  - destruct body as [|c body].
    + simpl in Hu. simpl.
      destruct Htail as [->|(t & ->)].
      * rewrite (next_eof l Hu). simpl. rewrite backup_moved by lia. reflexivity.
      * rewrite (next_ascii l newline t Hu) by (vm_compute; reflexivity).
        simpl. rewrite backup_moved by lia. reflexivity.
    + destruct (next_in_run l c body tail Hu) as (r & w & Hn & Hw & Hu' & Hr).
      { destruct Htail as [->|(t & ->)]; [left; reflexivity|right].
        exists newline, t. split; [reflexivity|vm_compute; reflexivity]. }
      simpl. rewrite Hn.
      inversion Hb as [|? ? Hc Hb']; subst.
      rewrite (not_newline_rune c r Hc) by tauto.
      rewrite (IH (drop w (c :: body)) (moved w w l) tail Hu').
      * rewrite moved_moved. f_equal. rewrite length_drop. simpl. lia.
      * apply Forall_drop. exact Hb.
      * exact Htail.
      * rewrite length_drop. simpl in *. lia.
Qed.

Lemma isNewLine_byte c r :
  (b2z c < 128 /\ r = b2z c) \/ (128 <= b2z c /\ 128 <= r) ->
  isNewLine r = isNewLine (b2z c).
Proof.
  unfold isNewLine. intros [[_ ->]|[Hc Hr]]; [reflexivity|].
  change (ch "010") with 10. change (ch "013") with 13.
  destruct (Z.eqb_spec r 10), (Z.eqb_spec r 13), (Z.eqb_spec (b2z c) 10),
    (Z.eqb_spec (b2z c) 13); try lia; reflexivity.
Qed.

(** The start state in front of a comment. *)
Lemma lexStart_comment l body tail :
  unread l = "#"%char :: body ++ tail ->
  Forall (fun c => c <> newline) body ->
  (tail = [] \/ exists t, tail = newline :: t) ->
  lexStart l
  = ([], ignore (moved (1 + length body) (length (take 1 tail)) l), Some lexStartFn).
Proof.
  intros Hu Hb Htail. unfold lexStart.
  rewrite (next_ascii l _ _ Hu) by (vm_compute; reflexivity).
  change (b2z "#" =? eof) with false. change (isDash (b2z "#")) with false.
  change (isNewLine (b2z "#")) with false. change (isSpace (b2z "#")) with false.
  change (b2z "#" =? commentStart) with true. cbv iota.
  unfold lexComment.
  rewrite (lexComment_loop_spec _ body (moved 1 1 l) tail).
  - rewrite moved_moved. reflexivity.
  - rewrite unread_moved, Hu. reflexivity.
  - exact Hb.
  - exact Htail.
  - change (input (moved 1 1 l)) with (input l).
    pose proof (unread_length l) as Hl. rewrite Hu in Hl. simpl in Hl.
    rewrite length_app in Hl. lia.
Qed.

(** The start state in front of two newline runes: the scan ends. *)
Lemma lexStart_blank_line l c1 c2 t :
  unread l = c1 :: c2 :: t ->
  isNewLine (b2z c1) = true -> isNewLine (b2z c2) = true ->
  lexStart l = send tokenEOF (moved 1 1 l) None.
Proof.
  intros Hu H1 H2. unfold lexStart.
  assert (Ha1 : b2z c1 < 128).
  { unfold isNewLine in H1. change (ch "010") with 10 in H1. change (ch "013") with 13 in H1.
    apply orb_true_iff in H1. destruct H1 as [E|E]; apply Z.eqb_eq in E; lia. }
  assert (Ha2 : b2z c2 < 128).
  { unfold isNewLine in H2. change (ch "010") with 10 in H2. change (ch "013") with 13 in H2.
    apply orb_true_iff in H2. destruct H2 as [E|E]; apply Z.eqb_eq in E; lia. }
  rewrite (next_ascii l _ _ Hu Ha1).
  assert (He : (b2z c1 =? eof) = false).
  { apply Z.eqb_neq. pose proof (b2z_range c1). unfold eof. lia. }
  assert (Hd : isDash (b2z c1) = false).
  { unfold isDash, isNewLine in *. change (ch "-") with 45.
    change (ch "010") with 10 in H1. change (ch "013") with 13 in H1.
    apply orb_true_iff in H1. apply Z.eqb_neq.
    destruct H1 as [E|E]; apply Z.eqb_eq in E; lia. }
  rewrite He, Hd, H1. unfold peek.
  rewrite (next_ascii (moved 1 1 l) c2 t) by (rewrite ?unread_moved, ?Hu; auto).
  rewrite H2. rewrite moved_moved, backup_moved by lia. reflexivity.
Qed.

(** The start state in front of one newline rune that no other follows:
    it is passed over. *)
Lemma lexStart_newline l c1 t :
  unread l = c1 :: t ->
  isNewLine (b2z c1) = true ->
  (t = [] \/ exists c2 t', t = c2 :: t' /\ isNewLine (b2z c2) = false) ->
  exists w, lexStart l = ([], ignore (moved 1 w l), Some lexStartFn).
Proof.
  intros Hu H1 Ht. unfold lexStart.
  assert (Ha1 : b2z c1 < 128).
  { unfold isNewLine in H1. change (ch "010") with 10 in H1. change (ch "013") with 13 in H1.
    apply orb_true_iff in H1. destruct H1 as [E|E]; apply Z.eqb_eq in E; lia. }
  rewrite (next_ascii l _ _ Hu Ha1).
  assert (He : (b2z c1 =? eof) = false).
  { apply Z.eqb_neq. pose proof (b2z_range c1). unfold eof. lia. }
  assert (Hd : isDash (b2z c1) = false).
  { unfold isDash, isNewLine in *. change (ch "-") with 45.
    change (ch "010") with 10 in H1. change (ch "013") with 13 in H1.
    apply orb_true_iff in H1. apply Z.eqb_neq.
    destruct H1 as [E|E]; apply Z.eqb_eq in E; lia. }
  rewrite He, Hd, H1. unfold peek.
  destruct Ht as [->|(c2 & t' & -> & H2)].
  - rewrite (next_eof (moved 1 1 l)) by (rewrite unread_moved, Hu; reflexivity).
    change (isNewLine eof) with false. cbv iota.
    rewrite moved_moved, backup_moved by lia. exists 0%nat. reflexivity.
  - destruct (next_head (moved 1 1 l) c2 t') as (r & w & Hn & Hw & Hr).
    { rewrite unread_moved, Hu. reflexivity. }
    rewrite Hn. rewrite (isNewLine_byte c2 r) by tauto. rewrite H2.
    rewrite moved_moved, backup_moved by lia. exists w.
    replace (1 + w - w)%nat with 1%nat by lia. reflexivity.
Qed.
End LexerLoops.

Section MalformedTokens.
Import Lexer.







End MalformedTokens.

Section BadNumbers.
Import Lexer.

Lemma ContainsRune_digits r : strings.ContainsRune (bytes digits) r = isDigit r.
Proof.
  unfold strings.ContainsRune, isDigit, utf8.RuneSelf.
  change (ch "0") with 48. change (ch "9") with 57.
  change (existsb (fun c => b2z c =? r) (bytes digits))
    with ((48 =? r) || ((49 =? r) || ((50 =? r) || ((51 =? r) || ((52 =? r)
          || ((53 =? r) || ((54 =? r) || ((55 =? r) || ((56 =? r)
          || ((57 =? r) || false)))))))))).
  destruct (Z.leb_spec 48 r) as [H1|H1], (Z.leb_spec r 57) as [H2|H2];
    cbn [andb].
  - assert (H : r = 48 \/ r = 49 \/ r = 50 \/ r = 51 \/ r = 52 \/ r = 53 \/ r = 54
                \/ r = 55 \/ r = 56 \/ r = 57) by lia.
    repeat (destruct H as [->|H]; [reflexivity|]). subst. reflexivity.
  - repeat match goal with |- context [?a =? r] =>
      replace (a =? r) with false by (symmetry; apply Z.eqb_neq; lia) end.
    apply andb_false_r.
  - repeat match goal with |- context [?a =? r] =>
      replace (a =? r) with false by (symmetry; apply Z.eqb_neq; lia) end.
    apply andb_false_r.
  - lia.
Qed.

Lemma isDigit_ascii c : isDigit (b2z c) = true -> b2z c < 128.
Proof.
  unfold isDigit. change (ch "0") with 48. change (ch "9") with 57.
  intros H. apply andb_true_iff in H. destruct H as [_ H]. apply Z.leb_le in H. lia.
Qed.

Lemma accept_yes valid l c t :
  unread l = c :: t -> b2z c < 128 ->
  strings.ContainsRune (bytes valid) (b2z c) = true ->
  accept valid l = (true, moved 1 1 l).
Proof.
  intros Hu Hc Hv. unfold accept. rewrite (next_ascii l c t Hu Hc), Hv. reflexivity.
Qed.

Lemma accept_no valid l c t :
  unread l = c :: t -> b2z c < 128 ->
  strings.ContainsRune (bytes valid) (b2z c) = false ->
  accept valid l = (false, moved 0 1 l).
Proof.
  intros Hu Hc Hv. unfold accept. rewrite (next_ascii l c t Hu Hc), Hv.
  rewrite backup_moved by lia. reflexivity.
Qed.




End BadNumbers.

(** ** The tree builder in front of the tokens of a scan *)

Section ClosingStreams.
Import Tree.
Variable k : tokenType.

Lemma closing_same t t' :
  closing k t -> (peekCount t' <= 1)%nat -> stream t' = stream t -> closing k t'.
Proof.
  intros (_ & Hkd & pre & e & Hs & Hpre & He) Hp' Hs'. split; [exact Hp'|].
  split; [exact Hkd|]. exists pre, e. rewrite Hs'. auto.
Qed.

Lemma closing_inv t :
  closing k t ->
  exists tok rest,
    stream t = tok :: rest /\ Tok.typ tok <> tokenSpace /\ (peekCount t <= 1)%nat
    /\ (Tok.typ tok = k
        \/ (middle tok
            /\ forall t', (peekCount t' <= 1)%nat -> stream t' = rest -> closing k t'))
    /\ (k = tokenEOF \/ k = tokenError).
Proof.
  intros (Hp & Hkd & pre & e & Hs & Hpre & He).
  destruct pre as [|tok pre]; simpl in Hs.
  - exists e, []. split; [exact Hs|]. split; [destruct Hkd; congruence|].
    split; [exact Hp|]. split; [left; exact He|exact Hkd].
  - inversion Hpre as [|x xs Hm Hpre' Ex]. clear Ex Hpre.
    exists tok, (pre ++ [e]). split; [exact Hs|]. split; [apply Hm|].
    split; [exact Hp|]. split; [|exact Hkd].
    right. split; [exact Hm|]. intros t' Hp' Hs'. split; [exact Hp'|].
    split; [exact Hkd|]. exists pre, e. auto.
Qed.

Lemma nextNonSpace_stream t tok rest :
  (peekCount t <= 1)%nat -> stream t = tok :: rest -> Tok.typ tok <> tokenSpace ->
  exists t', nextNonSpace t = Ok (tok, t')
             /\ peekCount t' = 0%nat /\ stream t' = rest.
Proof.
  intros Hp Hs Hn. unfold stream in Hs.
  destruct (peekCount t) as [|[|n]] eqn:E; [| |lia].
  - rewrite (nextNonSpace_fresh t tok rest E Hs Hn). eexists. split; [reflexivity|].
    split; reflexivity.
  - inversion Hs; subst. rewrite (nextNonSpace_peeked t E Hn).
    eexists. split; [reflexivity|]. split; reflexivity.
Qed.

Lemma peekNonSpace_stream t tok rest :
  (peekCount t <= 1)%nat -> stream t = tok :: rest -> Tok.typ tok <> tokenSpace ->
  exists t', peekNonSpace t = Ok (tok, t')
             /\ peekCount t' = 1%nat /\ stream t' = tok :: rest.
Proof.
  intros Hp Hs Hn. unfold stream in Hs.
  destruct (peekCount t) as [|[|n]] eqn:E; [| |lia].
  - rewrite (peekNonSpace_fresh t tok rest E Hs Hn). eexists. split; [reflexivity|].
    split; reflexivity.
  - inversion Hs; subst. rewrite (peekNonSpace_peeked t E Hn).
    eexists. split; [reflexivity|]. split; [exact E|].
    unfold stream. rewrite E. reflexivity.
Qed.

Lemma peek_stream t tok rest :
  (peekCount t <= 1)%nat -> stream t = tok :: rest ->
  exists t', peek t = Ok (tok, t') /\ peekCount t' = 1%nat /\ stream t' = tok :: rest.
Proof.
  intros Hp Hs. unfold stream in Hs. unfold peek.
  destruct (peekCount t) as [|[|n]] eqn:E; [| |lia].
  - unfold nextToken. simpl. rewrite Hs. simpl.
    eexists. split; [reflexivity|]. split; reflexivity.
  - inversion Hs; subst. simpl. exists t. split; [reflexivity|]. split; [exact E|].
    unfold stream. rewrite E. reflexivity.
Qed.

Lemma fails_or_advances_trans {A} t t1 (r : M A) :
  (length (stream t1) <= length (stream t))%nat ->
  fails_or_advances k t1 r -> fails_or_advances k t r.
Proof.
  intros Hle [He|(a & t' & Hr & Hf & Hlt)]; [left; exact He|right].
  exists a, t'. split; [exact Hr|]. split; [exact Hf|lia].
Qed.

(** value and array in front of the tokens of a scan. *)
Lemma value_array_closing f :
  (forall t, closing k t -> (2 * length (stream t) <= f)%nat ->
     fails_or_advances k t (value_fuel f t))
  /\ (forall pos acc t, closing k t -> (2 * length (stream t) + 1 <= f)%nat ->
        fails_or_advances k t (array_fuel f pos acc t)).
Proof.
  induction f as [|f [IHv IHa]].
  - split.
    + intros t Hf Hl. destruct (closing_inv t Hf) as (tok & rest & Hs & _).
      rewrite Hs in Hl. simpl in Hl. lia.
    + intros pos acc t _ Hl. lia.
  - split.
    + intros t Hf Hl.
      destruct (closing_inv t Hf) as (tok & rest & Hs & Hn & Hp & Hk & Hkd).
      destruct (nextNonSpace_stream t tok rest Hp Hs Hn) as (t1 & H1 & Hp1 & Hs1).
      assert (Hlen : length (stream t) = S (length rest)) by (rewrite Hs; reflexivity).
      simpl. rewrite H1. simpl.
      assert (Hok : forall n, Tok.typ tok <> tokenEOF -> Tok.typ tok <> tokenError ->
                fails_or_advances k t (Ok (n, t1) : M Node)).
      { intros n Hne1 Hne2. destruct Hk as [Hk|[_ Hk]]; [destruct Hkd; congruence|].
        right. exists n, t1. split; [reflexivity|]. split.
        - apply Hk; [lia|exact Hs1].
        - rewrite Hs1. lia. }
      destruct (Tok.typ tok) eqn:Et; try (left; eexists; reflexivity).
      * apply Hok; discriminate.
      * destruct (newNumber _ _); [apply Hok; discriminate|left; eexists; reflexivity].
      * destruct (strconv.Unquote _); [apply Hok; discriminate|left; eexists; reflexivity].
      * destruct (time.Parse _); [apply Hok; discriminate|left; eexists; reflexivity].
      * destruct Hk as [Hk|[_ Hk]]; [destruct Hkd; congruence|].
        assert (Hf1 : closing k t1) by (apply Hk; [lia|exact Hs1]).
        destruct (closing_inv t1 Hf1) as (tok' & rest' & Hs' & _ & Hp' & _).
        destruct (peek_stream t1 tok' rest' Hp' Hs') as (t2 & H2 & Hp2 & Hs2).
        rewrite H2. simpl.
        assert (Hf2 : closing k t2).
        { apply (closing_same t1); [exact Hf1|lia|]. rewrite Hs2, <- Hs'. reflexivity. }
        apply (fails_or_advances_trans t t2).
        -- rewrite Hs2, <- Hs', Hs1. lia.
        -- apply IHa; [exact Hf2|]. rewrite Hs2, <- Hs', Hs1. lia.
    + intros pos acc t Hf Hl.
      destruct (closing_inv t Hf) as (tok & rest & Hs & Hn & Hp & Hk & Hkd).
      destruct (peekNonSpace_stream t tok rest Hp Hs Hn) as (t1 & H1 & Hp1 & Hs1).
      assert (Hf1 : closing k t1).
      { apply (closing_same t); [exact Hf|lia|]. rewrite Hs1, <- Hs. reflexivity. }
      assert (Hlen : length (stream t) = S (length rest)) by (rewrite Hs; reflexivity).
      destruct (decide (Tok.typ tok = tokenArrayEnd)) as [Hend|Hne].
      * rewrite (array_fuel_close f pos acc t tok t1 H1 Hend).
        destruct (nextNonSpace_stream t1 tok rest) as (t2 & H2 & Hp2 & Hs2); auto; [lia|].
        rewrite H2. simpl.
        destruct Hk as [Hk|[_ Hk]]; [destruct Hkd; congruence|].
        right. exists (ArrayNode pos acc), t2. split; [reflexivity|]. split.
        -- apply Hk; [lia|exact Hs2].
        -- rewrite Hs2. lia.
      * rewrite (array_fuel_element f pos acc t tok t1 H1 Hne).
        destruct (IHv t1 Hf1) as [(e & He)|(node & t2 & Hv & Hf2 & Hlt)].
        { rewrite Hs1, <- Hs. lia. }
        { left. exists e. rewrite He. reflexivity. }
        rewrite Hv. simpl.
        destruct (closing_inv t2 Hf2) as (tok2 & rest2 & Hs2 & Hn2 & Hp2 & Hk2 & _).
        destruct (peekNonSpace_stream t2 tok2 rest2 Hp2 Hs2 Hn2) as (t3 & H3 & Hp3 & Hs3).
        rewrite H3. simpl.
        assert (Hf3 : closing k t3).
        { apply (closing_same t2); [exact Hf2|lia|]. rewrite Hs3, <- Hs2. reflexivity. }
        assert (Hlt1 : (length (stream t2) < length (stream t))%nat).
        { rewrite Hs1, <- Hs in Hlt. exact Hlt. }
        destruct (decide (Tok.typ tok2 = tokenArrayEnd)) as [Hend2|Hne2].
        -- simpl. apply (fails_or_advances_trans t t3).
           ++ rewrite Hs3, <- Hs2. lia.
           ++ apply IHa; [exact Hf3|]. rewrite Hs3, <- Hs2. lia.
        -- unfold expect.
           destruct (nextNonSpace_stream t3 tok2 rest2) as (t4 & H4 & Hp4 & Hs4);
             auto; [lia|].
           rewrite H4. simpl.
           destruct (decide (Tok.typ tok2 = tokenArraySep)) as [Hsep|Hnsep];
             [|left; eexists; reflexivity].
           simpl. destruct Hk2 as [Hk2|[_ Hk2]]; [destruct Hkd; congruence|].
           assert (Hf4 : closing k t4) by (apply Hk2; [lia|exact Hs4]).
           apply (fails_or_advances_trans t t4).
           ++ rewrite Hs4. rewrite Hs2 in Hlt1. simpl in Hlt1. lia.
           ++ apply IHa; [exact Hf4|]. rewrite Hs4. rewrite Hs2 in Hlt1.
              simpl in Hlt1. lia.
Qed.

Lemma pending_stream t : (peekCount t <= 1)%nat -> pending t = length (stream t).
Proof.
  intros Hp. unfold pending, stream. destruct (peekCount t) as [|[|n]]; simpl; lia.
Qed.

Lemma value_closing t : closing k t -> fails_or_advances k t (value t).
Proof.
  intros Hf. unfold value. apply (proj1 (value_array_closing _)); [exact Hf|].
  unfold fuelFor. rewrite pending_stream by apply Hf. lia.
Qed.

(** An entry, in front of a key. *)
Lemma entry_closing t tok rest :
  closing k t -> stream t = tok :: rest -> Tok.typ tok = tokenKey ->
  fails_or_advances k t (entry t).
Proof.
  intros Hf Hs Hkey.
  destruct (closing_inv t Hf) as (tok' & rest' & Hs' & Hn & Hp & Hk & Hkd).
  rewrite Hs in Hs'. inversion Hs'; subst tok' rest'. clear Hs'.
  destruct Hk as [Hk|[_ Hk]]; [destruct Hkd; congruence|].
  destruct (nextNonSpace_stream t tok rest Hp Hs Hn) as (t1 & H1 & Hp1 & Hs1).
  unfold entry. rewrite H1. simpl.
  assert (Hf1 : closing k t1) by (apply Hk; [lia|exact Hs1]).
  destruct (closing_inv t1 Hf1) as (tok2 & rest2 & Hs2 & Hn2 & Hp2 & Hk2 & _).
  destruct (nextNonSpace_stream t1 tok2 rest2 Hp2 Hs2 Hn2) as (t2 & H2 & Hp2' & Hs2').
  unfold expect. rewrite H2. simpl.
  destruct (decide (Tok.typ tok2 = tokenKeySep)) as [Hsep|Hnsep];
    [|left; eexists; reflexivity].
  simpl. destruct Hk2 as [Hk2|[_ Hk2]]; [destruct Hkd; congruence|].
  assert (Hf2 : closing k t2) by (apply Hk2; [lia|exact Hs2']).
  destruct (value_closing t2 Hf2) as [(e & He)|(v & t3 & Hv & Hf3 & Hlt)].
  - left. exists e. rewrite He. reflexivity.
  - right. rewrite Hv. simpl. eexists _, t3. split; [reflexivity|]. split; [exact Hf3|].
    rewrite Hs2' in Hlt. rewrite Hs. rewrite Hs1 in Hs2. rewrite Hs2. simpl. lia.
Qed.

Lemma entryGroup_loop_closing fuel : forall entries t,
  closing k t -> (length (stream t) < fuel)%nat ->
  (exists e, entryGroup_loop fuel entries t = Err e)
  \/ (exists es t', entryGroup_loop fuel entries t = Ok (es, t') /\ closing k t'
                    /\ (length (stream t') <= length (stream t))%nat).
Proof.
  induction fuel as [|fuel IH]; intros entries t Hf Hl; [lia|].
  destruct (closing_inv t Hf) as (tok & rest & Hs & Hn & Hp & Hk & Hkd).
  destruct (peekNonSpace_stream t tok rest Hp Hs Hn) as (t1 & H1 & Hp1 & Hs1).
  assert (Hf1 : closing k t1).
  { apply (closing_same t); [exact Hf|lia|]. rewrite Hs1, <- Hs. reflexivity. }
  simpl. rewrite H1. simpl.
  assert (Hstop : exists es t', (Ok (entries, t1) : M (list Node)) = Ok (es, t')
                    /\ closing k t'
                    /\ (length (stream t') <= length (stream t))%nat).
  { exists entries, t1. split; [reflexivity|]. split; [exact Hf1|].
    rewrite Hs1, Hs. lia. }
  destruct (Tok.typ tok) eqn:Et; try (right; exact Hstop).
  destruct (entry_closing t1 tok rest Hf1 Hs1 Et) as [(e & He)|(en & t2 & He & Hf2 & Hlt)].
  { left. exists e. rewrite He. reflexivity. }
  rewrite He. simpl.
  destruct (IH (entries ++ [en]) t2 Hf2) as [(e & He')|(es & t3 & He' & Hf3 & Hle)].
  { rewrite Hs1, <- Hs in Hlt. lia. }
  - left. exists e. exact He'.
  - right. exists es, t3. split; [exact He'|]. split; [exact Hf3|].
    rewrite Hs1, <- Hs in Hlt. lia.
Qed.

Lemma parseKeyGroup_ok tok :
  (2 <= String.length (Tok.val tok))%nat -> exists g, parseKeyGroup tok = Ok g.
Proof.
  intros H. unfold parseKeyGroup.
  destruct (Nat.ltb_spec (String.length (Tok.val tok)) 2); [lia|]. eauto.
Qed.

Lemma top_closing t : closing k t -> fails_or_advances k t (top t).
Proof.
  intros Hf.
  destruct (closing_inv t Hf) as (tok & rest & Hs & Hn & Hp & Hk & Hkd).
  destruct (peekNonSpace_stream t tok rest Hp Hs Hn) as (t1 & H1 & Hp1 & Hs1).
  assert (Hf1 : closing k t1).
  { apply (closing_same t); [exact Hf|lia|]. rewrite Hs1, <- Hs. reflexivity. }
  assert (Hlen : length (stream t1) = length (stream t)) by (rewrite Hs1, Hs; reflexivity).
  destruct (nextNonSpace_stream t1 tok rest ltac:(lia) Hs1 Hn) as (t2 & H2 & Hp2 & Hs2).
  unfold top. rewrite H1. simpl.
  destruct (Tok.typ tok) eqn:Et; try (left; eexists; reflexivity).
  - rewrite H2. simpl. left. eexists. reflexivity.
  - destruct Hk as [Hk|[Hm Hk]]; [destruct Hkd; congruence|].
    unfold entryGroup. rewrite H2. cbn [rbind].
    destruct (parseKeyGroup_ok tok) as [g Hg]; [apply Hm; exact Et|].
    rewrite Hg. cbn [rbind].
    assert (Hf2 : closing k t2) by (apply Hk; [lia|exact Hs2]).
    destruct (closing_inv t2 Hf2) as (tok' & rest' & Hs' & _ & Hp' & _).
    destruct (peek_stream t2 tok' rest' Hp' Hs') as (t3 & H3 & Hp3 & Hs3).
    rewrite H3. cbn [rbind].
    assert (Hf3 : closing k t3).
    { apply (closing_same t2); [exact Hf2|lia|]. rewrite Hs3, <- Hs'. reflexivity. }
    destruct (entryGroup_loop_closing (S (pending t3)) [] t3 Hf3)
      as [(e & He)|(es & t4 & He & Hf4 & Hle)].
    { rewrite pending_stream by lia. lia. }
    + left. exists e. rewrite He. reflexivity.
    + right. rewrite He. simpl. eexists _, t4. split; [reflexivity|]. split; [exact Hf4|].
      rewrite Hs3, <- Hs', Hs2 in Hle. rewrite Hs. simpl. lia.
  - apply (fails_or_advances_trans t t1); [lia|].
    apply (entry_closing t1 tok rest Hf1 Hs1 Et).
Qed.

(** The loop of parse: an error, or the end of the input. *)
Lemma parse_loop_closing fuel : forall t,
  closing k t -> (length (stream t) < fuel)%nat ->
  (exists e, parse_loop fuel t = Err e)
  \/ (k = tokenEOF /\ exists t', parse_loop fuel t = Ok (tt, t')).
Proof.
  induction fuel as [|fuel IH]; intros t Hf Hl; [lia|].
  destruct (closing_inv t Hf) as (tok & rest & Hs & Hn & Hp & Hk & Hkd).
  destruct (peek_stream t tok rest Hp Hs) as (t1 & H1 & Hp1 & Hs1).
  assert (Hf1 : closing k t1).
  { apply (closing_same t); [exact Hf|lia|]. rewrite Hs1, <- Hs. reflexivity. }
  simpl. rewrite H1. simpl.
  destruct (decide (Tok.typ tok = tokenEOF)) as [Heof|_].
  { right. split; [|eauto].
    destruct Hk as [Hk|[Hm _]]; [congruence|]. destruct Hm as [Hm _]. contradiction. }
  destruct (top_closing t1 Hf1) as [(e & He)|(n & t2 & Ht & Hf2 & Hlt)].
  - left. exists e. rewrite He. reflexivity.
  - rewrite Ht. simpl.
    apply IH.
    + destruct (Root t2) as [[p nodes]|]; [|exact Hf2].
      apply (closing_same t2); [exact Hf2|apply Hf2|reflexivity].
    + assert (Hsame : forall r, stream (setRoot r t2) = stream t2) by reflexivity.
      destruct (Root t2) as [[p nodes]|]; rewrite ?Hsame;
        rewrite Hs1, <- Hs in Hlt; lia.
Qed.
End ClosingStreams.

Section ParseOutcome.
Import Tree.

(** Parse on the tokens of a scan: an error, or a tree when the scan has
    come to the end of the input. *)
Lemma Parse_closing text toks pre e :
  Lexer.lex text = Some toks -> toks = pre ++ [e] ->
  Forall middle pre -> (Tok.typ e = tokenEOF \/ Tok.typ e = tokenError) ->
  (exists err, Parse text = Err err)
  \/ (Tok.typ e = tokenEOF /\ exists t, Parse text = Ok t).
Proof.
  intros Hlex -> Hpre He. unfold Parse. rewrite Hlex.
  set (t := mk None text (pre ++ [e]) 0 zeroToken zeroToken zeroToken 0).
  assert (Hf : closing (Tok.typ e) t).
  { split; [simpl; lia|]. split; [exact He|]. exists pre, e. auto. }
  destruct (closing_inv _ t Hf) as (tok & rest & Hs & Hn & Hp & Hk & _).
  destruct (peek_stream t tok rest Hp Hs) as (t1 & H1 & Hp1 & Hs1).
  unfold parse. rewrite H1. cbn [rbind].
  destruct (parse_loop_closing (Tok.typ e)
              (S (pending (setRoot (Some (Tok.pos tok, [])) t1)))
              (setRoot (Some (Tok.pos tok, [])) t1))
    as [[err Herr]|(Hk' & t' & Hok)].
  - apply (closing_same _ t); [exact Hf|simpl; lia|].
    change (stream (setRoot (Some (Tok.pos tok, [])) t1)) with (stream t1).
    rewrite Hs1, <- Hs. reflexivity.
  - rewrite pending_stream by (simpl; lia). lia.
  - left. exists err. rewrite Herr. reflexivity.
  - right. split; [exact Hk'|]. exists t'. rewrite Hok. reflexivity.
Qed.

(** Parse fails with an error when the scanner ends with an error
    token. *)
Lemma Parse_failing text toks pre e :
  Lexer.lex text = Some toks -> toks = pre ++ [e] ->
  Forall middle pre -> Tok.typ e = tokenError ->
  exists err, Parse text = Err err.
Proof.
  intros Hlex Htoks Hpre He.
  destruct (Parse_closing text toks pre e Hlex Htoks Hpre (or_intror He))
    as [Herr|[Heof _]]; [exact Herr|congruence].
Qed.
End ParseOutcome.

(** ** The tokens the scanner sends *)

Section ScannerInvariant.
Import Lexer.

Lemma next_spec l r l1 :
  next l = (r, l1) -> (pos l <= length (input l))%nat ->
  input l1 = input l /\ start l1 = start l /\ arrayDepth l1 = arrayDepth l
  /\ pos l1 = (pos l + width l1)%nat /\ (pos l1 <= length (input l))%nat
  /\ (r <> eof -> (1 <= width l1)%nat)
  /\ (forall c t, unread l = c :: t -> b2z c < 128 -> width l1 = 1%nat).
Proof.
  intros H Hb. unfold next in H.
  destruct (Nat.leb_spec (length (input l)) (pos l)) as [Hle|Hlt].
  - inversion H; subst. simpl. repeat split; try lia; try congruence.
    intros c t Hu. pose proof (unread_length l) as Hl. rewrite Hu in Hl. simpl in Hl. lia.
  - fold (unread l) in H. destruct (unread l) as [|c t] eqn:Hu.
    { pose proof (unread_length l) as Hl. rewrite Hu in Hl. simpl in Hl. lia. }
    destruct (utf8.DecodeRuneInString (c :: t)) as [r' w] eqn:Hd.
    inversion H; subst. simpl.
    destruct (decode_spec _ _ _ _ Hd) as (Hw & Ha & _).
    pose proof (unread_length l) as Hl. rewrite Hu in Hl. simpl in Hl, Hw.
    repeat split; try lia.
    intros c' t' E Hc'. inversion E; subst. destruct (Ha Hc'). assumption.
Qed.

Lemma next_adv l r l1 :
  next l = (r, l1) -> (pos l <= length (input l))%nat -> adv l l1.
Proof.
  intros H Hb. destruct (next_spec l r l1 H Hb) as (Hi & Hs & _ & Hp & Hl & _).
  unfold adv. repeat split; auto; lia.
Qed.

Lemma adv_next l l1 r l2 :
  adv l l1 -> next l1 = (r, l2) -> adv l l2.
Proof.
  intros (Hi & Hs & Hp & Hl) H.
  destruct (next_spec l1 r l2 H) as (Hi2 & Hs2 & _ & Hp2 & Hl2 & _); [rewrite Hi; lia|].
  unfold adv. rewrite Hi2, Hs2, Hi in *. repeat split; auto; lia.
Qed.

Lemma adv_backup l l1 : adv l l1 -> fwd l (backup l1).
Proof. intros (Hi & Hs & Hp & Hl). unfold fwd, backup. simpl. repeat split; auto; lia. Qed.

Lemma adv_fwd l l1 : adv l l1 -> fwd l l1.
Proof. intros (Hi & Hs & Hp & Hl). unfold fwd. repeat split; auto; lia. Qed.

Lemma fwd_adv l l1 l2 : fwd l l1 -> adv l1 l2 -> adv l l2.
Proof.
  intros (Hi & Hs & Hp) (Hi2 & Hs2 & Hp2 & Hl2). unfold adv.
  rewrite Hi2, Hs2, Hi in *. repeat split; auto; lia.
Qed.

Lemma fwd_trans l l1 l2 : fwd l l1 -> fwd l1 l2 -> fwd l l2.
Proof.
  intros (Hi & Hs & Hp) (Hi2 & Hs2 & Hp2). unfold fwd.
  rewrite Hi2, Hs2, Hi in *. repeat split; auto; lia.
Qed.

Lemma fwd_bound l l1 : fwd l l1 -> (pos l1 <= length (input l1))%nat.
Proof. intros (Hi & _ & Hp). rewrite Hi. lia. Qed.

Lemma acceptRun_loop_adv valid fuel : forall l,
  (pos l <= length (input l))%nat -> adv l (acceptRun_loop fuel valid l).
Proof.
  induction fuel as [|fuel IH]; intros l Hb; simpl;
    destruct (next l) as [r l1] eqn:Hn; pose proof (next_adv l r l1 Hn Hb) as Ha;
    destruct (strings.ContainsRune _ r); auto.
  apply (fwd_adv l l1); [apply adv_fwd; exact Ha|].
  apply IH. apply (fwd_bound l). apply adv_fwd. exact Ha.
Qed.

Lemma acceptRun_fwd valid l :
  (pos l <= length (input l))%nat -> fwd l (acceptRun valid l).
Proof. intros Hb. apply adv_backup, acceptRun_loop_adv, Hb. Qed.

Lemma accept_fwd valid l b l1 :
  accept valid l = (b, l1) -> (pos l <= length (input l))%nat -> fwd l l1.
Proof.
  unfold accept. intros H Hb. destruct (next l) as [r l2] eqn:Hn.
  pose proof (next_adv l r l2 Hn Hb) as Ha.
  destruct (strings.ContainsRune _ r); inversion H; subst.
  - apply adv_fwd, Ha.
  - apply adv_backup, Ha.
Qed.

Lemma ignoreSpaces_loop_adv fuel : forall l,
  (pos l <= length (input l))%nat -> adv l (ignoreSpaces_loop fuel l).
Proof.
  induction fuel as [|fuel IH]; intros l Hb; simpl;
    destruct (next l) as [r l1] eqn:Hn; pose proof (next_adv l r l1 Hn Hb) as Ha;
    destruct (isSpace r); auto.
  apply (fwd_adv l l1); [apply adv_fwd; exact Ha|].
  apply IH. apply (fwd_bound l). apply adv_fwd. exact Ha.
Qed.

Lemma lexComment_loop_fwd fuel : forall l,
  (pos l <= length (input l))%nat -> fwd l (lexComment_loop fuel l).
Proof.
  induction fuel as [|fuel IH]; intros l Hb; simpl;
    destruct (next l) as [r l1] eqn:Hn; pose proof (next_adv l r l1 Hn Hb) as Ha;
    destruct ((r =? ch "010") || (r =? eof)); try (apply adv_backup, Ha);
    try (apply adv_fwd, Ha).
  apply (fwd_trans l l1); [apply adv_fwd; exact Ha|].
  apply IH. apply (fwd_bound l). apply adv_fwd. exact Ha.
Qed.

Lemma lexKeyGroup_loop_fwd fuel : forall l o l',
  lexKeyGroup_loop fuel l = (o, l') -> (pos l <= length (input l))%nat ->
  fwd l l' /\ (o = None -> (pos l < pos l')%nat).
Proof.
  induction fuel as [|fuel IH]; intros l o l' H Hb; simpl in H;
    destruct (next l) as [r l1] eqn:Hn; pose proof (next_adv l r l1 Hn Hb) as Ha;
    destruct (next_spec l r l1 Hn Hb) as (_ & _ & _ & Hp & _ & Hw & _);
    destruct (Z.eqb_spec r keyGroupEnd) as [Hr|Hr].
  - inversion H; subst. split; [apply adv_fwd, Ha|]. intros _.
    assert (keyGroupEnd <> eof) by discriminate. specialize (Hw H0). lia.
  - destruct (isAlphaNumeric r || (r =? keyGroupSep)); inversion H; subst;
      (split; [apply adv_backup, Ha|discriminate]).
  - inversion H; subst. split; [apply adv_fwd, Ha|]. intros _.
    assert (keyGroupEnd <> eof) by discriminate. specialize (Hw H0). lia.
  - destruct (isAlphaNumeric r || (r =? keyGroupSep)).
    + destruct (IH l1 o l' H) as [Hf Ho].
      { apply (fwd_bound l). apply adv_fwd. exact Ha. }
      split; [apply (fwd_trans l l1); [apply adv_fwd; exact Ha|exact Hf]|].
      intros E. specialize (Ho E). lia.
    + inversion H; subst. split; [apply adv_backup, Ha|discriminate].
Qed.

Lemma lexKey_loop_fwd fuel : forall l o l',
  lexKey_loop fuel l = (o, l') -> (pos l <= length (input l))%nat -> fwd l l'.
Proof.
  induction fuel as [|fuel IH]; intros l o l' H Hb; simpl in H;
    destruct (next l) as [r l1] eqn:Hn; pose proof (next_adv l r l1 Hn Hb) as Ha;
    destruct (isAlphaNumeric r); try destruct (isSpace r);
    try (inversion H; subst; apply adv_backup, Ha).
  all: apply (fwd_trans l l1); [apply adv_fwd; exact Ha|];
       apply (IH l1 o l' H); apply (fwd_bound l); apply adv_fwd; exact Ha.
Qed.

Lemma lexString_loop_fwd fuel : forall l b l',
  lexString_loop fuel l = (b, l') -> (pos l <= length (input l))%nat -> fwd l l'.
Proof.
  induction fuel as [|fuel IH]; intros l b l' H Hb; simpl in H;
    destruct (next l) as [r l1] eqn:Hn; pose proof (next_adv l r l1 Hn Hb) as Ha;
    destruct (r =? ch "\").
  - destruct (next l1) as [r2 l2] eqn:Hn2.
    pose proof (adv_next l l1 r2 l2 Ha Hn2) as Ha2.
    destruct (r2 =? eof); inversion H; subst; apply adv_fwd, Ha2.
  - destruct ((r =? eof) || (r =? ch "010")); [inversion H; subst; apply adv_fwd, Ha|].
    destruct (r =? ch "034"); inversion H; subst; apply adv_fwd, Ha.
  - destruct (next l1) as [r2 l2] eqn:Hn2.
    pose proof (adv_next l l1 r2 l2 Ha Hn2) as Ha2.
    destruct (r2 =? eof); [inversion H; subst; apply adv_fwd, Ha2|].
    apply (fwd_trans l l2); [apply adv_fwd; exact Ha2|].
    apply (IH l2 b l' H). apply (fwd_bound l). apply adv_fwd. exact Ha2.
  - destruct ((r =? eof) || (r =? ch "010")); [inversion H; subst; apply adv_fwd, Ha|].
    destruct (r =? ch "034"); [inversion H; subst; apply adv_fwd, Ha|].
    apply (fwd_trans l l1); [apply adv_fwd; exact Ha|].
    apply (IH l1 b l' H). apply (fwd_bound l). apply adv_fwd. exact Ha.
Qed.

Lemma lexDatetime_loop_fwd format : forall l o l',
  lexDatetime_loop format l = (o, l') -> (pos l <= length (input l))%nat -> fwd l l'.
Proof.
  induction format as [|f format IH]; intros l o l' H Hb; simpl in H.
  - inversion H; subst. unfold fwd. repeat split; auto.
  - destruct (next l) as [r l1] eqn:Hn. pose proof (next_adv l r l1 Hn Hb) as Ha.
    destruct (((f =? ch "0") && isDigit r) || (f =? r)).
    + apply (fwd_trans l l1); [apply adv_fwd; exact Ha|].
      apply (IH l1 o l' H). apply (fwd_bound l). apply adv_fwd. exact Ha.
    + inversion H; subst. apply adv_fwd, Ha.
Qed.
End ScannerInvariant.

Section ScannerTokens.
Import Lexer.

Lemma str_length s : String.length (str s) = length s.
Proof. induction s as [|c s IH]; simpl; [reflexivity|]. rewrite IH. reflexivity. Qed.

Lemma text_length l : inBounds l -> String.length (text l) = (pos l - start l)%nat.
Proof.
  intros [Hs Hp]. unfold text. rewrite str_length, length_take, length_drop. lia.
Qed.

Lemma final_send_eof l : answers (send tokenEOF l None).
Proof. unfold send, emit. simpl. eexists. split; [reflexivity|]. left. reflexivity. Qed.

Lemma final_errorf l format a : answers (errorf l format a).
Proof. unfold errorf. simpl. eexists. split; [reflexivity|]. right. reflexivity. Qed.

Lemma answers_ignore x st :
  (pos x <= length (input x))%nat -> st <> lexKeyGroupFn ->
  answers ([], ignore x, Some st).
Proof.
  intros Hp Hst. simpl. split; [|constructor].
  split; [|intros E; contradiction]. unfold inBounds, ignore. simpl. lia.
Qed.

Lemma fwd_inBounds l x : inBounds l -> fwd l x -> inBounds x.
Proof.
  intros [Hb1 Hb2] (Hi & Hs & Hp). unfold inBounds. rewrite Hi, Hs. lia.
Qed.

Lemma answers_pass x st :
  inBounds x -> st <> lexKeyGroupFn -> answers ([], x, Some st).
Proof.
  intros Hb Hst. simpl. split; [|constructor].
  split; [exact Hb|intros E; contradiction].
Qed.

Lemma answers_send t x st :
  (pos x <= length (input x))%nat -> st <> lexKeyGroupFn ->
  t <> tokenEOF -> t <> tokenError -> t <> tokenSpace -> t <> tokenKeyGroup ->
  answers (send t x (Some st)).
Proof.
  intros Hp Hst H1 H2 H3 H4. unfold send, emit. simpl. split.
  - split; [|intros E; contradiction]. unfold inBounds. simpl. lia.
  - constructor; [|constructor]. unfold Tree.middle. simpl.
    repeat split; auto. intros E. contradiction.
Qed.

Lemma lexStart_answers l : inBounds l -> answers (lexStart l).
Proof.
  intros Hb. pose proof Hb as [Hb1 Hb2]. unfold lexStart.
  destruct (next l) as [r l1] eqn:Hn.
  pose proof (next_adv l r l1 Hn Hb2) as Ha.
  destruct (next_spec l r l1 Hn Hb2) as (Hi & Hs & _ & Hp & Hl & Hw & _).
  assert (Hl1 : (pos l1 <= length (input l1))%nat) by (rewrite Hi; exact Hl).
  destruct (Z.eqb_spec r eof) as [He|He]; [apply final_send_eof|].
  destruct (isDash r); [apply answers_ignore; [exact Hl1|discriminate]|].
  destruct (isNewLine r).
  { unfold peek. destruct (next l1) as [r2 l2] eqn:Hn2.
    pose proof (adv_next l l1 r2 l2 Ha Hn2) as Ha2.
    destruct (isNewLine r2); [apply final_send_eof|].
    apply answers_ignore; [|discriminate].
    apply (fwd_bound l), adv_backup, Ha2. }
  destruct (isSpace r).
  { unfold ignoreSpaces. apply answers_ignore; [|discriminate].
    apply (fwd_bound l1), adv_backup, ignoreSpaces_loop_adv, Hl1. }
  destruct (r =? commentStart).
  { unfold lexComment. apply answers_ignore; [|discriminate].
    apply (fwd_bound l1), lexComment_loop_fwd, Hl1. }
  destruct (r =? keyGroupStart).
  { simpl. split; [|constructor]. specialize (Hw He).
    split; [unfold inBounds; rewrite Hi, Hs; lia|]. intros _. rewrite Hs. lia. }
  destruct (isAlpha r); [|apply final_errorf].
  apply answers_pass; [|discriminate]. apply (fwd_inBounds l); [exact Hb|apply adv_fwd, Ha].
Qed.

Lemma lexKeyGroup_answers l : Inv lexKeyGroupFn l -> answers (lexKeyGroup l).
Proof.
  intros [[Hb1 Hb2] Hk]. specialize (Hk eq_refl). unfold lexKeyGroup.
  destruct (lexKeyGroup_loop (length (input l)) l) as [[r|] l1] eqn:Hloop;
    [apply final_errorf|].
  destruct (lexKeyGroup_loop_fwd _ l None l1 Hloop Hb2) as [(Hi & Hs & Hp) Hlt].
  specialize (Hlt eq_refl). unfold send, emit. simpl. split.
  - split; [|intros E; discriminate]. unfold inBounds. simpl. rewrite Hi. lia.
  - constructor; [|constructor]. unfold Tree.middle. simpl.
    repeat split; try discriminate. intros _.
    rewrite text_length by (unfold inBounds; rewrite Hi, Hs; lia). rewrite Hs. lia.
Qed.

Lemma lexKey_answers l : inBounds l -> answers (lexKey l).
Proof.
  intros [Hb1 Hb2]. unfold lexKey.
  destruct (lexKey_loop (length (input l)) l) as [[r|] l1] eqn:Hloop;
    [apply final_errorf|].
  apply answers_send; try discriminate.
  apply (fwd_bound l), (lexKey_loop_fwd _ l None l1 Hloop Hb2).
Qed.

Lemma ignoreSpaces_bound l :
  (pos l <= length (input l))%nat ->
  (pos (ignoreSpaces l) <= length (input (ignoreSpaces l)))%nat
  /\ start (ignoreSpaces l) = pos (ignoreSpaces l).
Proof.
  intros Hb. unfold ignoreSpaces.
  pose proof (fwd_bound l _ (adv_backup l _ (ignoreSpaces_loop_adv (length (input l)) l Hb))).
  split; [exact H|reflexivity].
Qed.

Lemma lexKeySep_answers l : inBounds l -> answers (lexKeySep l).
Proof.
  intros [Hb1 Hb2]. unfold lexKeySep.
  destruct (ignoreSpaces_bound l Hb2) as [Hf _].
  destruct (next (ignoreSpaces l)) as [r l1] eqn:Hn.
  pose proof (next_adv _ r l1 Hn Hf) as Ha.
  destruct ((r =? keySep) || (r =? keySep2)); [|apply final_errorf].
  apply answers_send; try discriminate. apply (fwd_bound (ignoreSpaces l)), adv_fwd, Ha.
Qed.
Lemma HasPrefix_cons s w ws :
  strings.HasPrefix s (w :: ws) = true ->
  exists s', s = w :: s' /\ strings.HasPrefix s' ws = true.
Proof.
  destruct s as [|c s]; simpl; [discriminate|].
  intros H. apply andb_true_iff in H. destruct H as [Hc Hs].
  apply Ascii.eqb_eq in Hc. subst. eauto.
Qed.

(** A word that is found where the last rune read starts lies inside
    the input, and that rune was its first byte. *)
Lemma is_bound l r l1 c word :
  next l = (r, l1) -> (pos l <= length (input l))%nat ->
  b2z c < 128 -> is_ l1 (String c word) = true ->
  (pos l1 + String.length word <= length (input l1))%nat.
Proof.
  intros Hn Hb Hc His.
  destruct (next_spec l r l1 Hn Hb) as (Hi & Hs & _ & Hp & Hl & _ & Hw).
  unfold is_ in His. rewrite Hp in His.
  replace (pos l + width l1 - width l1)%nat with (pos l) in His by lia.
  rewrite Hi in His. fold (unread l) in His.
  change (bytes (String c word)) with (c :: bytes word) in His.
  destruct (HasPrefix_cons _ _ _ His) as (s' & Hu & Hrest).
  rewrite (Hw c s' Hu Hc) in Hp.
  assert (Hlen : forall w s, strings.HasPrefix s w = true -> (length w <= length s)%nat).
  { induction w as [|x w IH]; intros s0 H0; simpl; [lia|].
    destruct (HasPrefix_cons _ _ _ H0) as (s1 & -> & H1). simpl.
    specialize (IH s1 H1). lia. }
  pose proof (Hlen _ _ Hrest) as Hle.
  pose proof (unread_length l) as Hul. rewrite Hu in Hul. simpl in Hul.
  assert (Hb' : length (bytes word) = String.length word).
  { clear. induction word as [|x word IH]; simpl; [reflexivity|]. rewrite IH. reflexivity. }
  rewrite Hi. lia.
Qed.

Lemma lexValue_answers l : inBounds l -> answers (lexValue l).
Proof.
  intros Hb. pose proof Hb as [Hb1 Hb2]. unfold lexValue.
  destruct (next l) as [r l1] eqn:Hn.
  pose proof (next_adv l r l1 Hn Hb2) as Ha.
  destruct (next_spec l r l1 Hn Hb2) as (Hi & Hs & _ & Hp & Hl & Hw & _).
  assert (Hl1 : (pos l1 <= length (input l1))%nat) by (rewrite Hi; exact Hl).
  destruct (r =? eof); [apply final_send_eof|].
  destruct (r =? ch "013"); [apply answers_ignore; [exact Hl1|discriminate]|].
  destruct (r =? ch "010").
  { destruct (arrayDepth (ignore l1) =? 0);
      (apply answers_ignore; [exact Hl1|discriminate]). }
  destruct (isSpace r).
  { destruct (ignoreSpaces_bound l1 Hl1) as [Hf Hst].
    apply answers_pass; [|discriminate]. unfold inBounds. rewrite Hst. lia. }
  destruct (r =? commentStart).
  { unfold lexComment. apply answers_ignore; [|discriminate].
    apply (fwd_bound l1), lexComment_loop_fwd, Hl1. }
  destruct (r =? ch "034").
  { apply answers_pass; [|discriminate].
    apply (fwd_inBounds l); [exact Hb|apply adv_fwd, Ha]. }
  destruct (r =? ch "[").
  { apply answers_send; try discriminate. exact Hl1. }
  destruct (r =? ch "]").
  { destruct (arrayDepth (setDepth (arrayDepth l1 - 1) l1) <? 0); [apply final_errorf|].
    apply answers_send; try discriminate. exact Hl1. }
  destruct (r =? ch ",").
  { destruct (0 <? arrayDepth l1); [|apply final_errorf].
    apply answers_send; try discriminate. exact Hl1. }
  destruct ((r =? ch "+") || (r =? ch "-")).
  { apply answers_pass; [|discriminate].
    apply (fwd_inBounds l); [exact Hb|apply adv_backup, Ha]. }
  destruct ((ch "0" <=? r) && (r <=? ch "9")).
  { apply answers_pass; [|discriminate].
    apply (fwd_inBounds l); [exact Hb|apply adv_backup, Ha]. }
  destruct (is_ l1 "true") eqn:Ht.
  { apply answers_send; try discriminate.
    pose proof (is_bound l r l1 "t"%char "rue" Hn Hb2 ltac:(reflexivity) Ht) as Hle.
    simpl in Hle |- *. lia. }
  destruct (is_ l1 "false") eqn:Hf; [|apply final_errorf].
  apply answers_send; try discriminate.
  pose proof (is_bound l r l1 "f"%char "alse" Hn Hb2 ltac:(reflexivity) Hf) as Hle.
  simpl in Hle |- *. lia.
Qed.

Lemma lexString_answers l : inBounds l -> answers (lexString l).
Proof.
  intros [Hb1 Hb2]. unfold lexString.
  destruct (lexString_loop (length (input l)) l) as [[|] l1] eqn:Hloop;
    [|apply final_errorf].
  apply answers_send; try discriminate.
  apply (fwd_bound l), (lexString_loop_fwd _ l true l1 Hloop Hb2).
Qed.

Lemma lexNumberOrDatetime_answers l : inBounds l -> answers (lexNumberOrDatetime l).
Proof.
  intros Hb. unfold lexNumberOrDatetime.
  destruct (_ && _); (apply answers_pass; [exact Hb|discriminate]).
Qed.

Lemma lexNumber_answers l : inBounds l -> answers (lexNumber l).
Proof.
  intros [Hb1 Hb2]. unfold lexNumber.
  destruct (accept "+-" l) as [b1 l1] eqn:H1.
  pose proof (accept_fwd _ l b1 l1 H1 Hb2) as F1.
  pose proof (acceptRun_fwd digits l1 (fwd_bound l l1 F1)) as F2.
  set (l2 := acceptRun digits l1) in *.
  destruct (accept "." l2) as [dot l3] eqn:H3.
  pose proof (accept_fwd _ l2 dot l3 H3 (fwd_bound l1 l2 F2)) as F3.
  assert (F4 : (pos (if dot then acceptRun digits l3 else l3)
                <= length (input (if dot then acceptRun digits l3 else l3)))%nat).
  { destruct dot; [|apply (fwd_bound l2 l3 F3)].
    apply (fwd_bound l3), acceptRun_fwd, (fwd_bound l2 l3 F3). }
  set (l4 := if dot then acceptRun digits l3 else l3) in *.
  unfold peek. destruct (next l4) as [r l5] eqn:H5.
  pose proof (next_adv l4 r l5 H5 F4) as A5.
  destruct (isAlphaNumeric r || (r =? ch "-")).
  - destruct (next (backup l5)) as [r6 l6]. apply final_errorf.
  - apply answers_send; try discriminate.
    apply (fwd_bound l4), adv_backup, A5.
Qed.

Lemma lexDatetime_answers l : inBounds l -> answers (lexDatetime l).
Proof.
  intros [Hb1 Hb2]. unfold lexDatetime.
  destruct (lexDatetime_loop datetimeFormat l) as [[r|] l1] eqn:Hloop;
    [apply final_errorf|].
  apply answers_send; try discriminate.
  apply (fwd_bound l), (lexDatetime_loop_fwd _ l None l1 Hloop Hb2).
Qed.

Lemma call_answers st l : Inv st l -> answers (call st l).
Proof.
  intros HI. pose proof HI as [Hb _].
  destruct st; simpl;
    auto using lexStart_answers, lexKeyGroup_answers, lexKey_answers, lexKeySep_answers,
      lexValue_answers, lexString_answers, lexNumberOrDatetime_answers,
      lexNumber_answers, lexDatetime_answers.
Qed.

(** The tokens of a scan: tokens of the middle, then end-of-input or an
    error. *)
Lemma run_shape fuel : forall st l toks,
  run fuel st l = Some toks -> Inv st l ->
  exists pre last, toks = pre ++ [last] /\ Forall Tree.middle pre
    /\ (Tok.typ last = tokenEOF \/ Tok.typ last = tokenError).
Proof.
  induction fuel as [|fuel IH]; intros st l toks H HI; [discriminate|].
  simpl in H. pose proof (call_answers st l HI) as Ha.
  destruct (call st l) as [[out l1] [st1|]].
  - destruct Ha as [HI1 Hout].
    destruct (run fuel st1 l1) as [rest|] eqn:Hr; [|discriminate].
    inversion H; subst.
    destruct (IH st1 l1 rest Hr HI1) as (pre & last & -> & Hpre & Hlast).
    exists (out ++ pre), last. rewrite app_assoc. split; [reflexivity|].
    split; [apply Forall_app; auto|exact Hlast].
  - destruct Ha as (tok & -> & Htok). inversion H; subst.
    exists [], tok. split; [reflexivity|]. split; [constructor|exact Htok].
Qed.

Lemma lex_shape text toks :
  lex text = Some toks ->
  exists pre last, toks = pre ++ [last] /\ Forall Tree.middle pre
    /\ (Tok.typ last = tokenEOF \/ Tok.typ last = tokenError).
Proof.
  intros H. apply (run_shape _ _ _ _ H). split; [|discriminate].
  unfold inBounds, init. simpl. lia.
Qed.
End ScannerTokens.

Section ScannerTermination.
Import Lexer.

Lemma bytes_length s : length (bytes s) = String.length s.
Proof. induction s as [|c s IH]; simpl; [reflexivity|]. rewrite IH. reflexivity. Qed.

(** A rune below 128 is the byte that was read. *)
Lemma next_low l r l1 :
  next l = (r, l1) -> 0 <= r < 128 ->
  exists c t, unread l = c :: t /\ b2z c = r /\ l1 = moved 1 1 l.
Proof.
  intros Hn Hr. destruct (unread l) as [|c t] eqn:Hu.
  - rewrite (next_eof l Hu) in Hn. inversion Hn; subst. unfold eof in Hr. lia.
  - destruct (next_head l c t Hu) as (r' & w & Hn' & Hw & [(Hc & -> & ->)|(Hc & Hr')]);
      rewrite Hn' in Hn; inversion Hn; subst; [eauto|lia].
Qed.

Lemma progress_intro st st' l x out :
  ready st' x -> input x = input l -> (pos x <= length (input l))%nat ->
  ((pos l < pos x)%nat \/ ((pos l <= pos x)%nat /\ (rank st' < rank st)%nat)) ->
  progresses st l (out, x, Some st').
Proof.
  intros Hr Hi Hl Hp. split; [exact Hr|]. unfold potential. rewrite Hi.
  assert (rank st' <= 2)%nat by (destruct st'; simpl; lia).
  destruct Hp as [Hp|[Hp Hk]]; lia.
Qed.

Lemma progress_send st st' l x t :
  (forall y, ready st' y) -> input x = input l -> (pos x <= length (input l))%nat ->
  ((pos l < pos x)%nat \/ ((pos l <= pos x)%nat /\ (rank st' < rank st)%nat)) ->
  progresses st l (send t x (Some st')).
Proof.
  intros Hr Hi Hl Hp. unfold send, emit. apply progress_intro; simpl; auto.
Qed.

Lemma lexStart_progress l : inBounds l -> progresses lexStartFn l (lexStart l).
Proof.
  intros Hb. pose proof Hb as [Hb1 Hb2]. unfold lexStart.
  destruct (next l) as [r l1] eqn:Hn.
  pose proof (next_adv l r l1 Hn Hb2) as Ha.
  destruct (next_spec l r l1 Hn Hb2) as (Hi & Hs & _ & Hp & Hl & Hw & _).
  assert (Hl1 : (pos l1 <= length (input l1))%nat) by (rewrite Hi; exact Hl).
  destruct (Z.eqb_spec r eof) as [He|He]; [exact I|]. specialize (Hw He).
  destruct (isDash r); [apply progress_intro; settle|].
  destruct (isNewLine r).
  { unfold peek. destruct (next l1) as [r2 l2] eqn:Hn2.
    destruct (next_spec l1 r2 l2 Hn2 Hl1) as (Hi2 & _ & _ & Hp2 & Hl2 & _).
    destruct (isNewLine r2); [exact I|].
    apply progress_intro; settle. }
  destruct (isSpace r).
  { unfold ignoreSpaces.
    destruct (adv_backup l1 _ (ignoreSpaces_loop_adv (length (input l1)) l1 Hl1))
      as (Hi2 & _ & Hp2).
    apply progress_intro; settle. }
  destruct (r =? commentStart).
  { unfold lexComment.
    destruct (lexComment_loop_fwd (length (input l1)) l1 Hl1) as (Hi2 & _ & Hp2).
    apply progress_intro; settle. }
  destruct (r =? keyGroupStart); [apply progress_intro; settle|].
  destruct (isAlpha r); [|exact I].
  apply progress_intro; settle.
Qed.

Lemma lexKeyGroup_progress l : inBounds l -> progresses lexKeyGroupFn l (lexKeyGroup l).
Proof.
  intros [Hb1 Hb2]. unfold lexKeyGroup.
  destruct (lexKeyGroup_loop (length (input l)) l) as [[r|] l1] eqn:Hloop; [exact I|].
  destruct (lexKeyGroup_loop_fwd _ l None l1 Hloop Hb2) as [(Hi & Hs & Hp) Hlt].
  specialize (Hlt eq_refl).
  apply progress_send; settle.
Qed.

Lemma lexKey_progress l : inBounds l -> progresses lexKeyFn l (lexKey l).
Proof.
  intros [Hb1 Hb2]. unfold lexKey.
  destruct (lexKey_loop (length (input l)) l) as [[r|] l1] eqn:Hloop; [exact I|].
  destruct (lexKey_loop_fwd _ l None l1 Hloop Hb2) as (Hi & Hs & Hp).
  apply progress_send; settle.
Qed.

Lemma lexKeySep_progress l : inBounds l -> progresses lexKeySepFn l (lexKeySep l).
Proof.
  intros [Hb1 Hb2]. unfold lexKeySep.
  destruct (ignoreSpaces_bound l Hb2) as [Hf _].
  destruct (adv_backup l _ (ignoreSpaces_loop_adv (length (input l)) l Hb2))
    as (Hi0 & _ & Hp0).
  destruct (next (ignoreSpaces l)) as [r l1] eqn:Hn.
  destruct (next_spec _ r l1 Hn Hf) as (Hi & Hs & _ & Hp & Hl & Hw & _).
  destruct ((r =? keySep) || (r =? keySep2)) eqn:Hr; [|exact I].
  assert (He : r <> eof).
  { apply orb_true_iff in Hr. destruct Hr as [Hr|Hr]; apply Z.eqb_eq in Hr; subst;
      discriminate. }
  specialize (Hw He). unfold ignoreSpaces in *.
  apply progress_send; settle.
Qed.

Lemma lexValue_progress l : inBounds l -> progresses lexValueFn l (lexValue l).
Proof.
  intros Hb. pose proof Hb as [Hb1 Hb2]. unfold lexValue.
  destruct (next l) as [r l1] eqn:Hn.
  pose proof (next_adv l r l1 Hn Hb2) as Ha.
  destruct (next_spec l r l1 Hn Hb2) as (Hi & Hs & _ & Hp & Hl & Hw & _).
  assert (Hl1 : (pos l1 <= length (input l1))%nat) by (rewrite Hi; exact Hl).
  destruct (Z.eqb_spec r eof) as [He|He]; [exact I|]. specialize (Hw He).
  destruct (r =? ch "013"); [apply progress_intro; settle|].
  destruct (r =? ch "010").
  { destruct (arrayDepth (ignore l1) =? 0); apply progress_intro; settle. }
  destruct (isSpace r).
  { unfold ignoreSpaces.
    destruct (adv_backup l1 _ (ignoreSpaces_loop_adv (length (input l1)) l1 Hl1))
      as (Hi2 & _ & Hp2).
    apply progress_intro; settle. }
  destruct (r =? commentStart).
  { unfold lexComment.
    destruct (lexComment_loop_fwd (length (input l1)) l1 Hl1) as (Hi2 & _ & Hp2).
    apply progress_intro; settle. }
  destruct (r =? ch "034"); [apply progress_intro; settle|].
  destruct (r =? ch "["); [apply progress_send; settle|].
  destruct (r =? ch "]").
  { destruct (arrayDepth (setDepth (arrayDepth l1 - 1) l1) <? 0); [exact I|].
    apply progress_send; settle. }
  destruct (r =? ch ",").
  { destruct (0 <? arrayDepth l1); [|exact I]. apply progress_send; settle. }
  destruct ((r =? ch "+") || (r =? ch "-")) eqn:Hsign.
  { assert (Hlow : 0 <= r < 128).
    { apply orb_true_iff in Hsign.
      destruct Hsign as [E|E]; apply Z.eqb_eq in E; subst;
        (split; [apply Z.leb_le|apply Z.ltb_lt]; reflexivity). }
    destruct (next_low l r l1 Hn Hlow) as (c & t & Hu & Hc & ->).
    rewrite backup_moved by lia.
    apply progress_intro; try settle.
    exists c, t. rewrite unread_moved. split; [exact Hu|].
    apply orb_true_iff in Hsign. destruct Hsign as [E|E]; apply Z.eqb_eq in E; subst; auto. }
  destruct ((ch "0" <=? r) && (r <=? ch "9")) eqn:Hdig.
  { assert (Hlow : 0 <= r < 128).
    { apply andb_true_iff in Hdig. destruct Hdig as [E1 E2].
      apply Z.leb_le in E1, E2. change (ch "0") with 48 in E1. change (ch "9") with 57 in E2.
      lia. }
    destruct (next_low l r l1 Hn Hlow) as (c & t & Hu & Hc & ->).
    rewrite backup_moved by lia.
    apply progress_intro; try settle.
    exists c, t. rewrite unread_moved. split; [exact Hu|].
    unfold isDigit. rewrite Hc. exact Hdig. }
  destruct (is_ l1 "true") eqn:Ht.
  { pose proof (is_bound l r l1 "t"%char "rue" Hn Hb2 ltac:(reflexivity) Ht) as Hle.
    simpl in Hle. rewrite Hi in Hle. apply progress_send; settle. }
  destruct (is_ l1 "false") eqn:Hf; [|exact I].
  pose proof (is_bound l r l1 "f"%char "alse" Hn Hb2 ltac:(reflexivity) Hf) as Hle.
  simpl in Hle. rewrite Hi in Hle. apply progress_send; settle.
Qed.

(** A string that is closed has its closing quote read. *)
Lemma lexString_loop_closed fuel : forall l l',
  lexString_loop fuel l = (true, l') -> (pos l <= length (input l))%nat ->
  (pos l < pos l')%nat.
Proof.
  induction fuel as [|fuel IH]; intros l l' H Hb; simpl in H;
    destruct (next l) as [r l1] eqn:Hn;
    destruct (next_spec l r l1 Hn Hb) as (Hi & _ & _ & Hp & Hl & Hw & _);
    assert (Hl1 : (pos l1 <= length (input l1))%nat) by (rewrite Hi; exact Hl);
    destruct (r =? ch "\").
  - destruct (next l1) as [r2 l2]. destruct (r2 =? eof); discriminate.
  - destruct ((r =? eof) || (r =? ch "010")); [discriminate|].
    destruct (Z.eqb_spec r (ch "034")) as [E|E]; [|discriminate].
    inversion H; subst. assert (ch "034" <> eof) by discriminate. specialize (Hw H0). lia.
  - destruct (next l1) as [r2 l2] eqn:Hn2.
    destruct (next_spec l1 r2 l2 Hn2 Hl1) as (Hi2 & _ & _ & Hp2 & Hl2 & _).
    destruct (r2 =? eof); [discriminate|].
    specialize (IH l2 l' H ltac:(rewrite Hi2; exact Hl2)). lia.
  - destruct ((r =? eof) || (r =? ch "010")); [discriminate|].
    destruct (Z.eqb_spec r (ch "034")) as [E|E].
    + inversion H; subst. assert (ch "034" <> eof) by discriminate. specialize (Hw H0). lia.
    + specialize (IH l1 l' H Hl1). lia.
Qed.

Lemma lexString_progress l : inBounds l -> progresses lexStringFn l (lexString l).
Proof.
  intros [Hb1 Hb2]. unfold lexString.
  destruct (lexString_loop (length (input l)) l) as [[|] l1] eqn:Hloop; [|exact I].
  destruct (lexString_loop_fwd _ l true l1 Hloop Hb2) as (Hi & _ & Hp).
  pose proof (lexString_loop_closed _ l l1 Hloop Hb2) as Hlt.
  apply progress_send; settle.
Qed.

Lemma lexNumberOrDatetime_progress l :
  inBounds l -> ready lexNumberOrDatetimeFn l ->
  progresses lexNumberOrDatetimeFn l (lexNumberOrDatetime l).
Proof.
  intros [Hb1 Hb2] (c & t & Hu & Hc). unfold lexNumberOrDatetime.
  destruct (_ && _).
  - apply progress_intro; settle.
  - apply progress_intro; try settle. exists c, t. auto.
Qed.

(** A run of runes of the set that starts with one is not empty. *)
Lemma acceptRun_first valid l c t :
  unread l = c :: t -> b2z c < 128 ->
  strings.ContainsRune (bytes valid) (b2z c) = true ->
  (pos l <= length (input l))%nat ->
  (pos l < pos (acceptRun valid l))%nat.
Proof.
  intros Hu Hc Hv Hb. unfold acceptRun.
  pose proof (unread_length l) as Hlen. rewrite Hu in Hlen. simpl in Hlen.
  destruct (length (input l)) as [|fuel] eqn:Hfuel; [lia|].
  simpl. rewrite (next_ascii l c t Hu Hc), Hv.
  assert (Hb1 : (pos (moved 1 1 l) <= length (input (moved 1 1 l)))%nat) by (simpl; lia).
  destruct (acceptRun_loop_adv valid fuel (moved 1 1 l) Hb1) as (_ & _ & Hp & _).
  unfold backup. simpl in *. lia.
Qed.

Lemma lexNumber_progress l :
  inBounds l -> ready lexNumberFn l -> progresses lexNumberFn l (lexNumber l).
Proof.
  intros [Hb1 Hb2] (c & t & Hu & Hc). unfold lexNumber.
  destruct (accept "+-" l) as [b1 l1] eqn:H1.
  pose proof (accept_fwd _ l b1 l1 H1 Hb2) as F1.
  pose proof (acceptRun_fwd digits l1 (fwd_bound l l1 F1)) as F2.
  assert (Hgo : (pos l < pos (acceptRun digits l1))%nat).
  { destruct F2 as (_ & _ & Hp2).
    destruct Hc as [Hc|[Hc|Hc]].
    - rewrite (accept_yes "+-" l c t Hu) in H1
        by (rewrite Hc; vm_compute; reflexivity).
      inversion H1; subst. simpl in *. lia.
    - rewrite (accept_yes "+-" l c t Hu) in H1
        by (rewrite Hc; vm_compute; reflexivity).
      inversion H1; subst. simpl in *. lia.
    - pose proof (isDigit_ascii c Hc) as Ha.
      assert (Hno : strings.ContainsRune (bytes "+-") (b2z c) = false).
      { unfold isDigit in Hc. apply andb_true_iff in Hc. destruct Hc as [E1 E2].
        apply Z.leb_le in E1, E2. change (ch "0") with 48 in E1.
        change (ch "9") with 57 in E2.
        unfold strings.ContainsRune. cbn [existsb bytes list_ascii_of_string].
        change (b2z "+") with 43. change (b2z "-") with 45.
        destruct (Z.eqb_spec 43 (b2z c)); [lia|]. destruct (Z.eqb_spec 45 (b2z c)); [lia|].
        rewrite !andb_false_r. reflexivity. }
      rewrite (accept_no "+-" l c t Hu Ha Hno) in H1. inversion H1; subst.
      pose proof (acceptRun_first digits (moved 0 1 l) c t) as Hr.
      rewrite unread_moved in Hr. specialize (Hr Hu Ha).
      rewrite ContainsRune_digits in Hr. specialize (Hr Hc).
      assert (Hm : pos (moved 0 1 l) = pos l) by (unfold moved; simpl; lia).
      change (input (moved 0 1 l)) with (input l) in Hr. rewrite Hm in Hr.
      exact (Hr Hb2). }
  set (l2 := acceptRun digits l1) in *.
  destruct (accept "." l2) as [dot l3] eqn:H3.
  pose proof (accept_fwd _ l2 dot l3 H3 (fwd_bound l1 l2 F2)) as F3.
  assert (F4 : fwd l3 (if dot then acceptRun digits l3 else l3)).
  { destruct dot; [apply acceptRun_fwd, (fwd_bound l2 l3 F3)|].
    unfold fwd. pose proof (fwd_bound l2 l3 F3). repeat split; auto; lia. }
  set (l4 := if dot then acceptRun digits l3 else l3) in *.
  pose proof (fwd_trans _ _ _ (fwd_trans _ _ _ (fwd_trans _ _ _ F1 F2) F3) F4) as F.
  unfold peek. destruct (next l4) as [r l5] eqn:H5.
  destruct (next_spec l4 r l5 H5 (fwd_bound l l4 F)) as (Hi5 & _ & _ & Hp5 & Hl5 & _).
  destruct (isAlphaNumeric r || (r =? ch "-")).
  - destruct (next (backup l5)) as [r6 l6]. exact I.
  - destruct F as (Hi & _ & Hp). destruct F3 as (_ & _ & Hp3). destruct F4 as (_ & _ & Hp4).
    apply progress_send; settle.
Qed.

(** A datetime that fits the layout has all its runes read. *)
Lemma lexDatetime_loop_read format : forall l l',
  lexDatetime_loop format l = (None, l') -> (pos l <= length (input l))%nat ->
  Forall (fun f => f <> eof) format ->
  (pos l + length format <= pos l')%nat.
Proof.
  induction format as [|f format IH]; intros l l' H Hb Hf; simpl in H.
  - inversion H; subst. simpl. lia.
  - destruct (next l) as [r l1] eqn:Hn.
    destruct (next_spec l r l1 Hn Hb) as (Hi & _ & _ & Hp & Hl & Hw & _).
    inversion Hf as [|? ? Hf1 Hf2]; subst.
    destruct (((f =? ch "0") && isDigit r) || (f =? r)) eqn:Hm; [|discriminate].
    assert (He : r <> eof).
    { apply orb_true_iff in Hm. destruct Hm as [Hm|Hm].
      - apply andb_true_iff in Hm. destruct Hm as [_ Hd]. unfold isDigit in Hd.
        apply andb_true_iff in Hd. destruct Hd as [E1 _]. apply Z.leb_le in E1.
        change (ch "0") with 48 in E1. unfold eof. lia.
      - apply Z.eqb_eq in Hm. subst. exact Hf1. }
    specialize (Hw He).
    specialize (IH l1 l' H ltac:(rewrite Hi; exact Hl) Hf2). simpl. lia.
Qed.

Lemma lexDatetime_progress l : inBounds l -> progresses lexDatetimeFn l (lexDatetime l).
Proof.
  intros [Hb1 Hb2]. unfold lexDatetime.
  destruct (lexDatetime_loop datetimeFormat l) as [[r|] l1] eqn:Hloop; [exact I|].
  destruct (lexDatetime_loop_fwd _ l None l1 Hloop Hb2) as (Hi & _ & Hp).
  pose proof (lexDatetime_loop_read _ l l1 Hloop Hb2) as Hlt.
  assert (Hf : Forall (fun f => f <> eof) datetimeFormat)
    by (repeat constructor; discriminate).
  specialize (Hlt Hf). change (length datetimeFormat) with 20%nat in Hlt.
  apply progress_send; settle.
Qed.

Lemma call_progress st l : Inv st l -> ready st l -> progresses st l (call st l).
Proof.
  intros [Hb _] Hr.
  destruct st; simpl;
    auto using lexStart_progress, lexKeyGroup_progress, lexKey_progress,
      lexKeySep_progress, lexValue_progress, lexString_progress,
      lexNumberOrDatetime_progress, lexNumber_progress, lexDatetime_progress.
Qed.

(** The state loop ends: a scan with more fuel than its potential sends
    its tokens. *)
Lemma run_total fuel : forall st l,
  Inv st l -> ready st l -> (potential st l < fuel)%nat ->
  exists toks, run fuel st l = Some toks.
Proof.
  induction fuel as [|fuel IH]; intros st l HI Hr Hlt; [lia|].
  simpl. pose proof (call_answers st l HI) as Ha.
  pose proof (call_progress st l HI Hr) as Hp.
  destruct (call st l) as [[out l1] [st1|]]; [|eauto].
  destruct Ha as [HI1 _]. destruct Hp as [Hr1 Hlt1].
  destruct (IH st1 l1 HI1 Hr1) as [rest Hrest]; [lia|].
  rewrite Hrest. simpl. eauto.
Qed.

(** The scanner sends the tokens of every text. *)
Lemma lex_total text : exists toks, lex text = Some toks.
Proof.
  unfold lex. apply run_total.
  - split; [|discriminate]. unfold inBounds, init. simpl. lia.
  - exact I.
  - unfold potential, steps, init. simpl. rewrite bytes_length. lia.
Qed.

(** The tokens of a scan start with the tokens of its first calls. *)
Lemma run_after n : forall fuel st l pre l' st' toks,
  after n st l = (pre, l', Some st') -> run fuel st l = Some toks ->
  exists rest, toks = pre ++ rest /\ run (fuel - n) st' l' = Some rest.
Proof.
  induction n as [|n IH]; intros fuel st l pre l' st' toks Ha Hr.
  - simpl in Ha. inversion Ha; subst. exists toks. rewrite Nat.sub_0_r. auto.
  - destruct fuel as [|fuel]; [discriminate|]. simpl in Ha, Hr.
    destruct (call st l) as [[out l1] [st1|]]; [|discriminate].
    destruct (after n st1 l1) as [[out' l2] nxt'] eqn:Hn. inversion Ha; subst.
    destruct (run fuel st1 l1) as [r1|] eqn:Hr1; [|discriminate]. inversion Hr; subst.
    destruct (IH fuel st1 l1 out' l' st' r1 Hn Hr1) as (rest & -> & Hrest).
    exists rest. rewrite app_assoc. auto.
Qed.

(** A scan that comes to a state call which sends one token and ends
    has sent the tokens before it and that token. *)
Lemma lex_after text n pre st l tok l' :
  after n lexStartFn (init text) = (pre, l, Some st) ->
  call st l = ([tok], l', None) ->
  lex text = Some (pre ++ [tok]).
Proof.
  intros Ha Hc. destruct (lex_total text) as [toks Hl]. rewrite Hl. unfold lex in Hl.
  destruct (run_after n _ _ _ pre l st toks Ha Hl) as (rest & -> & Hrest).
  destruct (steps text - n)%nat as [|k]; [discriminate|].
  simpl in Hrest. rewrite Hc in Hrest. inversion Hrest; subst. reflexivity.
Qed.
End ScannerTermination.

Section ScanAndParse.
Import Lexer.


(** An error token among the tokens of a scan makes Parse fail. *)
Lemma Parse_error_token text toks :
  lex text = Some toks ->
  (exists tok, tok ∈ toks /\ Tok.typ tok = tokenError) ->
  (exists err, Tree.Parse text = Err err) /\ Tree.Document (Tree.Parse text) = None.
Proof.
  intros Hlex (tok & Hin & Htok).
  destruct (lex_shape text toks Hlex) as (pre & last & -> & Hpre & Hlast).
  assert (Herr : Tok.typ last = tokenError).
  { apply elem_of_app in Hin. destruct Hin as [Hin|Hin].
    - rewrite Forall_forall in Hpre. destruct (Hpre tok) as (_ & Hne & _); auto.
      + apply list_elem_of_In. exact Hin.
      + contradiction.
    - apply list_elem_of_singleton in Hin. subst. exact Htok. }
  destruct (Parse_failing text _ pre last Hlex eq_refl Hpre Herr) as [err Hp].
  split; [exists err; exact Hp|rewrite Hp; reflexivity].
Qed.

(** A scan that comes to a state call which sends an error token: the
    tokens of the text are those sent before and the error token, and
    Parse fails. *)
Lemma Parse_after text n pre st l tok l' :
  after n lexStartFn (init text) = (pre, l, Some st) ->
  call st l = ([tok], l', None) -> Tok.typ tok = tokenError ->
  lex text = Some (pre ++ [tok])
  /\ (exists err, Tree.Parse text = Err err) /\ Tree.Document (Tree.Parse text) = None.
Proof.
  intros Ha Hc Ht. pose proof (lex_after text n pre st l tok l' Ha Hc) as Hlex.
  split; [exact Hlex|]. apply (Parse_error_token text _ Hlex).
  exists tok. split; [|exact Ht]. apply elem_of_app. right. apply list_elem_of_singleton.
  reflexivity.
Qed.

Lemma after_S n st l :
  after (S n) st l
  = let '(out, l1, nxt) := call st l in
    match nxt with
    | None => (out, l1, None)
    | Some st1 => let '(out', l2, nxt') := after n st1 l1 in (out ++ out', l2, nxt')
    end.
Proof. reflexivity. Qed.

(** One more call after the first [n]. *)
Lemma after_step n : forall st l pre l' st' out l'' nxt,
  after n st l = (pre, l', Some st') -> call st' l' = (out, l'', nxt) ->
  after (S n) st l = (pre ++ out, l'', nxt).
Proof.
  induction n as [|n IH]; intros st l pre l' st' out l'' nxt Ha Hc.
  - simpl in Ha. inversion Ha; subst. simpl. rewrite Hc.
    destruct nxt; [rewrite app_nil_r|]; reflexivity.
  - rewrite after_S in Ha. rewrite after_S.
    destruct (call st l) as [[o l1] [st1|]]; [|discriminate].
    destruct (after n st1 l1) as [[o' l2] nx] eqn:E. inversion Ha; subst.
    rewrite (IH st1 l1 o' l' st' out l'' nxt E Hc). rewrite app_assoc. reflexivity.
Qed.

Lemma HasPrefix_app w rest : strings.HasPrefix (w ++ rest) w = true.
Proof.
  induction w as [|c w IH]; simpl; [destruct rest; reflexivity|].
  rewrite IH. rewrite (proj2 (Ascii.eqb_eq c c) eq_refl). reflexivity.
Qed.

(** The value state in front of a boolean: the token is sent and the
    next state is the start state, whatever the depth of arrays. *)
Lemma lexValue_bool l word rest :
  word = "true" \/ word = "false" ->
  unread l = bytes word ++ rest ->
  lexValue l
  = send tokenBool (advance (String.length word - 1) (moved 1 1 l)) (Some lexStartFn).
Proof.
  intros Hw Hu. unfold lexValue.
  assert (Hpre : forall w, is_ (moved 1 1 l) w = strings.HasPrefix (unread l) (bytes w)).
  { intros w. unfold is_, unread. simpl.
    replace (pos l + 1 - 1)%nat with (pos l) by lia. reflexivity. }
  destruct Hw as [->| ->].
  - rewrite (next_ascii l "t"%char (bytes "rue" ++ rest) Hu) by (vm_compute; reflexivity).
    change (b2z "t" =? eof) with false. change (b2z "t" =? ch "013") with false.
    change (b2z "t" =? ch "010") with false. change (isSpace (b2z "t")) with false.
    change (b2z "t" =? commentStart) with false. change (b2z "t" =? ch "034") with false.
    change (b2z "t" =? ch "[") with false. change (b2z "t" =? ch "]") with false.
    change (b2z "t" =? ch ",") with false.
    change ((b2z "t" =? ch "+") || (b2z "t" =? ch "-")) with false.
    change ((ch "0" <=? b2z "t") && (b2z "t" <=? ch "9")) with false.
    cbv iota. rewrite Hpre, Hu, HasPrefix_app. reflexivity.
  - rewrite (next_ascii l "f"%char (bytes "alse" ++ rest) Hu) by (vm_compute; reflexivity).
    change (b2z "f" =? eof) with false. change (b2z "f" =? ch "013") with false.
    change (b2z "f" =? ch "010") with false. change (isSpace (b2z "f")) with false.
    change (b2z "f" =? commentStart) with false. change (b2z "f" =? ch "034") with false.
    change (b2z "f" =? ch "[") with false. change (b2z "f" =? ch "]") with false.
    change (b2z "f" =? ch ",") with false.
    change ((b2z "f" =? ch "+") || (b2z "f" =? ch "-")) with false.
    change ((ch "0" <=? b2z "f") && (b2z "f" <=? ch "9")) with false.
    cbv iota. rewrite !Hpre, Hu, HasPrefix_app.
    change (strings.HasPrefix (bytes "false" ++ rest) (bytes "true")) with false.
    reflexivity.
Qed.

(** The start state in front of an array separator or a closing
    bracket. *)
Lemma lexStart_in_array l c rest :
  unread l = c :: rest -> c = ","%char \/ c = "]"%char ->
  lexStart l = errorf (moved 1 1 l) "lexStart parse error %#U" [ArgRune (b2z c)].
Proof.
  intros Hu [->| ->]; unfold lexStart;
    rewrite (next_ascii l _ _ Hu) by (vm_compute; reflexivity); reflexivity.
Qed.
End ScanAndParse.




(** ** The scan of whole texts *)

(** C1, as the specification has it, fails: with a blank line between
    the entries a and b the document has one entry, without it two, and
    the field B of the target is set only without it; the same happens
    after a section header, and when a comment line is put in front of
    a newline that was passed over without it. *)
Lemma C1_blank_line_ends_the_document :
  let target := Examples.ptr (reflect.TStruct
                  [reflect.mkField "A" "" true reflect.TBool;
                   reflect.mkField "B" "" true (reflect.TInt 64)]) in
  let plain := "a = true" +:+ nl +:+ "b = 2" +:+ nl in
  let blank := "a = true" +:+ nl +:+ nl +:+ "b = 2" +:+ nl in
  (length <$> Tree.Document (Tree.Parse plain)) = Some 2%nat
  /\ (length <$> Tree.Document (Tree.Parse blank)) = Some 1%nat
  /\ Decode.target (Decode.Unmarshal plain target)
     = Some (reflect.VStruct [reflect.VBool true; reflect.VInt 2])
  /\ Decode.target (Decode.Unmarshal blank target)
     = Some (reflect.VStruct [reflect.VBool true; reflect.VInt 0])
  /\ Decode.target (Decode.Unmarshal ("[User]" +:+ nl +:+ "Name = " +:+ dq +:+ "g" +:+ dq)
                      (Examples.ptr Examples.Rc))
     = Some (reflect.VStruct [reflect.VInt 0; reflect.VStruct [reflect.VString "g"]])
  /\ Decode.target (Decode.Unmarshal
                      ("[User]" +:+ nl +:+ nl +:+ "Name = " +:+ dq +:+ "g" +:+ dq)
                      (Examples.ptr Examples.Rc))
     = Some (reflect.VStruct [reflect.VInt 0; reflect.VStruct [reflect.VString ""]])
  /\ (length <$> Tree.Document (Tree.Parse ("a = 1" +:+ nl +:+ nl +:+ "b = 2" +:+ nl)))
     = Some 2%nat
  /\ (length <$> Tree.Document
        (Tree.Parse ("a = 1" +:+ nl +:+ "# c" +:+ nl +:+ nl +:+ "b = 2" +:+ nl)))
     = Some 1%nat.
Proof. vm_compute. repeat split; reflexivity. Qed.

(** C6: a boolean in an array.  When the scan of a text comes to the
    value state in front of a boolean that an array separator or a
    closing bracket follows, the boolean token is sent, the next state
    is the start state, where the separator or the bracket is an error:
    the scan ends with an error token and Parse returns an error and no
    document.  At the entry [a = [true, false]] and at the array of one
    boolean Parse fails so, while the same arrays of numbers and a
    boolean outside an array are parsed. *)
Theorem C6_array_of_booleans_is_not_scanned :
  (forall text n pre l word c rest,
     Lexer.after n Lexer.lexStartFn (Lexer.init text) = (pre, l, Some Lexer.lexValueFn) ->
     word = "true" \/ word = "false" -> c = ","%char \/ c = "]"%char ->
     Lexer.unread l = bytes word ++ c :: rest ->
     (exists b, Tok.typ b = tokenBool
        /\ Lexer.lex text
           = Some (pre ++ [b; Tok.mk tokenError (Lexer.pos l + String.length word)
                                "lexStart parse error %#U" [ArgRune (b2z c)]]))
     /\ (exists err, Tree.Parse text = Err err)
     /\ Tree.Document (Tree.Parse text) = None)
  /\ Lexer.lex "a = [true, false]"
     = Some [Tok.mk tokenKey 0 "a" []; Tok.mk tokenKeySep 2 "=" [];
             Tok.mk tokenArrayStart 4 "[" []; Tok.mk tokenBool 5 "true" [];
             Tok.mk tokenError 9 "lexStart parse error %#U" [ArgRune (ch ",")]]
  /\ Tree.Parse "a = [true, false]"
     = Err (Tree.mkError 1 "unexpected %s in %s"
              [ArgToken tokenError "lexStart parse error %#U" [ArgRune (ch ",")];
               ArgString "array"])
  /\ Tree.Parse "a = [true]"
     = Err (Tree.mkError 1 "unexpected %s in %s"
              [ArgToken tokenError "lexStart parse error %#U" [ArgRune (ch "]")];
               ArgString "array"])
  /\ Tree.Document (Tree.Parse "a = [1, 0]")
     = Some [EntryNode 0 (newKey 0 "a")
               (ArrayNode 5 [Number (mkNumber 5 true false 1 0%Q "1");
                             Number (mkNumber 8 true false 0 0%Q "0")])]
  /\ Tree.Document (Tree.Parse "a = true")
     = Some [EntryNode 0 (newKey 0 "a") (Bool_ (newBool 4 true))].
Proof.
  split; [|vm_compute; repeat split; reflexivity].
  intros text n pre l word c rest Ha Hw Hc Hu.
  pose proof (lexValue_bool l word (c :: rest) Hw Hu) as Hv. unfold Lexer.send, Lexer.emit in Hv.
  pose proof (after_step n _ _ _ _ _ _ _ _ Ha Hv) as Ha1.
  set (l1 := Lexer.advance (String.length word - 1) (Lexer.moved 1 1 l)) in *.
  set (l2 := Lexer.mk (Lexer.input l1) (Lexer.pos l1) (Lexer.pos l1) (Lexer.width l1)
               (Lexer.arrayDepth l1)) in *.
  assert (Hlen : (Lexer.pos l2 = Lexer.pos l + String.length word)%nat).
  { destruct Hw as [->| ->]; simpl; lia. }
  assert (Hu2 : Lexer.unread l2 = c :: rest).
  { unfold Lexer.unread. rewrite Hlen. change (Lexer.input l2) with (Lexer.input l).
    rewrite <- drop_drop. fold (Lexer.unread l). rewrite Hu.
    rewrite <- bytes_length. rewrite drop_app_length. reflexivity. }
  pose proof (lexStart_in_array l2 c rest Hu2 Hc) as He.
  destruct (Parse_after text (S n) _ Lexer.lexStartFn l2 _ _ Ha1 He eq_refl) as (Hlex & Hp).
  split; [|exact Hp]. eexists. split; [|rewrite Hlex, <- app_assoc; simpl; rewrite <- Hlen; reflexivity].
  reflexivity.
Qed.

Lemma C6_array_of_booleans_is_not_scanned_witness :
  (exists err, Tree.Parse "a = [true, false]" = Err err)
  /\ Tree.Document (Tree.Parse "a = [true, false]") = None.
Proof.
  refine (proj2 (proj1 C6_array_of_booleans_is_not_scanned "a = [true, false]" 5%nat
            [Tok.mk tokenKey 0 "a" []; Tok.mk tokenKeySep 2 "=" [];
             Tok.mk tokenArrayStart 4 "[" []]
            (Lexer.mk (bytes "a = [true, false]") 5 5 1 1) "true" ","%char
            (bytes " false]") _ (or_introl eq_refl) (or_introl eq_refl) eq_refl)).
  vm_compute. reflexivity.
Defined.

(** ** The text of the tokens *)

Section Consumed.
Import Lexer.

Lemma bytes_str s : bytes (str s) = s.
Proof. apply list_ascii_of_string_of_list_ascii. Qed.

Lemma str_bytes s : str (bytes s) = s.
Proof. apply string_of_list_ascii_of_string. Qed.

Lemma slice_length input a b :
  (a <= b <= length input)%nat -> String.length (slice input a b) = (b - a)%nat.
Proof.
  intros H. unfold slice. rewrite str_length, length_take, length_drop. lia.
Qed.

Lemma slice_unread l s u :
  unread l = s ++ u -> slice (input l) (pos l) (pos l + length s) = str s.
Proof.
  intros H. unfold slice. fold (unread l). rewrite H.
  replace (pos l + length s - pos l)%nat with (length s) by lia.
  rewrite take_app_length. reflexivity.
Qed.

Lemma slice_cons input n c s u :
  input !! n = Some c -> drop (S n) input = s ++ u ->
  slice input n (S n + length s) = str (c :: s).
Proof.
  intros Hc Hd. unfold slice. rewrite (drop_S _ _ _ Hc), Hd.
  replace (S n + length s - n)%nat with (S (length s)) by lia.
  simpl. rewrite take_app_length. reflexivity.
Qed.

(** The bytes of the rune that next reads. *)
Lemma next_bytes l r l1 :
  next l = (r, l1) -> r <> eof ->
  exists bs, unread l = bs ++ unread l1 /\ pos l1 = (pos l + length bs)%nat
    /\ input l1 = input l /\ start l1 = start l /\ arrayDepth l1 = arrayDepth l
    /\ ((exists c, bs = [c] /\ b2z c = r /\ r < 128)
        \/ (128 <= r /\ bs <> [] /\ Forall (fun b => 128 <= b2z b) bs)).
Proof.
  intros Hn He. destruct (unread l) as [|c t] eqn:Hu.
  { rewrite (next_eof l Hu) in Hn. inversion Hn; subst. contradiction. }
  destruct (utf8.DecodeRuneInString (c :: t)) as [r' w] eqn:Hd.
  rewrite (next_cons l c t r' w Hu Hd) in Hn. inversion Hn; subst r' l1. clear Hn.
  destruct (decode_spec c t r w Hd) as (Hw & Hlow & Hhigh).
  exists (take w (c :: t)). rewrite unread_moved, Hu, take_drop.
  split; [reflexivity|]. split; [simpl; rewrite length_take; simpl in *; lia|].
  split; [reflexivity|]. split; [reflexivity|]. split; [reflexivity|].
  destruct (Z_lt_ge_dec (b2z c) 128) as [Hc|Hc].
  - destruct (Hlow Hc) as [-> ->]. left. exists c. auto.
  - destruct (Hhigh ltac:(lia)) as [Hr Hall]. right. split; [exact Hr|].
    split; [|exact Hall]. destruct w; [lia|]. discriminate.
Qed.

Lemma low_ascii c : (b2z c <? 128) = true -> 0 <= b2z c < 128.
Proof. intros H. apply Z.ltb_lt in H. pose proof (b2z_range c). lia. Qed.

Lemma isAlphaNumeric_low r : isAlphaNumeric r = true -> 0 <= r < 128.
Proof.
  unfold isAlphaNumeric, isAlpha, isDigit.
  change (ch "_") with 95. change (ch "a") with 97. change (ch "z") with 122.
  change (ch "A") with 65. change (ch "Z") with 90.
  change (ch "0") with 48. change (ch "9") with 57.
  rewrite !orb_true_iff, !andb_true_iff, Z.eqb_eq, !Z.leb_le. lia.
Qed.

Lemma isSpace_low r : isSpace r = true -> 0 <= r < 128.
Proof.
  unfold isSpace. change (ch " ") with 32. change (ch "009") with 9.
  rewrite orb_true_iff, !Z.eqb_eq. lia.
Qed.

Lemma ContainsRune_low valid r : strings.ContainsRune valid r = true -> 0 <= r < 128.
Proof.
  unfold strings.ContainsRune. rewrite !andb_true_iff, Z.leb_le, Z.ltb_lt.
  change utf8.RuneSelf with 128. lia.
Qed.

(** peek leaves the scanner where it was. *)
Lemma peek_same l r l1 :
  peek l = (r, l1) -> (pos l <= length (input l))%nat ->
  pos l1 = pos l /\ input l1 = input l /\ start l1 = start l
  /\ arrayDepth l1 = arrayDepth l.
Proof.
  unfold peek. intros H Hb. destruct (next l) as [r' l2] eqn:Hn. inversion H; subst.
  destruct (next_spec l r l2 Hn Hb) as (Hi & Hs & Hd & Hp & _).
  unfold backup. simpl. repeat split; auto; lia.
Qed.

Lemma unread_same l l1 : pos l1 = pos l -> input l1 = input l -> unread l1 = unread l.
Proof. intros Hp Hi. unfold unread. rewrite Hp, Hi. reflexivity. Qed.

(** What accept reads: nothing, or one byte of the set. *)
Lemma accept_text valid l b l1 :
  accept valid l = (b, l1) -> (pos l <= length (input l))%nat ->
  exists s, unread l = s ++ unread l1 /\ pos l1 = (pos l + length s)%nat
    /\ input l1 = input l /\ start l1 = start l
    /\ (if b then exists c, s = [c] /\ strings.ContainsRune (bytes valid) (b2z c) = true
        else s = []).
Proof.
  unfold accept. intros H Hb. destruct (next l) as [r l2] eqn:Hn.
  destruct (strings.ContainsRune (bytes valid) r) eqn:Hv; inversion H; subst.
  - destruct (next_low l r l1 Hn (ContainsRune_low _ _ Hv)) as (c & t & Hu & Hc & ->).
    exists [c]. rewrite unread_moved, Hu. simpl. repeat split; auto.
    exists c. rewrite Hc. auto.
  - destruct (next_spec l r l2 Hn Hb) as (Hi & Hs & _ & Hp & _).
    exists []. simpl.
    assert (Hpos : pos (backup l2) = pos l) by (unfold backup; simpl; lia).
    rewrite (unread_same l (backup l2) Hpos Hi). repeat split; auto; lia.
Qed.

(** What acceptRun reads: bytes of the set. *)
Lemma acceptRun_loop_text valid fuel : forall l,
  (pos l <= length (input l))%nat ->
  exists s, unread l = s ++ unread (backup (acceptRun_loop fuel valid l))
    /\ pos (backup (acceptRun_loop fuel valid l)) = (pos l + length s)%nat
    /\ input (backup (acceptRun_loop fuel valid l)) = input l
    /\ start (backup (acceptRun_loop fuel valid l)) = start l
    /\ Forall (fun c => strings.ContainsRune (bytes valid) (b2z c) = true) s.
Proof.
  induction fuel as [|fuel IH]; intros l Hb; simpl;
    destruct (next l) as [r l1] eqn:Hn;
    destruct (strings.ContainsRune (bytes valid) r) eqn:Hv.
  - destruct (next_low l r l1 Hn (ContainsRune_low _ _ Hv)) as (c & t & Hu & Hc & ->).
    exists []. rewrite backup_moved by lia. rewrite unread_moved. simpl.
    repeat split; auto; lia.
  - destruct (next_spec l r l1 Hn Hb) as (Hi & Hs & _ & Hp & _).
    exists []. simpl.
    assert (Hpos : pos (backup l1) = pos l) by (unfold backup; simpl; lia).
    rewrite (unread_same l (backup l1) Hpos Hi). repeat split; auto; lia.
  - destruct (next_low l r l1 Hn (ContainsRune_low _ _ Hv)) as (c & t & Hu & Hc & ->).
    destruct (IH (moved 1 1 l)) as (s & Hs & Hp & Hi & Hst & Hall).
    { pose proof (unread_length l) as Hl. rewrite Hu in Hl. simpl in *. lia. }
    exists (c :: s). rewrite unread_moved, Hu in Hs. simpl in Hs, Hp, Hi, Hst.
    simpl. rewrite <- Hs. split; [exact Hu|].
    split; [lia|]. split; [exact Hi|]. split; [exact Hst|].
    constructor; [rewrite Hc; exact Hv|exact Hall].
  - destruct (next_spec l r l1 Hn Hb) as (Hi & Hs & _ & Hp & _).
    exists []. simpl.
    assert (Hpos : pos (backup l1) = pos l) by (unfold backup; simpl; lia).
    rewrite (unread_same l (backup l1) Hpos Hi). repeat split; auto; lia.
Qed.

Lemma acceptRun_text valid l :
  (pos l <= length (input l))%nat ->
  exists s, unread l = s ++ unread (acceptRun valid l)
    /\ pos (acceptRun valid l) = (pos l + length s)%nat
    /\ input (acceptRun valid l) = input l /\ start (acceptRun valid l) = start l
    /\ Forall (fun c => strings.ContainsRune (bytes valid) (b2z c) = true) s.
Proof. intros Hb. apply acceptRun_loop_text, Hb. Qed.

(** What the loop of lexKeyGroup reads up to the closing bracket. *)
Lemma lexKeyGroup_loop_text fuel : forall l l',
  lexKeyGroup_loop fuel l = (None, l') ->
  exists name, unread l = name ++ "]"%char :: unread l'
    /\ pos l' = (pos l + length name + 1)%nat
    /\ input l' = input l /\ start l' = start l
    /\ Forall (fun d => isAlphaNumeric (b2z d) = true \/ d = "."%char) name.
Proof.
  induction fuel as [|fuel IH]; intros l l' H; simpl in H;
    destruct (next l) as [r l1] eqn:Hn;
    destruct (Z.eqb_spec r keyGroupEnd) as [Hend|Hend].
  - inversion H; subst.
    destruct (next_low l keyGroupEnd l' Hn (low_ascii "]"%char eq_refl))
      as (c & t & Hu & Hc & ->).
    apply (b2z_inj c "]"%char) in Hc. subst c.
    exists []. rewrite unread_moved, Hu. simpl. repeat split; auto; lia.
  - destruct (isAlphaNumeric r || (r =? keyGroupSep)); discriminate.
  - inversion H; subst.
    destruct (next_low l keyGroupEnd l' Hn (low_ascii "]"%char eq_refl))
      as (c & t & Hu & Hc & ->).
    apply (b2z_inj c "]"%char) in Hc. subst c.
    exists []. rewrite unread_moved, Hu. simpl. repeat split; auto; lia.
  - destruct (isAlphaNumeric r || (r =? keyGroupSep)) eqn:Hok; [|discriminate].
    assert (Hlow : 0 <= r < 128).
    { apply orb_true_iff in Hok. destruct Hok as [Hok|Hok].
      - apply isAlphaNumeric_low, Hok.
      - apply Z.eqb_eq in Hok. subst. apply (low_ascii "."%char eq_refl). }
    destruct (next_low l r l1 Hn Hlow) as (c & t & Hu & Hc & ->).
    destruct (IH _ _ H) as (name & Hname & Hp & Hi & Hs & Hall).
    rewrite unread_moved, Hu in Hname. simpl in Hname.
    exists (c :: name). simpl. rewrite <- Hname. split; [exact Hu|].
    split; [rewrite Hp; simpl; lia|]. split; [exact Hi|]. split; [exact Hs|].
    constructor; [|exact Hall].
    apply orb_true_iff in Hok. destruct Hok as [Hok|Hok].
    + left. rewrite Hc. exact Hok.
    + right. apply Z.eqb_eq in Hok. apply b2z_inj. rewrite Hc, Hok. reflexivity.
Qed.

(** What the loop of lexKey reads before the space that ends the key. *)
Lemma lexKey_loop_text fuel : forall l l',
  lexKey_loop fuel l = (None, l') ->
  exists s, unread l = s ++ unread l'
    /\ pos l' = (pos l + length s)%nat
    /\ input l' = input l /\ start l' = start l
    /\ Forall (fun d => isAlphaNumeric (b2z d) = true) s.
Proof.
  induction fuel as [|fuel IH]; intros l l' H; simpl in H;
    destruct (next l) as [r l1] eqn:Hn;
    destruct (isAlphaNumeric r) eqn:Hal.
  - discriminate.
  - destruct (isSpace r) eqn:Hsp; [|discriminate]. inversion H; subst.
    destruct (next_low l r l1 Hn (isSpace_low r Hsp)) as (c & t & Hu & Hc & ->).
    exists []. rewrite backup_moved by lia. rewrite unread_moved. simpl.
    repeat split; auto; lia.
  - destruct (next_low l r l1 Hn (isAlphaNumeric_low r Hal)) as (c & t & Hu & Hc & ->).
    destruct (IH _ _ H) as (s & Hs & Hp & Hi & Hst & Hall).
    rewrite unread_moved, Hu in Hs. simpl in Hs.
    exists (c :: s). simpl. rewrite <- Hs. split; [exact Hu|].
    split; [rewrite Hp; simpl; lia|]. split; [exact Hi|]. split; [exact Hst|].
    constructor; [rewrite Hc; exact Hal|exact Hall].
  - destruct (isSpace r) eqn:Hsp; [|discriminate]. inversion H; subst.
    destruct (next_low l r l1 Hn (isSpace_low r Hsp)) as (c & t & Hu & Hc & ->).
    exists []. rewrite backup_moved by lia. rewrite unread_moved. simpl.
    repeat split; auto; lia.
Qed.

(** What the loop of lexDatetime reads: bytes that fit the layout. *)
Lemma lexDatetime_loop_text format : forall l l',
  lexDatetime_loop format l = (None, l') ->
  Forall (fun f => 0 <= f < 128) format ->
  exists s, unread l = s ++ unread l'
    /\ pos l' = (pos l + length s)%nat
    /\ input l' = input l /\ start l' = start l /\ arrayDepth l' = arrayDepth l
    /\ Forall2 fitsLayout format s.
Proof.
  induction format as [|f format IH]; intros l l' H Hf; simpl in H.
  - inversion H; subst. exists []. simpl. repeat split; auto; try lia; constructor.
  - destruct (next l) as [r l1] eqn:Hn.
    inversion Hf as [|? ? Hf1 Hf2]; subst.
    destruct (((f =? ch "0") && isDigit r) || (f =? r)) eqn:Hm; [|discriminate].
    assert (Hlow : 0 <= r < 128).
    { apply orb_true_iff in Hm. destruct Hm as [Hm|Hm].
      - apply andb_true_iff in Hm. destruct Hm as [_ Hd].
        apply isAlphaNumeric_low. unfold isAlphaNumeric. rewrite Hd. apply orb_true_r.
      - apply Z.eqb_eq in Hm. subst. exact Hf1. }
    destruct (next_low l r l1 Hn Hlow) as (c & t & Hu & Hc & ->).
    destruct (IH _ _ H Hf2) as (s & Hs & Hp & Hi & Hst & Hd & Hall).
    rewrite unread_moved, Hu in Hs. simpl in Hs.
    exists (c :: s). simpl. rewrite <- Hs. split; [exact Hu|].
    split; [rewrite Hp; simpl; lia|]. split; [exact Hi|]. split; [exact Hst|].
    split; [exact Hd|].
    constructor; [|exact Hall]. unfold fitsLayout. rewrite Hc.
    apply orb_true_iff in Hm. destruct Hm as [Hm|Hm].
    + apply andb_true_iff in Hm. destruct Hm as [H0 Hd']. apply Z.eqb_eq in H0. auto.
    + apply Z.eqb_eq in Hm. auto.
Qed.

Lemma strBody_high bs x :
  Forall (fun b => 128 <= b2z b) bs -> strBody (bs ++ x) = strBody x.
Proof.
  induction 1 as [|b bs Hb _ IH]; simpl; [reflexivity|].
  assert (Hne : forall d, b2z d < 128 -> Ascii.eqb b d = false).
  { intros d Hd. apply Ascii.eqb_neq. intros ->. lia. }
  rewrite !Hne by (vm_compute; reflexivity). simpl. exact IH.
Qed.

(** What the loop of lexString reads up to the closing quote. *)
Lemma lexString_loop_text fuel : forall l l',
  lexString_loop fuel l = (true, l') ->
  exists body, unread l = body ++ "034"%char :: unread l'
    /\ pos l' = (pos l + length body + 1)%nat
    /\ input l' = input l /\ start l' = start l /\ arrayDepth l' = arrayDepth l
    /\ strBody body = true.
Proof.
  induction fuel as [|fuel IH]; intros l l' H; simpl in H;
    destruct (next l) as [r l1] eqn:Hn;
    destruct (Z.eqb_spec r (ch "\")) as [Hbs|Hbs].
  - destruct (next l1) as [r2 l2]. destruct (r2 =? eof); discriminate.
  - destruct ((r =? eof) || (r =? ch "010")); [discriminate|].
    destruct (Z.eqb_spec r (ch "034")) as [Hq|Hq]; [|discriminate].
    inversion H; subst.
    destruct (next_low l _ l' Hn (low_ascii "034"%char eq_refl))
      as (c & t & Hu & Hc & ->).
    apply (b2z_inj c "034"%char) in Hc. subst c.
    exists []. rewrite unread_moved, Hu. simpl. repeat split; auto; lia.
  - subst r.
    destruct (next_low l _ l1 Hn (low_ascii "\"%char eq_refl))
      as (c & t & Hu & Hc & ->).
    apply (b2z_inj c "\"%char) in Hc. subst c.
    destruct (next (moved 1 1 l)) as [r2 l2] eqn:Hn2.
    destruct (Z.eqb_spec r2 eof) as [He|He]; [discriminate|].
    destruct (next_bytes _ r2 l2 Hn2 He) as (bs & Hbs & Hp2 & Hi2 & Hs2 & Hd2 & Hkind).
    destruct (IH _ _ H) as (body & Hbody & Hp & Hi & Hst & Hd & Hok).
    rewrite unread_moved, Hu in Hbs. simpl in Hbs, Hp2, Hi2, Hs2, Hd2.
    exists ("\"%char :: bs ++ body). simpl. rewrite <- app_assoc, <- Hbody, <- Hbs.
    split; [exact Hu|]. split; [rewrite Hp, Hp2, length_app; simpl; lia|].
    split; [congruence|]. split; [congruence|]. split; [congruence|].
    destruct Hkind as [(c & -> & _)|(_ & Hne & Hall)]; simpl; [exact Hok|].
    destruct bs as [|b bs]; [contradiction|]. simpl.
    inversion Hall; subst. rewrite strBody_high; auto.
  - destruct (Z.eqb_spec r eof) as [He|He]; [discriminate|].
    destruct (Z.eqb_spec r (ch "010")) as [Hnl|Hnl]; [discriminate|]. simpl in H.
    destruct (Z.eqb_spec r (ch "034")) as [Hq|Hq].
    + inversion H; subst.
      destruct (next_low l _ l' Hn (low_ascii "034"%char eq_refl))
        as (c & t & Hu & Hc & ->).
      apply (b2z_inj c "034"%char) in Hc. subst c.
      exists []. rewrite unread_moved, Hu. simpl. repeat split; auto; lia.
    + destruct (next_bytes _ r l1 Hn He) as (bs & Hbs' & Hp1 & Hi1 & Hs1 & Hd1 & Hkind).
      destruct (IH _ _ H) as (body & Hbody & Hp & Hi & Hst & Hd & Hok).
      exists (bs ++ body). rewrite <- app_assoc, <- Hbody, <- Hbs'.
      split; [reflexivity|]. split; [rewrite Hp, Hp1, length_app; lia|].
      split; [congruence|]. split; [congruence|]. split; [congruence|].
      destruct Hkind as [(c & -> & Hc & _)|(_ & _ & Hall)]; [|rewrite strBody_high; auto].
      simpl.
      assert (Hne : forall d, r <> ch d -> Ascii.eqb c d = false).
      { intros d Hd'. apply Ascii.eqb_neq. intros ->. apply Hd'. symmetry. exact Hc. }
      rewrite !Hne by assumption. simpl. exact Hok.
Qed.
End Consumed.

Section TokenTexts.
Import Lexer.

Lemma unread_head l c t : unread l = c :: t -> input l !! pos l = Some c.
Proof.
  intros H. unfold unread in H.
  pose proof (lookup_drop (input l) (pos l) 0) as E. rewrite H in E. simpl in E.
  rewrite Nat.add_0_r in E. symmetry. exact E.
Qed.

Lemma unread_tail l c t : unread l = c :: t -> drop (S (pos l)) (input l) = t.
Proof.
  intros H. unfold unread in H.
  rewrite (drop_S _ _ _ (unread_head l c t H)) in H. inversion H. reflexivity.
Qed.

Lemma unread_bound l c t : unread l = c :: t -> (pos l < length (input l))%nat.
Proof. intros H. eapply lookup_lt_Some, unread_head, H. Qed.

Lemma HasPrefix_app_inv w : forall s,
  strings.HasPrefix s w = true -> exists rest, s = w ++ rest.
Proof.
  induction w as [|c w IH]; intros s H; [exists s; reflexivity|].
  destruct (HasPrefix_cons _ _ _ H) as (s' & -> & H').
  destruct (IH s' H') as [rest ->]. exists rest. reflexivity.
Qed.

Lemma ignoreSpaces_facts l :
  (pos l <= length (input l))%nat ->
  input (ignoreSpaces l) = input l
  /\ (pos l <= pos (ignoreSpaces l) <= length (input l))%nat
  /\ start (ignoreSpaces l) = pos (ignoreSpaces l).
Proof.
  intros Hb.
  destruct (adv_backup l _ (ignoreSpaces_loop_adv (length (input l)) l Hb))
    as (Hi & _ & Hp).
  unfold ignoreSpaces. simpl in *. auto.
Qed.

Lemma stepOK_pass l x st' :
  input x = input l -> (start l <= start x)%nat -> entered st' x ->
  stepOK l ([], x, Some st').
Proof. intros Hi Hs He. unfold stepOK. auto. Qed.

Lemma stepOK_error l x f a :
  input x = input l -> (start l <= start x)%nat -> stepOK l (errorf x f a).
Proof.
  intros Hi Hs. unfold stepOK, errorf. split; [exact Hi|]. split; [exact Hs|].
  split; [|exact I]. right. eexists. split; [reflexivity|]. split; [simpl; lia|].
  left. reflexivity.
Qed.

Lemma stepOK_send l x t nxt :
  input x = input l -> (start l <= start x <= pos x)%nat ->
  (pos x <= length (input l))%nat ->
  tokenText t (bytes (text x)) -> plain nxt ->
  stepOK l (send t x nxt).
Proof.
  intros Hi Hs Hp Ht Hn. unfold stepOK, send, emit. simpl.
  split; [exact Hi|]. split; [lia|]. split.
  - right. eexists. split; [reflexivity|]. split; [simpl; lia|]. right. simpl.
    split; [exact Hp|]. split; [|split; [reflexivity|exact Ht]].
    unfold text, slice. rewrite Hi. reflexivity.
  - destruct nxt as [[]|]; simpl in *; try contradiction; auto; split; auto;
      rewrite Hi; exact Hp.
Qed.

Lemma text_slice x : text x = slice (input x) (start x) (pos x).
Proof. reflexivity. Qed.

Lemma lexStart_ok l : entered lexStartFn l -> stepOK l (lexStart l).
Proof.
  intros [Hb Hst]. unfold lexStart.
  destruct (next l) as [r l1] eqn:Hn.
  destruct (next_spec l r l1 Hn Hb) as (Hi & Hs & _ & Hp & Hl & Hw & _).
  assert (Hl1 : (pos l1 <= length (input l1))%nat) by (rewrite Hi; exact Hl).
  destruct (Z.eqb_spec r eof) as [He|He].
  { apply stepOK_send; auto; [lia|exact I|exact I]. }
  destruct (isDash r).
  { apply stepOK_pass; simpl; [exact Hi|lia|]. split; simpl; auto. }
  destruct (isNewLine r).
  { destruct (peek l1) as [r2 l2] eqn:Hpk.
    destruct (peek_same l1 r2 l2 Hpk Hl1) as (Hp2 & Hi2 & Hs2 & _).
    destruct (isNewLine r2).
    - apply stepOK_send; [congruence|lia|lia|exact I|exact I].
    - apply stepOK_pass; simpl; [congruence|lia|]. split; simpl; auto.
      rewrite Hi2, Hp2. exact Hl1. }
  destruct (isSpace r).
  { destruct (ignoreSpaces_facts l1 Hl1) as (Hi2 & Hp2 & Hst1).
    apply stepOK_pass; [congruence|lia|]. split; [rewrite Hi2; lia|exact Hst1]. }
  destruct (r =? commentStart).
  { unfold lexComment.
    destruct (lexComment_loop_fwd (length (input l1)) l1 Hl1) as (Hi2 & _ & Hp2).
    apply stepOK_pass; simpl; [congruence|lia|]. split; simpl; auto.
    rewrite Hi2. lia. }
  destruct (Z.eqb_spec r keyGroupStart) as [Hg|Hg].
  { subst r.
    destruct (next_low l _ l1 Hn (low_ascii "["%char eq_refl)) as (c & t & Hu & Hc & ->).
    apply (b2z_inj c "["%char) in Hc. subst c.
    apply stepOK_pass; [reflexivity|simpl; lia|].
    split; [exact Hl1|]. simpl. split; [lia|]. rewrite Hst. apply (unread_head l _ t Hu). }
  destruct (isAlpha r) eqn:Hal.
  { assert (Hlow : 0 <= r < 128).
    { apply isAlphaNumeric_low. unfold isAlphaNumeric. rewrite Hal. reflexivity. }
    destruct (next_low l _ l1 Hn Hlow) as (c & t & Hu & Hc & ->).
    apply stepOK_pass; [reflexivity|simpl; lia|].
    split; [exact Hl1|]. simpl. split; [lia|]. exists c. rewrite Hst, Hc.
    split; [apply (unread_head l _ t Hu)|exact Hal]. }
  apply stepOK_error; [exact Hi|lia].
Qed.

Lemma lexKeyGroup_ok l : entered lexKeyGroupFn l -> stepOK l (lexKeyGroup l).
Proof.
  intros (Hb & Hp & Hc). unfold lexKeyGroup.
  destruct (lexKeyGroup_loop (length (input l)) l) as [[r|] l1] eqn:Hloop.
  - destruct (lexKeyGroup_loop_fwd _ l _ l1 Hloop Hb) as [(Hi & Hs & _) _].
    apply stepOK_error; [exact Hi|lia].
  - destruct (lexKeyGroup_loop_fwd _ l _ l1 Hloop Hb) as [(Hi & Hs & Hp1) _].
    destruct (lexKeyGroup_loop_text _ l l1 Hloop) as (name & Hu & Hp2 & _ & _ & Hall).
    apply stepOK_send; [exact Hi|lia|lia| |exact I].
    rewrite text_slice, Hi, Hs.
    replace (pos l1) with (S (start l) + length (name ++ ["]"%char]))%nat
      by (rewrite length_app; simpl; lia).
    rewrite (slice_cons _ _ "["%char _ (unread l1) Hc), bytes_str.
    + exists name. auto.
    + rewrite <- Hp. fold (unread l). rewrite Hu, <- app_assoc. reflexivity.
Qed.

Lemma lexKey_ok l : entered lexKeyFn l -> stepOK l (lexKey l).
Proof.
  intros (Hb & Hp & c & Hc & Hal). unfold lexKey.
  destruct (lexKey_loop (length (input l)) l) as [[r|] l1] eqn:Hloop.
  - destruct (lexKey_loop_fwd _ l _ l1 Hloop Hb) as (Hi & Hs & _).
    apply stepOK_error; [exact Hi|lia].
  - destruct (lexKey_loop_fwd _ l _ l1 Hloop Hb) as (Hi & Hs & Hp1).
    destruct (lexKey_loop_text _ l l1 Hloop) as (s & Hu & Hp2 & _ & _ & Hall).
    apply stepOK_send; [exact Hi|lia|lia| |exact I].
    rewrite text_slice, Hi, Hs.
    replace (pos l1) with (S (start l) + length s)%nat by lia.
    rewrite (slice_cons _ _ c _ (unread l1) Hc), bytes_str.
    + exists c, s. auto.
    + rewrite <- Hp. fold (unread l). exact Hu.
Qed.

Lemma lexKeySep_ok l : entered lexKeySepFn l -> stepOK l (lexKeySep l).
Proof.
  intros [Hb Hst]. unfold lexKeySep.
  destruct (ignoreSpaces_facts l Hb) as (Hi0' & Hp0' & Hst0).
  assert (Hf : (pos (ignoreSpaces l) <= length (input (ignoreSpaces l)))%nat)
    by (rewrite Hi0'; lia).
  set (l0 := ignoreSpaces l) in *. clearbody l0.
  destruct (next l0) as [r l1] eqn:Hn.
  destruct (next_spec l0 r l1 Hn Hf) as (Hi & Hs & _ & Hp & Hl & _).
  destruct ((r =? keySep) || (r =? keySep2)) eqn:Hr.
  - assert (Hlow : 0 <= r < 128).
    { apply orb_true_iff in Hr. destruct Hr as [Hr|Hr]; apply Z.eqb_eq in Hr; subst.
      - apply (low_ascii "="%char eq_refl).
      - apply (low_ascii ":"%char eq_refl). }
    destruct (next_low l0 r l1 Hn Hlow) as (c & t & Hu & Hc & ->).
    apply stepOK_send; [exact Hi0'|simpl; lia|rewrite <- Hi0'; exact Hl| |exact I].
    rewrite text_slice. change (input (moved 1 1 l0)) with (input l0).
    change (start (moved 1 1 l0)) with (start l0). rewrite Hst0.
    change (pos (moved 1 1 l0)) with (pos l0 + length [c])%nat.
    rewrite (slice_unread l0 [c] t Hu), bytes_str. simpl.
    apply orb_true_iff in Hr. destruct Hr as [Hr|Hr]; apply Z.eqb_eq in Hr.
    + left. f_equal. apply b2z_inj. rewrite Hc, Hr. reflexivity.
    + right. f_equal. apply b2z_inj. rewrite Hc, Hr. reflexivity.
  - apply stepOK_error; [congruence|lia].
Qed.

Lemma single_send l c t tt_ d nxt :
  entered lexValueFn l -> unread l = c :: t -> tokenText tt_ [c] -> plain nxt ->
  stepOK l (send tt_ (setDepth d (moved 1 1 l)) nxt).
Proof.
  intros [Hb Hst] Hu Ht Hn. pose proof (unread_bound l c t Hu) as Hlt.
  apply stepOK_send; simpl; [reflexivity|lia|lia| |exact Hn].
  rewrite text_slice. simpl. rewrite Hst.
  change (pos l + 1)%nat with (pos l + length [c])%nat.
  rewrite (slice_unread l [c] t Hu), bytes_str. exact Ht.
Qed.

Lemma bool_send l word rest :
  entered lexValueFn l -> unread l = bytes word ++ rest ->
  word = "true" \/ word = "false" ->
  stepOK l (send tokenBool (advance (String.length word - 1) (moved 1 1 l))
              (Some lexStartFn)).
Proof.
  intros [Hb Hst] Hu Hw. pose proof (unread_length l) as Hlen.
  rewrite Hu, length_app, bytes_length in Hlen.
  assert (Hpos : (pos l + 1 + (String.length word - 1) = pos l + length (bytes word))%nat).
  { rewrite bytes_length. destruct Hw as [->| ->]; simpl; lia. }
  apply stepOK_send; simpl; [reflexivity|lia|rewrite Hpos, bytes_length; lia| |exact I].
  rewrite text_slice. simpl. rewrite Hst, Hpos.
  rewrite (slice_unread l _ rest Hu), bytes_str.
  destruct Hw as [->| ->]; auto.
Qed.

Lemma lexValue_ok l : entered lexValueFn l -> stepOK l (lexValue l).
Proof.
  intros He0. pose proof He0 as [Hb Hst]. unfold lexValue.
  destruct (next l) as [r l1] eqn:Hn.
  destruct (next_spec l r l1 Hn Hb) as (Hi & Hs & _ & Hp & Hl & Hw & _).
  assert (Hl1 : (pos l1 <= length (input l1))%nat) by (rewrite Hi; exact Hl).
  destruct (Z.eqb_spec r eof) as [He|He].
  { apply stepOK_send; auto; [lia|exact I|exact I]. }
  destruct (r =? ch "013").
  { apply stepOK_pass; simpl; [exact Hi|lia|]. split; simpl; auto. }
  destruct (r =? ch "010").
  { destruct (arrayDepth (ignore l1) =? 0);
      (apply stepOK_pass; simpl; [exact Hi|lia|]; split; simpl; auto). }
  destruct (isSpace r).
  { destruct (ignoreSpaces_facts l1 Hl1) as (Hi2 & Hp2 & Hst1).
    apply stepOK_pass; [congruence|lia|]. split; [rewrite Hi2; lia|exact Hst1]. }
  destruct (r =? commentStart).
  { unfold lexComment.
    destruct (lexComment_loop_fwd (length (input l1)) l1 Hl1) as (Hi2 & _ & Hp2).
    apply stepOK_pass; simpl; [congruence|lia|]. split; simpl; auto.
    rewrite Hi2. lia. }
  destruct (Z.eqb_spec r (ch "034")) as [Hq|Hq].
  { subst r.
    destruct (next_low l _ l1 Hn (low_ascii "034"%char eq_refl)) as (c & t & Hu & Hc & ->).
    apply (b2z_inj c "034"%char) in Hc. subst c.
    apply stepOK_pass; [reflexivity|simpl; lia|].
    split; [exact Hl1|]. simpl. split; [lia|]. rewrite Hst. apply (unread_head l _ t Hu). }
  destruct (Z.eqb_spec r (ch "[")) as [Ho|Ho].
  { subst r.
    destruct (next_low l _ l1 Hn (low_ascii "["%char eq_refl)) as (c & t & Hu & Hc & ->).
    apply (b2z_inj c "["%char) in Hc. subst c.
    apply (single_send l "["%char t); auto; [reflexivity|exact I]. }
  destruct (Z.eqb_spec r (ch "]")) as [Hc|Hc].
  { subst r.
    destruct (next_low l _ l1 Hn (low_ascii "]"%char eq_refl)) as (c & t & Hu & Hc & ->).
    apply (b2z_inj c "]"%char) in Hc. subst c.
    destruct (arrayDepth (setDepth (arrayDepth (moved 1 1 l) - 1) (moved 1 1 l)) <? 0).
    - apply stepOK_error; simpl; [reflexivity|lia].
    - apply (single_send l "]"%char t); auto; [reflexivity|exact I]. }
  destruct (Z.eqb_spec r (ch ",")) as [Hcm|Hcm].
  { subst r.
    destruct (next_low l _ l1 Hn (low_ascii ","%char eq_refl)) as (c & t & Hu & Hc' & ->).
    apply (b2z_inj c ","%char) in Hc'. subst c.
    destruct (0 <? arrayDepth (moved 1 1 l)).
    - change (moved 1 1 l) with (setDepth (arrayDepth l) (moved 1 1 l)).
      apply (single_send l ","%char t); auto; [reflexivity|exact I].
    - apply stepOK_error; simpl; [reflexivity|lia]. }
  destruct ((r =? ch "+") || (r =? ch "-")) eqn:Hsign.
  { apply stepOK_pass; simpl; [exact Hi|lia|]. split; simpl; [rewrite Hi; lia|lia]. }
  destruct ((ch "0" <=? r) && (r <=? ch "9")) eqn:Hdig.
  { apply stepOK_pass; simpl; [exact Hi|lia|]. split; simpl; [rewrite Hi; lia|lia]. }
  assert (Hpre : forall w, is_ l1 w = strings.HasPrefix (unread l) (bytes w)).
  { intros w. unfold is_, unread. rewrite Hi, Hp.
    replace (pos l + width l1 - width l1)%nat with (pos l) by lia. reflexivity. }
  destruct (is_ l1 "true") eqn:Ht.
  { rewrite Hpre in Ht. destruct (HasPrefix_app_inv _ _ Ht) as [rest Hu].
    rewrite (next_ascii l "t"%char (bytes "rue" ++ rest) Hu) in Hn
      by (vm_compute; reflexivity).
    inversion Hn; subst. apply (bool_send l "true" rest He0 Hu). auto. }
  destruct (is_ l1 "false") eqn:Hf.
  { rewrite Hpre in Hf. destruct (HasPrefix_app_inv _ _ Hf) as [rest Hu].
    rewrite (next_ascii l "f"%char (bytes "alse" ++ rest) Hu) in Hn
      by (vm_compute; reflexivity).
    inversion Hn; subst. apply (bool_send l "false" rest He0 Hu). auto. }
  apply stepOK_error; [exact Hi|lia].
Qed.

Lemma lexString_ok l : entered lexStringFn l -> stepOK l (lexString l).
Proof.
  intros (Hb & Hp & Hc). unfold lexString.
  destruct (lexString_loop (length (input l)) l) as [[|] l1] eqn:Hloop.
  - destruct (lexString_loop_fwd _ l _ l1 Hloop Hb) as (Hi & Hs & Hp1).
    destruct (lexString_loop_text _ l l1 Hloop) as (body & Hu & Hp2 & _ & _ & _ & Hok).
    apply stepOK_send; [exact Hi|lia|lia| |exact I].
    rewrite text_slice, Hi, Hs.
    replace (pos l1) with (S (start l) + length (body ++ ["034"%char]))%nat
      by (rewrite length_app; simpl; lia).
    rewrite (slice_cons _ _ "034"%char _ (unread l1) Hc), bytes_str.
    + exists body. auto.
    + rewrite <- Hp. fold (unread l). rewrite Hu, <- app_assoc. reflexivity.
  - destruct (lexString_loop_fwd _ l _ l1 Hloop Hb) as (Hi & Hs & _).
    apply stepOK_error; [exact Hi|lia].
Qed.

Lemma lexNumberOrDatetime_ok l :
  entered lexNumberOrDatetimeFn l -> stepOK l (lexNumberOrDatetime l).
Proof.
  intros He. unfold lexNumberOrDatetime.
  destruct (_ && _); (apply stepOK_pass; [reflexivity|lia|exact He]).
Qed.

Lemma ContainsRune_sign c :
  strings.ContainsRune (bytes "+-") (b2z c) = true -> c = "+"%char \/ c = "-"%char.
Proof.
  unfold strings.ContainsRune. cbn [existsb bytes list_ascii_of_string].
  rewrite !andb_true_iff, !orb_true_iff, !Z.eqb_eq.
  intros (_ & [E|[E|E]]); [left|right|discriminate]; apply b2z_inj; symmetry; exact E.
Qed.

Lemma ContainsRune_dot c :
  strings.ContainsRune (bytes ".") (b2z c) = true -> c = "."%char.
Proof.
  unfold strings.ContainsRune. cbn [existsb bytes list_ascii_of_string].
  rewrite !andb_true_iff, !orb_true_iff, !Z.eqb_eq.
  intros (_ & [E|E]); [|discriminate]. apply b2z_inj. symmetry. exact E.
Qed.

Lemma lexNumber_ok l : entered lexNumberFn l -> stepOK l (lexNumber l).
Proof.
  intros [Hb Hst]. unfold lexNumber.
  destruct (accept "+-" l) as [b1 l1] eqn:H1.
  destruct (accept_text _ l b1 l1 H1 Hb) as (s1 & Hu1 & Hp1 & Hi1 & Hs1 & Hk1).
  assert (Hb1 : (pos l1 <= length (input l1))%nat).
  { apply (fwd_bound l), (accept_fwd _ l b1 l1 H1 Hb). }
  destruct (acceptRun_text digits l1 Hb1) as (s2 & Hu2 & Hp2 & Hi2 & Hs2 & Hk2).
  pose proof (fwd_bound l1 _ (acceptRun_fwd digits l1 Hb1)) as Hb2.
  set (l2 := acceptRun digits l1) in *.
  destruct (accept "." l2) as [dot l3] eqn:H3.
  destruct (accept_text _ l2 dot l3 H3 Hb2) as (s3 & Hu3 & Hp3 & Hi3 & Hs3 & Hk3).
  assert (Hb3 : (pos l3 <= length (input l3))%nat).
  { apply (fwd_bound l2), (accept_fwd _ l2 dot l3 H3 Hb2). }
  assert (H4 : exists s4, unread l3 = s4 ++ unread (if dot then acceptRun digits l3 else l3)
            /\ pos (if dot then acceptRun digits l3 else l3) = (pos l3 + length s4)%nat
            /\ input (if dot then acceptRun digits l3 else l3) = input l3
            /\ start (if dot then acceptRun digits l3 else l3) = start l3
            /\ Forall (fun c => strings.ContainsRune (bytes digits) (b2z c) = true) s4
            /\ (dot = false -> s4 = [])
            /\ (pos (if dot then acceptRun digits l3 else l3)
                <= length (input (if dot then acceptRun digits l3 else l3)))%nat).
  { destruct dot.
    - destruct (acceptRun_text digits l3 Hb3) as (s4 & Hu4 & Hp4 & Hi4 & Hs4 & Hk4).
      exists s4. repeat split; auto; try discriminate.
      apply (fwd_bound l3), acceptRun_fwd, Hb3.
    - exists []. simpl. repeat split; auto; lia. }
  destruct H4 as (s4 & Hu4 & Hp4 & Hi4 & Hs4 & Hk4 & Hnil & Hb4).
  set (l4 := if dot then acceptRun digits l3 else l3) in *.
  destruct (peek l4) as [r l5] eqn:H5.
  destruct (peek_same l4 r l5 H5 Hb4) as (Hp5 & Hi5 & Hs5 & _).
  assert (Hin : input l5 = input l) by congruence.
  assert (Hstart : start l5 = start l) by congruence.
  destruct (isAlphaNumeric r || (r =? ch "-")).
  - destruct (next l5) as [r6 l6] eqn:H6.
    destruct (next_spec l5 r6 l6 H6) as (Hi6 & Hs6 & _); [rewrite Hi5, Hp5; exact Hb4|].
    apply stepOK_error; [congruence|lia].
  - assert (Hall : unread l = (s1 ++ s2 ++ s3 ++ s4) ++ unread l4).
    { rewrite Hu1, Hu2, Hu3, Hu4, <- !app_assoc. reflexivity. }
    assert (Hpos : pos l5 = (pos l + length (s1 ++ s2 ++ s3 ++ s4))%nat).
    { rewrite !length_app. lia. }
    apply stepOK_send; [exact Hin|lia|rewrite <- Hin, Hi5, Hp5; exact Hb4| |exact I].
    rewrite text_slice, Hin, Hstart, Hst, Hpos.
    rewrite (slice_unread l _ _ Hall), bytes_str.
    exists s1, s2, (s3 ++ s4). split; [reflexivity|]. split; [|split].
    + destruct b1; [|left; exact Hk1].
      destruct Hk1 as (c & -> & Hc). right.
      destruct (ContainsRune_sign c Hc) as [->| ->]; auto.
    + eapply List.Forall_impl; [|exact Hk2]. intros c Hc. simpl in Hc.
      rewrite ContainsRune_digits in Hc. exact Hc.
    + destruct dot.
      * destruct Hk3 as (c & -> & Hc). right. exists s4.
        rewrite (ContainsRune_dot c Hc). split; [reflexivity|].
        eapply List.Forall_impl; [|exact Hk4]. intros d Hd. simpl in Hd.
        rewrite ContainsRune_digits in Hd. exact Hd.
      * left. rewrite Hk3, (Hnil eq_refl). reflexivity.
Qed.

Lemma lexDatetime_ok l : entered lexDatetimeFn l -> stepOK l (lexDatetime l).
Proof.
  intros [Hb Hst]. unfold lexDatetime.
  destruct (lexDatetime_loop datetimeFormat l) as [[r|] l1] eqn:Hloop.
  - destruct (lexDatetime_loop_fwd _ l _ l1 Hloop Hb) as (Hi & Hs & _).
    apply stepOK_error; [exact Hi|lia].
  - destruct (lexDatetime_loop_fwd _ l _ l1 Hloop Hb) as (Hi & Hs & Hp1).
    destruct (lexDatetime_loop_text _ l l1 Hloop) as (s & Hu & Hp2 & _ & _ & _ & Hall).
    { repeat constructor; discriminate. }
    apply stepOK_send; [exact Hi|lia|lia| |exact I].
    rewrite text_slice, Hi, Hs, Hst, Hp2.
    rewrite (slice_unread l _ _ Hu), bytes_str. exact Hall.
Qed.

Lemma call_ok st l : entered st l -> stepOK l (call st l).
Proof.
  intros He. destruct st; simpl;
    auto using lexStart_ok, lexKeyGroup_ok, lexKey_ok, lexKeySep_ok, lexValue_ok,
      lexString_ok, lexNumberOrDatetime_ok, lexNumber_ok, lexDatetime_ok.
Qed.

Lemma entered_Inv st l : entered st l -> Inv st l.
Proof.
  intros [Hb He]. unfold Inv, inBounds.
  destruct st; simpl in He; try (split; [lia|discriminate]).
  destruct He as [Hp _]. split; [lia|]. intros _. lia.
Qed.

Lemma chain_from input a b toks :
  (a <= b)%nat -> chain input b toks -> chain input a toks.
Proof.
  intros Hab. destruct toks as [|tok rest]; simpl; [auto|].
  intros [Hf H]. split; [lia|exact H].
Qed.

(** The tokens of the state loop are pieces of the input, one after the
    other, each with the text of its type. *)
Lemma run_chain fuel : forall st l toks,
  run fuel st l = Some toks -> entered st l -> chain (input l) (start l) toks.
Proof.
  induction fuel as [|fuel IH]; intros st l toks H He; [discriminate|].
  simpl in H. pose proof (call_ok st l He) as Hok.
  pose proof (call_answers st l (entered_Inv st l He)) as Ha.
  destruct (call st l) as [[out l1] nxt]. destruct Hok as (Hi & Hs & Hout & Hnext).
  assert (Hone : forall rest, chain (input l) (start l1) rest ->
            (nxt = None -> rest = []) ->
            (forall tok, out = [tok] -> Tok.typ tok = tokenError -> nxt = None) ->
            chain (input l) (start l) (out ++ rest)).
  { intros rest Hrest Hnil Herr.
    destruct Hout as [->|(tok & -> & Hpos & Hsent)]; [apply (chain_from _ _ _ _ Hs Hrest)|].
    simpl. split; [lia|]. destruct (decide (Tok.typ tok = tokenError)) as [Et|Et].
    - left. split; [exact Et|]. apply Hnil. apply (Herr tok eq_refl Et).
    - destruct Hsent as [Hsent|(Hle & Hval & _ & Htext)]; [contradiction|].
      right. split; [exact Et|].
      assert (Hlen : String.length (Tok.val tok) = (start l1 - Tok.pos tok)%nat).
      { rewrite Hval. apply slice_length. lia. }
      rewrite Hlen.
      replace (Tok.pos tok + (start l1 - Tok.pos tok))%nat with (start l1) by lia.
      repeat split; auto; lia. }
  destruct nxt as [st1|].
  - destruct (run fuel st1 l1) as [rest|] eqn:Hr; [|discriminate]. inversion H; subst.
    destruct Ha as [_ Hmid].
    apply Hone; [rewrite <- Hi; apply (IH st1 l1 rest Hr Hnext)|discriminate|].
    intros tok -> Et. inversion Hmid as [|? ? Hm _]; subst. destruct Hm as (_ & Hne & _).
    contradiction.
  - inversion H; subst. rewrite <- (app_nil_r toks). apply Hone; simpl; auto.
Qed.

Lemma lex_chain text toks : lex text = Some toks -> chain (bytes text) 0 toks.
Proof.
  intros H. apply (run_chain _ _ _ _ H). split; simpl; [lia|reflexivity].
Qed.
End TokenTexts.

(** ** The scanner on every input *)

Section ScanOfEveryText.
Import Lexer.

Lemma run_more fuel : forall st l toks fuel',
  run fuel st l = Some toks -> (fuel <= fuel')%nat -> run fuel' st l = Some toks.
Proof.
  induction fuel as [|fuel IH]; intros st l toks fuel' H Hle; [discriminate|].
  destruct fuel' as [|fuel']; [lia|]. simpl in *.
  destruct (call st l) as [[out l1] [st1|]]; [|exact H].
  destruct (run fuel st1 l1) as [rest|] eqn:Hr; [|discriminate].
  rewrite (IH st1 l1 rest fuel' Hr) by lia. exact H.
Qed.

Lemma slice_substring text : forall a n,
  slice (bytes text) a (a + n) = substring a n text.
Proof.
  unfold slice. intros a n. replace (a + n - a)%nat with n by lia. revert a n.
  induction text as [|c text IH]; intros a n.
  - destruct a, n; reflexivity.
  - destruct a as [|a].
    + destruct n as [|n]; [reflexivity|]. simpl. f_equal. apply (IH 0%nat n).
    + simpl. apply IH.
Qed.

Lemma chain_after input from toks :
  chain input from toks -> forall tok, tok ∈ toks -> (from <= Tok.pos tok)%nat.
Proof.
  revert from. induction toks as [|t rest IH]; intros from H tok Hin.
  - apply elem_of_nil in Hin. contradiction.
  - simpl in H. destruct H as [Hf H]. apply elem_of_cons in Hin.
    destruct Hin as [->|Hin]; [exact Hf|].
    destruct H as [[_ ->]|(_ & _ & _ & _ & Hrest)].
    + apply elem_of_nil in Hin. contradiction.
    + specialize (IH _ Hrest tok Hin). lia.
Qed.

Lemma chain_each input from toks :
  chain input from toks -> forall tok, tok ∈ toks -> Tok.typ tok <> tokenError ->
  (Tok.pos tok + String.length (Tok.val tok) <= length input)%nat
  /\ Tok.val tok = slice input (Tok.pos tok) (Tok.pos tok + String.length (Tok.val tok))
  /\ tokenText (Tok.typ tok) (bytes (Tok.val tok)).
Proof.
  revert from. induction toks as [|t rest IH]; intros from H tok Hin Hne.
  - apply elem_of_nil in Hin. contradiction.
  - simpl in H. destruct H as [Hf H]. apply elem_of_cons in Hin.
    destruct H as [[Ht ->]|(_ & Hle & Hval & Htext & Hrest)].
    + destruct Hin as [->|Hin]; [contradiction|]. apply elem_of_nil in Hin. contradiction.
    + destruct Hin as [->|Hin]; [auto|]. apply (IH _ Hrest tok Hin Hne).
Qed.

Lemma chain_order input from toks :
  chain input from toks ->
  forall i j a b, (i < j)%nat -> toks !! i = Some a -> toks !! j = Some b ->
  (Tok.pos a + String.length (Tok.val a) <= Tok.pos b)%nat.
Proof.
  revert from. induction toks as [|t rest IH]; intros from H i j a b Hij Ha Hb.
  - discriminate.
  - simpl in H. destruct H as [Hf H]. destruct j as [|j]; [lia|]. simpl in Hb.
    destruct H as [[_ ->]|(_ & _ & _ & _ & Hrest)]; [discriminate|].
    destruct i as [|i]; simpl in Ha.
    + inversion Ha; subst. apply (chain_after _ _ _ Hrest). eapply list_elem_of_lookup_2, Hb.
    + apply (IH _ Hrest i j a b); auto. lia.
Qed.
End ScanOfEveryText.

(** X1: the state loop of the scanner ends on every input: after at most
    three state calls for every byte, and three more, it has sent its
    tokens, and more calls would change nothing. *)
Theorem scan_ends text :
  exists toks, forall fuel, (3 * String.length text + 3 <= fuel)%nat ->
    Lexer.run fuel Lexer.lexStartFn (Lexer.init text) = Some toks.
Proof.
  destruct (lex_total text) as [toks H]. exists toks. intros fuel Hle.
  apply (run_more _ _ _ _ _ H). exact Hle.
Qed.

(** X2: the scanner sends end-of-input or an error exactly once, as its last
    token, and never a space token. *)
Theorem scan_sends_one_last_token text :
  exists pre last,
    Lexer.lex text = Some (pre ++ [last])
    /\ (Tok.typ last = tokenEOF \/ Tok.typ last = tokenError)
    /\ Forall (fun tok => Tok.typ tok <> tokenEOF /\ Tok.typ tok <> tokenError
                          /\ Tok.typ tok <> tokenSpace) pre.
Proof.
  destruct (lex_total text) as [toks H].
  destruct (lex_shape text toks H) as (pre & last & -> & Hpre & Hlast).
  exists pre, last. split; [exact H|]. split; [exact Hlast|].
  eapply List.Forall_impl; [|exact Hpre]. intros tok (H1 & H2 & H3 & _). auto.
Qed.

(** X3: every token but an error token is the piece of the input at its
    position: the scanner sends no text of its own. *)
Theorem tokens_are_pieces_of_the_input text toks tok :
  Lexer.lex text = Some toks -> tok ∈ toks -> Tok.typ tok <> tokenError ->
  (Tok.pos tok + String.length (Tok.val tok) <= String.length text)%nat
  /\ Tok.val tok = substring (Tok.pos tok) (String.length (Tok.val tok)) text.
Proof.
  intros H Hin Hne.
  destruct (chain_each _ _ _ (lex_chain text toks H) tok Hin Hne) as (Hle & Hval & _).
  rewrite bytes_length in Hle. split; [exact Hle|].
  rewrite <- slice_substring. exact Hval.
Qed.

Lemma tokens_are_pieces_of_the_input_witness :
  let tok := Tok.mk tokenNumber 4 "17" [] in
  (Tok.pos tok + String.length (Tok.val tok) <= String.length "a = 17")%nat
  /\ Tok.val tok = substring (Tok.pos tok) (String.length (Tok.val tok)) "a = 17".
Proof.
  intros tok.
  refine (tokens_are_pieces_of_the_input "a = 17"
            [Tok.mk tokenKey 0 "a" []; Tok.mk tokenKeySep 2 "=" []; tok;
             Tok.mk tokenEOF 6 "" []] tok _ _ _).
  - vm_compute. reflexivity.
  - apply list_elem_of_In. simpl. auto.
  - discriminate.
Defined.

(** X4: the tokens come in the order of the input and do not overlap: a
    token ends before the next one starts. *)
Theorem tokens_are_in_order text toks i j a b :
  Lexer.lex text = Some toks -> (i < j)%nat ->
  toks !! i = Some a -> toks !! j = Some b ->
  (Tok.pos a + String.length (Tok.val a) <= Tok.pos b)%nat.
Proof.
  intros H. apply (chain_order _ _ _ (lex_chain text toks H)).
Qed.

Lemma tokens_are_in_order_witness :
  (Tok.pos (Tok.mk tokenKey 0 "a" []) + String.length "a"
   <= Tok.pos (Tok.mk tokenNumber 4 "17" []))%nat.
Proof.
  refine (tokens_are_in_order "a = 17"
            [Tok.mk tokenKey 0 "a" []; Tok.mk tokenKeySep 2 "=" [];
             Tok.mk tokenNumber 4 "17" []; Tok.mk tokenEOF 6 "" []]
            0%nat 2%nat _ _ _ _ eq_refl eq_refl).
  - vm_compute. reflexivity.
  - lia.
Defined.

(** X5: the text of the tokens that are one fixed word: a boolean is true
    or false, a key separator the equals sign or the colon, and the
    tokens of an array its brackets and the comma. *)
Theorem token_words text toks tok :
  Lexer.lex text = Some toks -> tok ∈ toks ->
  match Tok.typ tok with
  | tokenBool => Tok.val tok = "true" \/ Tok.val tok = "false"
  | tokenKeySep => Tok.val tok = "=" \/ Tok.val tok = ":"
  | tokenArrayStart => Tok.val tok = "["
  | tokenArrayEnd => Tok.val tok = "]"
  | tokenArraySep => Tok.val tok = ","
  | _ => True
  end.
Proof.
  intros H Hin.
  destruct (decide (Tok.typ tok = tokenError)) as [E|Hne]; [rewrite E; exact I|].
  destruct (chain_each _ _ _ (lex_chain text toks H) tok Hin Hne) as (_ & _ & Ht).
  assert (Hs : forall w, bytes (Tok.val tok) = bytes w -> Tok.val tok = w).
  { intros w E. rewrite <- (str_bytes (Tok.val tok)), E. apply str_bytes. }
  destruct (Tok.typ tok); simpl in Ht; auto.
  - destruct Ht as [E|E]; [left|right]; apply Hs, E.
  - destruct Ht as [E|E]; [left|right]; apply Hs, E.
Qed.

Lemma token_words_witness :
  Tok.val (Tok.mk tokenBool 4 "true" []) = "true"
  \/ Tok.val (Tok.mk tokenBool 4 "true" []) = "false".
Proof.
  refine (token_words "a = true"
            [Tok.mk tokenKey 0 "a" []; Tok.mk tokenKeySep 2 "=" [];
             Tok.mk tokenBool 4 "true" []; Tok.mk tokenEOF 8 "" []]
            (Tok.mk tokenBool 4 "true" []) _ _).
  - vm_compute. reflexivity.
  - apply list_elem_of_In. simpl. auto.
Defined.

(** X6: the text of a key token is a letter or underscore followed by
    letters, digits and underscores; that of a key group token is such
    characters and dots between a pair of brackets. *)
Theorem token_names text toks tok :
  Lexer.lex text = Some toks -> tok ∈ toks ->
  (Tok.typ tok = tokenKey ->
     exists c rest, bytes (Tok.val tok) = c :: rest /\ Lexer.isAlpha (b2z c) = true
       /\ Forall (fun d => Lexer.isAlphaNumeric (b2z d) = true) rest)
  /\ (Tok.typ tok = tokenKeyGroup ->
        exists name, bytes (Tok.val tok) = "["%char :: name ++ ["]"%char]
          /\ Forall (fun d => Lexer.isAlphaNumeric (b2z d) = true \/ d = "."%char) name).
Proof.
  intros H Hin.
  split; intros E;
    (destruct (chain_each _ _ _ (lex_chain text toks H) tok Hin) as (_ & _ & Ht);
     [rewrite E; discriminate|]); rewrite E in Ht; exact Ht.
Qed.

Lemma token_names_witness :
  exists name, bytes "[a.b]" = "["%char :: name ++ ["]"%char]
    /\ Forall (fun d => Lexer.isAlphaNumeric (b2z d) = true \/ d = "."%char) name.
Proof.
  refine (proj2 (token_names "[a.b]"
            [Tok.mk tokenKeyGroup 0 "[a.b]" []; Tok.mk tokenEOF 5 "" []]
            (Tok.mk tokenKeyGroup 0 "[a.b]" []) _ _) eq_refl).
  - vm_compute. reflexivity.
  - apply list_elem_of_In. simpl. auto.
Defined.

(** X7: the text of the tokens of literals: a number is an optional sign,
    digits, and an optional point with digits; a datetime has the
    twenty bytes of the layout 0000-00-00T00:00:00Z, a digit for every
    0; a string starts and ends with a quote, and between them every
    quote and every newline follows a backslash. *)
Theorem token_literals text toks tok :
  Lexer.lex text = Some toks -> tok ∈ toks ->
  (Tok.typ tok = tokenNumber -> numberText (bytes (Tok.val tok)))
  /\ (Tok.typ tok = tokenDatetime ->
        Forall2 fitsLayout Lexer.datetimeFormat (bytes (Tok.val tok)))
  /\ (Tok.typ tok = tokenString ->
        exists body, bytes (Tok.val tok) = "034"%char :: body ++ ["034"%char]
          /\ strBody body = true).
Proof.
  intros H Hin.
  split; [|split]; intros E;
    (destruct (chain_each _ _ _ (lex_chain text toks H) tok Hin) as (_ & _ & Ht);
     [rewrite E; discriminate|]); rewrite E in Ht; exact Ht.
Qed.

Lemma token_literals_witness :
  numberText (bytes "-1.5").
Proof.
  refine (proj1 (token_literals "a = -1.5"
            [Tok.mk tokenKey 0 "a" []; Tok.mk tokenKeySep 2 "=" [];
             Tok.mk tokenNumber 4 "-1.5" []; Tok.mk tokenEOF 8 "" []]
            (Tok.mk tokenNumber 4 "-1.5" []) _ _) eq_refl).
  - vm_compute. reflexivity.
  - apply list_elem_of_In. simpl. auto.
Defined.

(** ** The tree that Parse builds *)

Section TreeShape.
Import Tree.

Lemma kept_refl t : kept t t.
Proof. split; reflexivity. Qed.

Lemma kept_trans t t1 t2 : kept t t1 -> kept t1 t2 -> kept t t2.
Proof. intros [H1 H2] [H3 H4]. split; congruence. Qed.

Lemma next_kept t tok t' : next t = Ok (tok, t') -> kept t t'.
Proof.
  unfold next. destruct (peekCount t) as [|n] eqn:E.
  - unfold nextToken. destruct (lex t) as [|x rest]; simpl; [discriminate|].
    rewrite E. simpl. intros H. inversion H; subst. split; reflexivity.
  - simpl. destruct (slot n (setPeek n t)) as [x| | |]; simpl; try discriminate.
    intros H. inversion H; subst. split; reflexivity.
Qed.

Lemma peek_kept t tok t' : peek t = Ok (tok, t') -> kept t t'.
Proof.
  unfold peek. destruct (peekCount t) as [|n] eqn:E.
  - unfold nextToken. simpl. destruct (lex t) as [|x rest]; simpl; [discriminate|].
    intros H. inversion H; subst. split; reflexivity.
  - destruct (slot n t) as [x| | |]; simpl; try discriminate.
    intros H. inversion H; subst. split; reflexivity.
Qed.

Lemma nextNonSpace_loop_kept fuel : forall t tok t',
  nextNonSpace_loop fuel t = Ok (tok, t') -> kept t t'.
Proof.
  induction fuel as [|fuel IH]; intros t tok t' H; [discriminate|].
  simpl in H. destruct (next t) as [[x t1]| | |] eqn:Hn; simpl in H; try discriminate.
  pose proof (next_kept _ _ _ Hn) as Hk.
  destruct (decide (Tok.typ x = tokenSpace)).
  - apply (kept_trans t t1); [exact Hk|]. apply (IH _ _ _ H).
  - inversion H; subst. exact Hk.
Qed.

Lemma nextNonSpace_kept t tok t' : nextNonSpace t = Ok (tok, t') -> kept t t'.
Proof. apply nextNonSpace_loop_kept. Qed.

Lemma peekNonSpace_kept t tok t' : peekNonSpace t = Ok (tok, t') -> kept t t'.
Proof.
  unfold peekNonSpace. destruct (nextNonSpace t) as [[x t1]| | |] eqn:Hn; simpl;
    try discriminate.
  intros H. inversion H; subst. destruct (nextNonSpace_kept _ _ _ Hn) as [H1 H2].
  split; simpl; assumption.
Qed.

Lemma expect_kept e c t tok t' : expect e c t = Ok (tok, t') -> kept t t'.
Proof.
  unfold expect. destruct (nextNonSpace t) as [[x t1]| | |] eqn:Hn; simpl;
    try discriminate.
  destruct (decide (Tok.typ x = e)); [|discriminate].
  intros H. inversion H; subst. apply (nextNonSpace_kept _ _ _ Hn).
Qed.

Lemma forallb_snoc {A} (f : A -> bool) l x :
  forallb f (l ++ [x]) = forallb f l && f x.
Proof. rewrite forallb_app. simpl. rewrite andb_true_r. reflexivity. Qed.

(** value and array build values. *)
Lemma value_array_shape f :
  (forall t n t', value_fuel f t = Ok (n, t') -> isValue n = true /\ kept t t')
  /\ (forall pos acc t n t', array_fuel f pos acc t = Ok (n, t') ->
        forallb isValue acc = true -> isValue n = true /\ kept t t').
Proof.
  induction f as [|f [IHv IHa]]; [split; intros; discriminate|]. split.
  - intros t n t' H. simpl in H.
    destruct (nextNonSpace t) as [[tok t1]| | |] eqn:Hn; simpl in H; try discriminate.
    pose proof (nextNonSpace_kept _ _ _ Hn) as Hk.
    destruct (Tok.typ tok); try discriminate.
    + inversion H; subst. auto.
    + destruct (newNumber _ _); [|discriminate]. inversion H; subst. auto.
    + destruct (strconv.Unquote _); [|discriminate]. inversion H; subst. auto.
    + destruct (time.Parse _); [|discriminate]. inversion H; subst. auto.
    + destruct (peek t1) as [[ptok t2]| | |] eqn:Hp; simpl in H; try discriminate.
      destruct (IHa _ _ _ _ _ H eq_refl) as [Hv Hk2]. split; [exact Hv|].
      apply (kept_trans t t1); [exact Hk|].
      apply (kept_trans t1 t2); [apply (peek_kept _ _ _ Hp)|exact Hk2].
  - intros pos acc t n t' H Hacc. simpl in H.
    destruct (peekNonSpace t) as [[tok t1]| | |] eqn:Hp; simpl in H; try discriminate.
    pose proof (peekNonSpace_kept _ _ _ Hp) as Hk.
    assert (Helem :
      (let? (node, t) := value_fuel f t1 in
       let? (tok2, t) := peekNonSpace t in
       let? (_, t) := (if decide (Tok.typ tok2 = tokenArrayEnd) then Ok (tok2, t)
                       else expect tokenArraySep "array" t) in
       array_fuel f pos (acc ++ [node]) t) = Ok (n, t') ->
      isValue n = true /\ kept t t').
    { intros H'.
      destruct (value_fuel f t1) as [[node t2]| | |] eqn:Hv; simpl in H'; try discriminate.
      destruct (IHv _ _ _ Hv) as [Hnode Hk2].
      destruct (peekNonSpace t2) as [[tok2 t3]| | |] eqn:Hp2; simpl in H'; try discriminate.
      pose proof (peekNonSpace_kept _ _ _ Hp2) as Hk3.
      destruct (if decide (Tok.typ tok2 = tokenArrayEnd) then Ok (tok2, t3)
                else expect tokenArraySep "array" t3) as [[x t4]| | |] eqn:Hx;
        simpl in H'; try discriminate.
      assert (Hk4 : kept t3 t4).
      { destruct (decide (Tok.typ tok2 = tokenArrayEnd)).
        - inversion Hx; subst. apply kept_refl.
        - apply (expect_kept _ _ _ _ _ Hx). }
      destruct (IHa _ _ _ _ _ H') as [Hn Hk5].
      { rewrite forallb_snoc, Hacc, Hnode. reflexivity. }
      split; [exact Hn|].
      apply (kept_trans t t1); [exact Hk|]. apply (kept_trans t1 t2); [exact Hk2|].
      apply (kept_trans t2 t3); [exact Hk3|]. apply (kept_trans t3 t4); assumption. }
    destruct (Tok.typ tok); try (apply Helem; exact H).
    destruct (nextNonSpace t1) as [[x t2]| | |] eqn:Hn; simpl in H; try discriminate.
    inversion H; subst. simpl. split; [exact Hacc|].
    apply (kept_trans t t1); [exact Hk|]. apply (nextNonSpace_kept _ _ _ Hn).
Qed.

Lemma value_shape t n t' : value t = Ok (n, t') -> isValue n = true /\ kept t t'.
Proof. apply (proj1 (value_array_shape _)). Qed.

Lemma entry_shape t n t' : entry t = Ok (n, t') -> isEntry n = true /\ kept t t'.
Proof.
  unfold entry. intros H.
  destruct (nextNonSpace t) as [[tok t1]| | |] eqn:Hn; simpl in H; try discriminate.
  destruct (expect tokenKeySep "key seperator" t1) as [[x t2]| | |] eqn:He; simpl in H;
    try discriminate.
  destruct (value t2) as [[v t3]| | |] eqn:Hv; simpl in H; try discriminate.
  inversion H; subst. destruct (value_shape _ _ _ Hv) as [Hval Hk].
  split; [exact Hval|].
  apply (kept_trans t t1); [apply (nextNonSpace_kept _ _ _ Hn)|].
  apply (kept_trans t1 t2); [apply (expect_kept _ _ _ _ _ He)|exact Hk].
Qed.

Lemma entryGroup_loop_shape fuel : forall acc t es t',
  entryGroup_loop fuel acc t = Ok (es, t') -> forallb isEntry acc = true ->
  forallb isEntry es = true /\ kept t t'.
Proof.
  induction fuel as [|fuel IH]; intros acc t es t' H Hacc; [discriminate|].
  simpl in H.
  destruct (peekNonSpace t) as [[tok t1]| | |] eqn:Hp; simpl in H; try discriminate.
  pose proof (peekNonSpace_kept _ _ _ Hp) as Hk.
  destruct (Tok.typ tok); try (inversion H; subst; auto; fail).
  destruct (entry t1) as [[e t2]| | |] eqn:He; simpl in H; try discriminate.
  destruct (entry_shape _ _ _ He) as [Hen Hk2].
  destruct (IH _ _ _ _ H) as [Hes Hk3].
  { rewrite forallb_snoc, Hacc, Hen. reflexivity. }
  split; [exact Hes|].
  apply (kept_trans t t1); [exact Hk|]. apply (kept_trans t1 t2); assumption.
Qed.

Lemma top_shape t n t' : top t = Ok (n, t') -> isTop n = true /\ kept t t'.
Proof.
  unfold top. intros H.
  destruct (peekNonSpace t) as [[tok t1]| | |] eqn:Hp; simpl in H; try discriminate.
  pose proof (peekNonSpace_kept _ _ _ Hp) as Hk.
  destruct (Tok.typ tok); try discriminate.
  - destruct (nextNonSpace t1) as [[x t2]| | |]; discriminate.
  - unfold entryGroup in H.
    destruct (nextNonSpace t1) as [[x t2]| | |] eqn:Hn; cbn [rbind] in H;
      try discriminate.
    destruct (parseKeyGroup x) as [g| | |]; cbn [rbind] in H; try discriminate.
    destruct (peek t2) as [[ptok t3]| | |] eqn:Hpk; cbn [rbind] in H; try discriminate.
    destruct (entryGroup_loop (S (pending t3)) [] t3) as [[es t4]| | |] eqn:Hl;
      cbn [rbind] in H; try discriminate.
    inversion H; subst. destruct (entryGroup_loop_shape _ _ _ _ _ Hl eq_refl) as [Hes Hk4].
    split; [exact Hes|].
    apply (kept_trans t t1); [exact Hk|].
    apply (kept_trans t1 t2); [apply (nextNonSpace_kept _ _ _ Hn)|].
    apply (kept_trans t2 t3); [apply (peek_kept _ _ _ Hpk)|exact Hk4].
  - destruct (entry_shape _ _ _ H) as [He Hk2]. split.
    + destruct n; try discriminate. exact He.
    + apply (kept_trans t t1); assumption.
Qed.

Lemma parse_loop_shape fuel : forall t t' p nodes,
  parse_loop fuel t = Ok (tt, t') ->
  Root t = Some (p, nodes) -> forallb isTop nodes = true ->
  exists nodes', Root t' = Some (p, nodes') /\ forallb isTop nodes' = true
    /\ text t' = text t.
Proof.
  induction fuel as [|fuel IH]; intros t t' p nodes H Hr Hn; [discriminate|].
  simpl in H.
  destruct (peek t) as [[tok t1]| | |] eqn:Hp; simpl in H; try discriminate.
  destruct (peek_kept _ _ _ Hp) as [Hr1 Ht1].
  destruct (decide (Tok.typ tok = tokenEOF)) as [Heof|Heof].
  - inversion H; subst. exists nodes. rewrite Hr1. auto.
  - destruct (top t1) as [[node t2]| | |] eqn:Htop; simpl in H; try discriminate.
    destruct (top_shape _ _ _ Htop) as [Hnode [Hr2 Ht2]].
    rewrite Hr2, Hr1, Hr in H.
    destruct (IH _ _ p (nodes ++ [node]) H) as (nodes' & Hr' & Hn' & Ht').
    + reflexivity.
    + rewrite forallb_snoc, Hn, Hnode. reflexivity.
    + exists nodes'. split; [exact Hr'|]. split; [exact Hn'|].
      rewrite Ht'. simpl. congruence.
Qed.

Lemma Parse_shape text0 t :
  Parse text0 = Ok t ->
  exists p nodes, Root t = Some (p, nodes) /\ forallb isTop nodes = true
    /\ text t = text0.
Proof.
  unfold Parse. destruct (Lexer.lex text0) as [toks|]; [|discriminate].
  unfold parse.
  destruct (peek (mk None text0 toks 0 zeroToken zeroToken zeroToken 0))
    as [[tok t1]| | |] eqn:Hp; cbn [rbind]; try discriminate.
  destruct (peek_kept _ _ _ Hp) as [_ Ht1].
  destruct (parse_loop (S (pending (setRoot (Some (Tok.pos tok, [])) t1)))
              (setRoot (Some (Tok.pos tok, [])) t1)) as [[[] t2]| | |] eqn:Hl;
    cbn [rbind]; try discriminate.
  intros H. inversion H; subst.
  destruct (parse_loop_shape _ _ _ (Tok.pos tok) [] Hl eq_refl eq_refl)
    as (nodes & Hr & Hn & Ht).
  exists (Tok.pos tok), nodes. split; [exact Hr|]. split; [exact Hn|].
  rewrite Ht. simpl. exact Ht1.
Qed.
End TreeShape.

(** X8: Parse returns for every text: a tree that has its root and its
    text, when the scan came to the end of the input and the tokens
    made a document, or else a syntax error.  It never waits for a
    token that the scanner will not send. *)
Theorem Parse_returns text :
  (exists t p nodes pre last,
     Tree.Parse text = Ok t /\ Tree.Root t = Some (p, nodes) /\ Tree.text t = text
     /\ Tree.Document (Tree.Parse text) = Some nodes
     /\ Lexer.lex text = Some (pre ++ [last]) /\ Tok.typ last = tokenEOF)
  \/ (exists err, Tree.Parse text = Err err /\ Tree.Document (Tree.Parse text) = None).
Proof.
  destruct (lex_total text) as [toks Hlex].
  destruct (lex_shape text toks Hlex) as (pre & last & -> & Hpre & Hlast).
  destruct (Parse_closing text _ pre last Hlex eq_refl Hpre Hlast)
    as [[err He]|(Heof & t & Ht)].
  - right. exists err. rewrite He. split; reflexivity.
  - left. destruct (Parse_shape text t Ht) as (p & nodes & Hr & _ & Htext).
    exists t, p, nodes, pre, last. rewrite Ht. simpl. rewrite Hr.
    repeat split; auto.
Qed.

(** X9: the document of a tree that Parse returns: its top level has
    entries and groups of entries only, and the value of every entry is
    a boolean, a string, a number, a datetime, or an array of such
    values. *)
Theorem Parse_builds_entries_and_groups text t :
  Tree.Parse text = Ok t ->
  exists nodes, Tree.Document (Tree.Parse text) = Some nodes
    /\ forallb isTop nodes = true.
Proof.
  intros H. destruct (Parse_shape text t H) as (p & nodes & Hr & Hn & _).
  exists nodes. rewrite H. simpl. rewrite Hr. auto.
Qed.

Lemma Parse_builds_entries_and_groups_witness :
  exists nodes, Tree.Document (Tree.Parse "a = [1, [2]]") = Some nodes
    /\ forallb isTop nodes = true.
Proof.
  assert (E : exists t, Tree.Parse "a = [1, [2]]" = Ok t)
    by (eexists; vm_compute; reflexivity).
  destruct E as [t E].
  exact (Parse_builds_entries_and_groups "a = [1, [2]]" t E).
Defined.

(** ** The lookahead of the tree builder *)

(** X10: tokens that were read and pushed back are read again, in the order
    in which they came: one with backup, two with backup2, three with
    backup3; after them the token stream goes on where it was. *)
Theorem pushed_back_tokens_are_read_again t a b c rest :
  Tree.peekCount t = 0%nat -> Tree.lex t = a :: b :: c :: rest ->
  exists t1 t2 t3,
    Tree.next t = Ok (a, t1) /\ Tree.next t1 = Ok (b, t2) /\ Tree.next t2 = Ok (c, t3)
    /\ Tree.lex t3 = rest
    /\ Tree.peek (Tree.backup t3) = Ok (c, Tree.backup t3)
    /\ (exists u, Tree.next (Tree.backup t3) = Ok (c, u)
          /\ Tree.lex u = rest /\ Tree.peekCount u = 0%nat)
    /\ (exists u1 u2,
          Tree.next (Lookahead.backup2 b t3) = Ok (b, u1) /\ Tree.next u1 = Ok (c, u2)
          /\ Tree.lex u2 = rest /\ Tree.peekCount u2 = 0%nat)
    /\ (exists u1 u2 u3,
          Tree.next (Lookahead.backup3 a b t3) = Ok (a, u1) /\ Tree.next u1 = Ok (b, u2)
          /\ Tree.next u2 = Ok (c, u3)
          /\ Tree.lex u3 = rest /\ Tree.peekCount u3 = 0%nat).
Proof.
  intros Hp Hl. unfold Tree.next at 1. rewrite Hp. unfold Tree.nextToken. rewrite Hl.
  cbn [rbind]. rewrite Hp. cbn [Tree.slot Tree.peekCount rbind Tree.token0].
  eexists. eexists. eexists. split; [reflexivity|].
  split; [reflexivity|]. split; [reflexivity|]. split; [reflexivity|].
  split; [reflexivity|]. split; [eexists; split; [reflexivity|split; reflexivity]|].
  split; [eexists; eexists; split; [reflexivity|split; [reflexivity|split; reflexivity]]|].
  eexists. eexists. eexists.
  split; [reflexivity|]. split; [reflexivity|]. split; [reflexivity|split; reflexivity].
Qed.

Lemma pushed_back_tokens_are_read_again_witness :
  let a := Tok.mk tokenKey 0 "a" [] in
  let b := Tok.mk tokenKeySep 2 "=" [] in
  let c := Tok.mk tokenNumber 4 "1" [] in
  let t := Tree.mk None "a = 1" [a; b; c; Tok.mk tokenEOF 5 "" []]
             0 Tree.zeroToken Tree.zeroToken Tree.zeroToken 0 in
  exists t1 t2 t3,
    Tree.next t = Ok (a, t1) /\ Tree.next t1 = Ok (b, t2) /\ Tree.next t2 = Ok (c, t3)
    /\ Tree.lex t3 = [Tok.mk tokenEOF 5 "" []]
    /\ Tree.peek (Tree.backup t3) = Ok (c, Tree.backup t3)
    /\ (exists u, Tree.next (Tree.backup t3) = Ok (c, u)
          /\ Tree.lex u = [Tok.mk tokenEOF 5 "" []] /\ Tree.peekCount u = 0%nat)
    /\ (exists u1 u2,
          Tree.next (Lookahead.backup2 b t3) = Ok (b, u1) /\ Tree.next u1 = Ok (c, u2)
          /\ Tree.lex u2 = [Tok.mk tokenEOF 5 "" []] /\ Tree.peekCount u2 = 0%nat)
    /\ (exists u1 u2 u3,
          Tree.next (Lookahead.backup3 a b t3) = Ok (a, u1) /\ Tree.next u1 = Ok (b, u2)
          /\ Tree.next u2 = Ok (c, u3)
          /\ Tree.lex u3 = [Tok.mk tokenEOF 5 "" []] /\ Tree.peekCount u3 = 0%nat).
Proof.
  intros a b c t.
  exact (pushed_back_tokens_are_read_again t a b c [Tok.mk tokenEOF 5 "" []]
           eq_refl eq_refl).
Defined.

(** ** Key groups *)

Section KeyGroups.

Lemma str_app s t : str (s ++ t) = str s +:+ str t.
Proof. induction s as [|c s IH]; simpl; [reflexivity|]. rewrite IH. reflexivity. Qed.

Lemma SplitDot_cons cur s : exists x rest, strings.SplitDot cur s = x :: rest.
Proof.
  revert cur. induction s as [|c s IH]; intros cur; simpl; [eauto|].
  destruct (Ascii.eqb c "."%char); eauto.
Qed.

(** Joining what Split gave gives the text back. *)
Lemma Join_SplitDot s : forall cur,
  Print.Join (strings.SplitDot cur s) "." = str (rev cur ++ s).
Proof.
  induction s as [|c s IH]; intros cur; simpl.
  - rewrite app_nil_r. reflexivity.
  - destruct (Ascii.eqb_spec c "."%char) as [->|Hne].
    + destruct (SplitDot_cons [] s) as (x & rest & E).
      change (Print.Join (str (rev cur) :: strings.SplitDot [] s) ".")
        with (match strings.SplitDot [] s with
              | [] => str (rev cur)
              | _ :: _ => str (rev cur) +:+ "." +:+ Print.Join (strings.SplitDot [] s) "."
              end).
      rewrite E, <- E, (IH []). simpl. rewrite str_app. reflexivity.
    + rewrite (IH (c :: cur)). simpl. rewrite <- app_assoc. reflexivity.
Qed.

Lemma Join_Split s : Print.Join (strings.Split s) "." = s.
Proof. unfold strings.Split. rewrite Join_SplitDot. simpl. apply str_bytes. Qed.

Lemma parseKeyGroup_bracketed tok name :
  bytes (Tok.val tok) = "["%char :: name ++ ["]"%char] ->
  exists g, Tree.parseKeyGroup tok = Ok g
    /\ StringKeys g = strings.Split (str name)
    /\ KeyGroupText g = Tok.val tok
    /\ Print.KeyGroupNode_String g = Tok.val tok.
Proof.
  intros Hb. unfold Tree.parseKeyGroup.
  assert (Hlen : String.length (Tok.val tok) = (2 + length name)%nat).
  { rewrite <- bytes_length, Hb. simpl. rewrite length_app. simpl. lia. }
  assert (Hname : substring 1 (String.length (Tok.val tok) - 2) (Tok.val tok) = str name).
  { rewrite Hlen. replace (2 + length name - 2)%nat with (length name) by lia.
    rewrite <- slice_substring. unfold slice. rewrite Hb. simpl.
    replace (length name - 0)%nat with (length name) by lia.
    rewrite ?drop_0, take_app_length. reflexivity. }
  destruct (Nat.ltb_spec (String.length (Tok.val tok)) 2) as [Hlt|_]; [lia|].
  eexists. split; [reflexivity|]. rewrite Hname.
  assert (Hkeys : forall l p, map Key (map (fun v => newKey (p + String.length v) v) l) = l).
  { induction l as [|x l IH]; intros p; simpl; [reflexivity|]. rewrite IH. reflexivity. }
  split; [apply Hkeys|]. split; [reflexivity|].
  unfold Print.KeyGroupNode_String. cbn [Keys].
  change (map Print.KeyNode_String) with (map Key). rewrite Hkeys, Join_Split.
  rewrite <- (str_bytes (Tok.val tok)), Hb. simpl. rewrite str_app. reflexivity.
Qed.
End KeyGroups.

(** X11: every key group token that the scanner sends is taken apart by
    parseKeyGroup without a slice out of range; the keys of the node
    are the parts of the text between the brackets that the dots
    separate, at least one, and the node prints as the text of the
    token. *)
Theorem key_group_round_trip text toks tok :
  Lexer.lex text = Some toks -> tok ∈ toks -> Tok.typ tok = tokenKeyGroup ->
  exists g name,
    Tree.parseKeyGroup tok = Ok g
    /\ Tok.val tok = "[" +:+ name +:+ "]"
    /\ StringKeys g = strings.Split name
    /\ StringKeys g <> []
    /\ Print.Join (StringKeys g) "." = name
    /\ Print.KeyGroupNode_String g = Tok.val tok.
Proof.
  intros H Hin Ht.
  destruct (chain_each _ _ _ (lex_chain text toks H) tok Hin) as (_ & _ & Htext);
    [rewrite Ht; discriminate|].
  rewrite Ht in Htext. destruct Htext as (name & Hb & _).
  destruct (parseKeyGroup_bracketed tok name Hb) as (g & Hg & Hk & _ & Hs).
  exists g, (str name). split; [exact Hg|]. split.
  - rewrite <- (str_bytes (Tok.val tok)), Hb. simpl. rewrite str_app. reflexivity.
  - split; [exact Hk|]. split.
    + rewrite Hk. unfold strings.Split.
      destruct (SplitDot_cons [] (bytes (str name))) as (x & rest & ->). discriminate.
    + split; [rewrite Hk; apply Join_Split|exact Hs].
Qed.

Lemma key_group_round_trip_witness :
  exists g name,
    Tree.parseKeyGroup (Tok.mk tokenKeyGroup 0 "[a.b]" []) = Ok g
    /\ "[a.b]" = "[" +:+ name +:+ "]"
    /\ StringKeys g = strings.Split name
    /\ StringKeys g <> []
    /\ Print.Join (StringKeys g) "." = name
    /\ Print.KeyGroupNode_String g = "[a.b]".
Proof.
  refine (key_group_round_trip "[a.b]"
            [Tok.mk tokenKeyGroup 0 "[a.b]" []; Tok.mk tokenEOF 5 "" []]
            (Tok.mk tokenKeyGroup 0 "[a.b]" []) _ _ eq_refl).
  - vm_compute. reflexivity.
  - apply list_elem_of_In. simpl. auto.
Defined.

(** ** ErrorContext *)

Section Locations.
Import Lookahead.

Lemma LastIndexNewline_None s :
  LastIndexNewline s = None -> Forall (fun c => c <> newline) s.
Proof.
  induction s as [|c s IH]; simpl; [constructor|].
  destruct (LastIndexNewline s) as [i|]; [discriminate|].
  destruct (Ascii.eqb_spec c "010"%char) as [E|E]; [discriminate|].
  intros _. constructor; [exact E|apply IH; reflexivity].
Qed.

Lemma LastIndexNewline_Some s : forall i,
  LastIndexNewline s = Some i ->
  s !! i = Some newline /\ Forall (fun c => c <> newline) (drop (S i) s).
Proof.
  induction s as [|c s IH]; intros i H; simpl in H; [discriminate|].
  destruct (LastIndexNewline s) as [j|] eqn:E.
  - inversion H; subst. simpl. apply IH. reflexivity.
  - destruct (Ascii.eqb_spec c "010"%char) as [->|Hne]; [|discriminate].
    inversion H; subst. simpl. split; [reflexivity|].
    rewrite drop_0. apply LastIndexNewline_None, E.
Qed.
End Locations.

(** X12: ErrorContext gives the line and the column of a node: the line is
    one more than the newlines before the position of the node, and the
    column the number of bytes between the start of that line and the
    position; the context is the word TODO.  A position beyond the end
    of the text is a slice out of range. *)
Theorem ErrorContext_is_line_and_column t n :
  let pos := Lookahead.Position n in
  let input := bytes (Tree.text t) in
  ((pos <= length input)%nat ->
   exists line col,
     Lookahead.ErrorContext t n = Ok (line, col, "TODO")
     /\ line = (1 + strings.CountNewlines (take pos input))%nat
     /\ (col <= pos)%nat
     /\ Forall (fun c => c <> newline) (take col (drop (pos - col) input))
     /\ ((col = pos /\ line = 1%nat)
         \/ ((col < pos)%nat /\ input !! (pos - col - 1)%nat = Some newline)))
  /\ ((length input < pos)%nat ->
      Lookahead.ErrorContext t n = Crash "slice bounds out of range").
Proof.
  intros pos input. unfold Lookahead.ErrorContext. fold pos.
  assert (Hlen : String.length (Tree.text t) = length input)
    by (unfold input; rewrite bytes_length; reflexivity).
  rewrite Hlen. fold input. split; intros Hpos.
  - destruct (Nat.ltb_spec (length input) pos) as [Hlt|_]; [lia|].
    destruct (Lookahead.LastIndexNewline (take pos input)) as [i|] eqn:E.
    + destruct (LastIndexNewline_Some _ _ E) as [Hi Hafter].
      assert (Hip : (i < pos)%nat).
      { apply lookup_lt_Some in Hi. rewrite length_take in Hi. lia. }
      exists (1 + strings.CountNewlines (take pos input))%nat, (pos - S i)%nat.
      split; [reflexivity|]. split; [reflexivity|]. split; [lia|].
      replace (pos - (pos - S i))%nat with (S i) by lia. split.
      * rewrite take_drop_commute.
        replace (S i + (pos - S i))%nat with pos by lia. exact Hafter.
      * right. split; [lia|].
        replace (S i - 1)%nat with i by lia.
        rewrite lookup_take_lt in Hi by lia. exact Hi.
    + pose proof (LastIndexNewline_None _ E) as Hnone.
      exists (1 + strings.CountNewlines (take pos input))%nat, pos.
      split; [reflexivity|]. split; [reflexivity|]. split; [lia|].
      replace (pos - pos)%nat with 0%nat by lia. rewrite drop_0.
      split; [exact Hnone|]. left. split; [reflexivity|].
      unfold strings.CountNewlines.
      assert (Hz : List.filter (fun c => Ascii.eqb c "010"%char) (take pos input) = []).
      { clear E. induction Hnone as [|c s Hc _ IH]; simpl; [reflexivity|].
        destruct (Ascii.eqb_spec c "010"%char); [contradiction|exact IH]. }
      rewrite Hz. reflexivity.
  - destruct (Nat.ltb_spec (length input) pos) as [_|Hge]; [reflexivity|lia].
Qed.

(** ** The decoder and its targets *)

Section Targets.
Import reflect Decode.

Lemma findStructField_unsettable key fs : forall i,
  findStructField false key i fs = None.
Proof.
  induction fs as [|f fs IH]; intros i; simpl; [reflexivity|].
  rewrite andb_false_r. apply IH.
Qed.

Lemma entry_unsettable fs x path key val st :
  entry (mkValue (TStruct fs) (PVar x path false)) key val st = Ok st.
Proof.
  unfold entry, findField, CanSet. simpl.
  rewrite findStructField_unsettable. reflexivity.
Qed.

Lemma entries_unsettable fs x path es : forall st,
  forallb isEntry es = true ->
  entries (mkValue (TStruct fs) (PVar x path false)) es st = Ok st.
Proof.
  induction es as [|e es IH]; intros st H; simpl; [reflexivity|].
  simpl in H. apply andb_true_iff in H. destruct H as [He Hes].
  destruct e as [| |p k v| | | | |]; try discriminate.
  rewrite entry_unsettable. cbn [rbind]. apply IH, Hes.
Qed.

Lemma top_unsettable fs x path nodes : forall st,
  forallb isTop nodes = true ->
  top (mkValue (TStruct fs) (PVar x path false)) nodes st = Ok st.
Proof.
  induction nodes as [|n nodes IH]; intros st H; simpl; [reflexivity|].
  simpl in H. apply andb_true_iff in H. destruct H as [Hn Hns].
  destruct n as [|p kg ep es0|p k v| | | | |]; try discriminate.
  - destruct (StringKeys kg) as [|k0 ks] eqn:Hk.
    + simpl. rewrite (entries_unsettable fs x path _ st Hn). cbn [rbind].
      apply IH, Hns.
    + unfold descend, findField, CanSet. simpl.
      rewrite findStructField_unsettable. reflexivity.
  - rewrite entry_unsettable. cbn [rbind]. apply IH, Hns.
Qed.

End Targets.

(** X13: Unmarshal with a struct itself as the target, not a pointer to it:
    no field of it can be set, so every document that parses is decoded
    into nothing, and Unmarshal returns without an error. *)
Theorem struct_passed_by_value_is_left_alone data t fs val maps :
  Tree.Parse data = Ok t ->
  Decode.Unmarshal data (Decode.mkTarget false (reflect.TStruct fs) val maps)
  = Ok (reflect.mkState [val] maps).
Proof.
  intros H. unfold Decode.Unmarshal. rewrite H.
  destruct (Parse_shape data t H) as (p & nodes & Hr & Hn & _).
  rewrite Hr. simpl. apply top_unsettable, Hn.
Qed.

Lemma struct_passed_by_value_is_left_alone_witness :
  Decode.Unmarshal Examples.doc3
    (Decode.mkTarget false Examples.Rc (reflect.zero Examples.Rc) [])
  = Ok (reflect.mkState [reflect.zero Examples.Rc] []).
Proof.
  assert (E : exists t, Tree.Parse Examples.doc3 = Ok t)
    by (eexists; vm_compute; reflexivity).
  destruct E as [t E].
  exact (struct_passed_by_value_is_left_alone Examples.doc3 t _ _ [] E).
Defined.

Section DynamicMaps.
Import reflect Decode.

Lemma dynamicOf_value node :
  value (TInterface 0) (VInterface None) node = Ok (dynamicOf node).
Proof.
  unfold dynamicOf.
  destruct (value_dynamic_total node (VInterface None)) as [x Hx].
  rewrite Hx. reflexivity.
Qed.

(** An entry into a map of empty interfaces: the value is decoded into
    a new variable and put under the key. *)
Lemma entry_into_map a m key val st :
  maps st !! a = Some m ->
  entry (mkValue mapStringInterface (PMap a)) key val st
  = Ok (mkState (vars st ++ [dynamicOf val])
          (<[a := <[Key key := dynamicOf val]> m]> (maps st))).
Proof.
  intros Hm. unfold entry, findField, initMap, New. simpl.
  unfold valueAt, load, store. simpl.
  rewrite (list_lookup_middle (vars st) [] (VInterface None) _ eq_refl). simpl.
  rewrite dynamicOf_value. cbn [rbind].
  replace (<[length (vars st):=dynamicOf val]> (vars st ++ [VInterface None]))
    with (vars st ++ [dynamicOf val]).
  2:{ rewrite <- (Nat.add_0_r (length (vars st))) at 1.
      rewrite insert_app_r. reflexivity. }
  cbn [vars maps].
  rewrite (list_lookup_middle (vars st) [] (dynamicOf val) _ eq_refl). simpl.
  unfold SetMapIndex. simpl. rewrite Hm. reflexivity.
Qed.

Lemma entries_into_map a es : forall m st,
  maps st !! a = Some m ->
  forallb isEntry es = true ->
  exists vs,
    entries (mkValue mapStringInterface (PMap a)) es st
    = Ok (mkState (vars st ++ vs) (<[a := foldl put m es]> (maps st))).
Proof.
  induction es as [|e es IH]; intros m st Hm H; simpl.
  - exists []. rewrite app_nil_r, list_insert_id by exact Hm.
    destruct st; reflexivity.
  - simpl in H. apply andb_true_iff in H. destruct H as [He Hes].
    destruct e as [| |p k v| | | | |]; try discriminate.
    rewrite (entry_into_map a m k v st Hm). cbn [rbind].
    pose proof (lookup_lt_Some _ _ _ Hm) as Hlt.
    destruct (IH (<[Key k := dynamicOf v]> m)
                 (mkState (vars st ++ [dynamicOf v])
                    (<[a := <[Key k := dynamicOf v]> m]> (maps st))))
      as [vs Hvs]; [|exact Hes|].
    + simpl. apply list_lookup_insert_eq. exact Hlt.
    + exists (dynamicOf v :: vs). rewrite Hvs. simpl.
      rewrite list_insert_insert_eq, <- app_assoc. reflexivity.
Qed.

Lemma top_entries v es : forall st,
  forallb isEntry es = true -> top v es st = entries v es st.
Proof.
  induction es as [|e es IH]; intros st H; simpl; [reflexivity|].
  simpl in H. apply andb_true_iff in H. destruct H as [He Hes].
  destruct e as [| |p k x| | | | |]; try discriminate.
  destruct (entry v k x st); cbn [rbind]; auto.
Qed.

Lemma foldl_put_lookup k es : forall m,
  foldl put m es !! k = latest k es (m !! k).
Proof.
  induction es as [|e es IH]; intros m; simpl; [reflexivity|].
  rewrite IH. destruct e as [| |p key x| | | | |]; simpl; try reflexivity.
  destruct (bool_decide (Key key = k)) eqn:E.
  - apply bool_decide_eq_true in E. subst k. rewrite lookup_insert_eq. reflexivity.
  - apply bool_decide_eq_false in E. rewrite lookup_insert_ne by exact E. reflexivity.
Qed.

End DynamicMaps.

(** X14: a document of entries only, decoded into an empty interface
    (var x interface{}; Unmarshal(doc, &x)): the target holds a new
    map[string]interface{}, in which every key of an entry has the
    value of the last entry with that key, and no other key is
    present. *)
Theorem entries_make_a_dynamic_map data nodes :
  Tree.Document (Tree.Parse data) = Some nodes ->
  forallb isEntry nodes = true ->
  let r := Decode.Unmarshal data Examples.dynamic in
  Decode.target r = Some (Examples.imap 0)
  /\ forall k, Decode.mapGet r 0 k = latest k nodes None.
Proof.
  intros Hd Hn. unfold Decode.Unmarshal.
  destruct (Tree.Parse data) as [t| | |] eqn:H; try discriminate.
  destruct (Parse_shape data t H) as (p & nodes' & Hr & _ & _).
  simpl in Hd. rewrite Hr in *. simpl in Hd. inversion Hd; subst nodes'.
  simpl. rewrite top_entries by exact Hn.
  destruct (entries_into_map 0 nodes ∅
              (reflect.mkState [reflect.VInterface None] [∅]) eq_refl Hn)
    as [vs Hvs].
  rewrite Hvs. simpl. split; [reflexivity|].
  intros k. rewrite foldl_put_lookup, lookup_empty. reflexivity.
Qed.

Lemma entries_make_a_dynamic_map_witness :
  Decode.mapGet (Decode.Unmarshal ("a = 1" +:+ nl +:+ "a = true" +:+ nl) Examples.dynamic)
    0 "a"
  = Some (Examples.iface reflect.TBool (reflect.VBool true)).
Proof.
  exact (proj2 (entries_make_a_dynamic_map
                  ("a = 1" +:+ nl +:+ "a = true" +:+ nl)
                  [EntryNode 0 (newKey 0 "a") (Number (mkNumber 4 true false 1 0%Q "1"));
                   EntryNode 6 (newKey 6 "a") (Bool_ (newBool 10 true))]
                  eq_refl eq_refl) "a").
Defined.

Section StructFields.
Import reflect Decode.




End StructFields.



(** X16: a number of the document and the numeric targets: a literal that
    strconv.ParseInt reads goes into a signed integer of any width,
    wrapped to the width, and not into a float; a literal that only
    strconv.ParseFloat reads goes into a float and not into an integer;
    no number goes into an unsigned integer. *)
Theorem number_goes_into_one_kind_of_target pos text n bits old :
  newNumber pos text = inl n ->
  (forall i, strconv.ParseInt text = Some i ->
     Decode.value (reflect.TInt bits) old (Number n) = Ok (reflect.VInt (reflect.wrap bits i))
     /\ Decode.value (reflect.TFloat bits) old (Number n)
        = Err (Decode.UnmarshalTypeError "float" (reflect.TFloat bits)))
  /\ (strconv.ParseInt text = None ->
      exists f, strconv.ParseFloat text = Some f
        /\ Decode.value (reflect.TFloat bits) old (Number n) = Ok (reflect.VFloat f)
        /\ Decode.value (reflect.TInt bits) old (Number n)
           = Err (Decode.UnmarshalTypeError "int" (reflect.TInt bits)))
  /\ Decode.value (reflect.TUint bits) old (Number n)
     = Err (Decode.UnmarshalTypeError "number" (reflect.TUint bits)).
Proof.
  intros H.
  destruct (newNumberWith_flags _ _ _ _ _ H)
    as [(Hi & Hf & Hp)|(Hi & Hf & Hp & Hq)]; simpl; rewrite Hi, Hf.
  - split; [|split; [|reflexivity]].
    + intros i Hpi. rewrite Hp in Hpi. inversion Hpi. split; reflexivity.
    + intros Hn. rewrite Hn in Hp. discriminate.
  - split; [|split; [|reflexivity]].
    + intros i Hpi. rewrite Hp in Hpi. discriminate.
    + intros _. exists (Float n). repeat split; auto.
Qed.

Lemma number_goes_into_one_kind_of_target_witness :
  Decode.value (reflect.TInt 8) (reflect.VInt 0)
    (Number (mkNumber 4 true false 300 0%Q "300"))
  = Ok (reflect.VInt 44)
  /\ Decode.value (reflect.TFloat 8) (reflect.VInt 0)
       (Number (mkNumber 4 true false 300 0%Q "300"))
     = Err (Decode.UnmarshalTypeError "float" (reflect.TFloat 8)).
Proof.
  exact (proj1 (number_goes_into_one_kind_of_target 4%nat "300"
                  (mkNumber 4 true false 300 0%Q "300") 8 (reflect.VInt 0) eq_refl)
               300 eq_refl).
Defined.

Section WellTyped.
Import reflect Decode.

Lemma forallb_all {A} (f : A -> bool) l :
  forallb f l = true <-> Forall (fun x => f x = true) l.
Proof.
  induction l as [|a l IH]; simpl.
  - split; auto.
  - rewrite andb_true_iff, IH. split.
    + intros [? ?]. constructor; auto.
    + intros H. inversion H; auto.
Qed.

Lemma zero_fits : forall t, fits (zero t) t = true.
Proof.
  fix IHt 1. intros t. destruct t; simpl; try reflexivity.
  - induction fields as [|f fs IH]; simpl; [reflexivity|].
    destruct f as [nm tg ex ft]. simpl. rewrite (IHt ft). exact IH.
  - rewrite length_replicate, Nat.eqb_refl. simpl.
    apply forallb_all, Forall_replicate, IHt.
Qed.

Lemma elements_sound elem nodes :
  Forall (fun n => forall t o, fits o t = true -> sound t (value t o n)) nodes ->
  forall i vals,
    Forall (fun x => fits x elem = true) vals ->
    (i + length nodes <= length vals)%nat ->
    match elements value elem i nodes vals with
    | Ok vs => length vs = length vals /\ Forall (fun x => fits x elem = true) vs
    | Err e => ownError e
    | _ => False
    end.
Proof.
  induction 1 as [|n nodes Hn _ IH]; intros i vals Hv Hlen; simpl in *; [auto|].
  destruct (lookup_lt_is_Some_2 vals i) as [o Ho]; [lia|].
  rewrite Ho.
  assert (Hfo : fits o elem = true).
  { rewrite Forall_lookup in Hv. exact (Hv i o Ho). }
  specialize (Hn elem o Hfo). unfold sound in Hn.
  destruct (value elem o n) as [x| | |]; cbn [rbind]; auto.
  specialize (IH (S i) (<[i:=x]> vals)).
  rewrite length_insert in IH.
  apply IH; [|lia].
  apply Forall_insert; auto.
Qed.

Lemma value_sound node : forall t old,
  fits old t = true -> sound t (value t old node).
Proof.
  induction node as [p ns _|p kg ep es _|p k v _|n|n|n|n|p ns IH]
    using Node_nested_ind; intros t old Hfit; simpl; auto.
  - destruct t as [| | | | |[|m]| | | | | |]; simpl; auto.
  - destruct t as [| | | | |[|m]| | | | | |]; simpl; auto.
  - destruct t as [| | | | |[|m]| | | | | |]; simpl; auto.
    + destruct (IsInt n); simpl; auto.
    + destruct (IsFloat n); simpl; auto.
    + destruct (IsInt n); simpl; auto.
  - destruct t as [| | | | |[|m]| | | | | |]; simpl; auto.
  - destruct t as [| | | | |[|m]| | | |elem|len elem|]; simpl; auto.
    + pose proof (elements_sound (TInterface 0) ns IH 0
                    (replicate (length ns) (VInterface None))) as H.
      destruct (elements value (TInterface 0) 0 ns
                  (replicate (length ns) (VInterface None))) as [vs| | |];
        cbn [rbind]; simpl.
      * apply forallb_all, H; [|rewrite length_replicate; lia].
        apply Forall_replicate. reflexivity.
      * apply H; [|rewrite length_replicate; lia].
        apply Forall_replicate. reflexivity.
      * apply H; [|rewrite length_replicate; lia].
        apply Forall_replicate. reflexivity.
      * apply H; [|rewrite length_replicate; lia].
        apply Forall_replicate. reflexivity.
    + destruct old; try discriminate; try (destruct dyn as [[? ?]|]; discriminate).
      simpl in Hfit.
      pose proof (proj1 (forallb_all _ _) Hfit) as Hall.
      set (vals := if (length elems <? length ns)%nat
                   then elems ++ replicate (length ns - length elems) (zero elem)
                   else elems).
      assert (Hv : Forall (fun x => fits x elem = true) vals
                   /\ (length ns <= length vals)%nat).
      { unfold vals. destruct (length elems <? length ns)%nat eqn:E.
        - apply Nat.ltb_lt in E. split.
          + apply Forall_app. split; [exact Hall|].
            apply Forall_replicate, zero_fits.
          + rewrite length_app, length_replicate. lia.
        - apply Nat.ltb_ge in E. auto. }
      destruct Hv as [Hv Hl].
      pose proof (elements_sound elem ns IH 0 vals Hv Hl) as H.
      destruct (elements value elem 0 ns vals) as [vs| | |]; cbn [rbind]; simpl; auto.
      apply forallb_all, H.
    + destruct old; try discriminate; try (destruct dyn as [[? ?]|]; discriminate).
      simpl in Hfit.
      apply andb_true_iff in Hfit. destruct Hfit as [Hlen Hall].
      apply Nat.eqb_eq in Hlen. apply forallb_all in Hall.
      destruct (length elems <? length ns)%nat eqn:E; simpl; [exact I|].
      apply Nat.ltb_ge in E.
      pose proof (elements_sound elem ns IH 0 elems Hall E) as H.
      destruct (elements value elem 0 ns elems) as [vs| | |]; cbn [rbind]; simpl; auto.
      destruct H as [Hl Hf]. rewrite Hl, Hlen, Nat.eqb_refl. simpl.
      apply forallb_all, Hf.
Qed.

End WellTyped.

(** X17: d.value on a target that holds a value of its type: it either
    leaves a value of that type (a fixed array keeps its length, the
    elements of a sequence their type), or fails with an error of the
    decoder, which Unmarshal returns; it never indexes out of range or
    panics otherwise. *)
Theorem value_keeps_the_type_or_fails t old node :
  fits old t = true ->
  match Decode.value t old node with
  | Ok new => fits new t = true
  | Err e => ownError e
  | Crash _ | OutOfFuel => False
  end.
Proof. intros H. exact (value_sound node t old H). Qed.

Lemma value_keeps_the_type_or_fails_witness :
  fits (reflect.VArray [reflect.VInt 7; reflect.VInt 2])
    (reflect.TArray 2 (reflect.TInt 64)) = true.
Proof.
  exact (value_keeps_the_type_or_fails (reflect.TArray 2 (reflect.TInt 64))
           (reflect.VArray [reflect.VInt 1; reflect.VInt 2])
           (ArrayNode 4 [Number (mkNumber 5 true false 7 0%Q "7")]) eq_refl).
Defined.

Section DynamicValues.
Import reflect Decode.

Lemma elements_dynamic nodes :
  Forall (fun n => forall o x, value (TInterface 0) o n = Ok x -> isDynamic x = true) nodes ->
  forall i vals vs,
    elements value (TInterface 0) i nodes vals = Ok vs ->
    (forall k x, (k < i)%nat -> vals !! k = Some x -> isDynamic x = true) ->
    length vals = (i + length nodes)%nat ->
    Forall (fun x => isDynamic x = true) vs.
Proof.
  induction 1 as [|n nodes Hn _ IH]; intros i vals vs H Hlow Hlen; simpl in *.
  - inversion H; subst vs. apply Forall_lookup. intros k x Hk.
    apply (Hlow k x); [|exact Hk]. apply lookup_lt_Some in Hk. lia.
  - destruct (vals !! i) as [o|] eqn:Ho; [|discriminate].
    destruct (value (TInterface 0) o n) as [x| | |] eqn:Hx; cbn [rbind] in H;
      try discriminate.
    apply (IH (S i) (<[i:=x]> vals) vs H).
    + intros k y Hk Hy. destruct (decide (k = i)) as [->|Hne].
      * rewrite list_lookup_insert_eq in Hy by (eapply lookup_lt_Some; eauto).
        inversion Hy; subst y. eapply Hn; eauto.
      * rewrite list_lookup_insert_ne in Hy by congruence.
        apply (Hlow k y); [lia|exact Hy].
    + rewrite length_insert. lia.
Qed.

Lemma value_dynamic node :
  isValue node = true ->
  forall o x, value (TInterface 0) o node = Ok x -> isDynamic x = true.
Proof.
  induction node as [p ns _|p kg ep es _|p k v _|n|n|n|n|p ns IH]
    using Node_nested_ind; intros Hv o x H; simpl in *; try discriminate.
  - inversion H. reflexivity.
  - inversion H. reflexivity.
  - destruct (IsInt n); inversion H; reflexivity.
  - inversion H. reflexivity.
  - destruct (elements value (TInterface 0) 0 ns (replicate (length ns) (VInterface None)))
      as [vs| | |] eqn:E; cbn [rbind] in H; try discriminate.
    inversion H; subst x. simpl. apply forallb_all.
    apply (elements_dynamic ns) with (i := 0%nat) (vals := replicate (length ns) (VInterface None)).
    + apply forallb_all in Hv. rewrite Forall_forall in IH, Hv.
      apply Forall_forall. intros n Hn. apply IH; auto.
    + exact E.
    + intros k y Hk. lia.
    + rewrite length_replicate. reflexivity.
Qed.

End DynamicValues.

(** X18: every value of a document goes into an empty interface: d.value
    does not fail, whatever the interface held, and leaves in it a
    bool, a string, an int64, a float64, a time.Time, or a
    []interface{} whose elements are again of these. *)
Theorem value_into_empty_interface node old :
  isValue node = true ->
  exists x, Decode.value (reflect.TInterface 0) old node = Ok x /\ isDynamic x = true.
Proof.
  intros H. destruct (value_dynamic_total node old) as [x Hx].
  exists x. split; [exact Hx|]. eapply value_dynamic; eauto.
Qed.

Lemma value_into_empty_interface_witness :
  exists x,
    Decode.value (reflect.TInterface 0) (reflect.VInterface None)
      (ArrayNode 4 [Number (mkNumber 5 true false 1 0%Q "1");
                    Bool_ (newBool 8 true)]) = Ok x
    /\ isDynamic x = true.
Proof.
  exact (value_into_empty_interface
           (ArrayNode 4 [Number (mkNumber 5 true false 1 0%Q "1"); Bool_ (newBool 8 true)])
           (reflect.VInterface None) eq_refl).
Defined.

Section DynamicTarget.
Import reflect Decode.

(** The cursor of a decode into an empty interface is always one of the
    map objects. *)
Lemma entries_map_total a es st :
  (a < length (maps st))%nat ->
  forallb isEntry es = true ->
  exists st', entries (mkValue mapStringInterface (PMap a)) es st = Ok st'
    /\ length (maps st') = length (maps st)
    /\ (length (vars st) <= length (vars st'))%nat.
Proof.
  intros Ha Hes.
  destruct (lookup_lt_is_Some_2 (maps st) a Ha) as [m Hm].
  destruct (entries_into_map a es m st Hm Hes) as [vs Hvs].
  eexists. split; [exact Hvs|]. simpl.
  rewrite length_insert, length_app. split; lia.
Qed.

Lemma descend_map_total keys : forall a st,
  (a < length (maps st))%nat ->
  exists a' st',
    descend keys (mkValue mapStringInterface (PMap a)) st
    = Ok (mkValue mapStringInterface (PMap a'), true, st')
    /\ (a' < length (maps st'))%nat
    /\ vars st' = vars st.
Proof.
  induction keys as [|k keys IH]; intros a st Ha; simpl.
  - exists a, st. auto.
  - unfold findField, initMap, MakeMap, SetMapIndex. simpl.
    destruct (lookup_lt_is_Some_2 (maps st ++ [∅]) a) as [m Hm].
    { rewrite length_app. simpl. lia. }
    rewrite Hm. simpl.
    destruct (IH (length (maps st))
                 (mkState (vars st)
                    (<[a:=<[k:=VInterface (Some (mapStringInterface,
                                                 VMap (Some (length (maps st)))))]> m]>
                       (maps st ++ [∅])))) as (a' & st' & Hd & Ha' & Hv).
    { simpl. rewrite length_insert, length_app. simpl. lia. }
    exists a', st'. rewrite Hd. auto.
Qed.

Lemma top_map_total nodes : forall a st,
  (a < length (maps st))%nat ->
  forallb isTop nodes = true ->
  exists st', top (mkValue mapStringInterface (PMap a)) nodes st = Ok st'
    /\ (length (vars st) <= length (vars st'))%nat.
Proof.
  induction nodes as [|n nodes IH]; intros a st Ha H; simpl.
  - exists st. auto.
  - simpl in H. apply andb_true_iff in H. destruct H as [Hn Hns].
    destruct n as [|p kg ep es|p k v| | | | |]; try discriminate.
    + destruct (descend_map_total (StringKeys kg) a st Ha) as (a' & st1 & Hd & Ha' & Hv).
      rewrite Hd. cbn [rbind]. simpl.
      destruct (entries_map_total a' es st1 Ha' Hn) as (st2 & He & Hm & Hl).
      rewrite He. cbn [rbind].
      destruct (IH a' st2) as (st3 & Ht & Hl3); [lia|exact Hns|].
      exists st3. split; [exact Ht|]. rewrite Hv in Hl. lia.
    + destruct (entries_map_total a [EntryNode p k v] st Ha) as (st1 & He & Hm & Hl).
      { simpl in *. rewrite Hn. reflexivity. }
      simpl in He.
      destruct (entry (mkValue mapStringInterface (PMap a)) k v st) as [st1'| | |];
        cbn [rbind] in *; try discriminate.
      inversion He; subst st1'.
      destruct (IH a st1) as (st3 & Ht & Hl3); [lia|exact Hns|].
      exists st3. split; [exact Ht|]. lia.
Qed.

End DynamicTarget.

(** X19: Unmarshal into an empty interface (var x interface{};
    Unmarshal(doc, &x)) returns without an error for every document
    that parses, and x then holds a map[string]interface{}: the map
    that was made for the decode. *)
Theorem empty_interface_takes_every_document data t :
  Tree.Parse data = Ok t ->
  exists st, Decode.Unmarshal data Examples.dynamic = Ok st
    /\ reflect.vars st !! 0%nat = Some (Examples.imap 0).
Proof.
  intros H. unfold Decode.Unmarshal. rewrite H.
  destruct (Parse_shape data t H) as (p & nodes & Hr & Hn & _).
  rewrite Hr. simpl.
  destruct (top_map_total nodes 0 (reflect.mkState [reflect.VInterface None] [∅]))
    as (st' & Ht & Hl); [simpl; lia|exact Hn|].
  rewrite Ht. cbn [rbind]. unfold reflect.store. simpl.
  destruct (reflect.vars st') as [|r rest] eqn:Hv; [simpl in Hl; lia|].
  simpl. eexists. split; [reflexivity|]. reflexivity.
Qed.

Lemma empty_interface_takes_every_document_witness :
  exists st, Decode.Unmarshal Examples.twice Examples.dynamic = Ok st
    /\ reflect.vars st !! 0%nat = Some (Examples.imap 0).
Proof.
  assert (E : exists t, Tree.Parse Examples.twice = Ok t)
    by (eexists; vm_compute; reflexivity).
  destruct E as [t E].
  exact (empty_interface_takes_every_document Examples.twice t E).
Defined.

(** ** The key state, forwards *)

Section KeyState.
Import Lexer.

Lemma after_entered n : forall st l pre l' st',
  entered st l -> after n st l = (pre, l', Some st') -> entered st' l'.
Proof.
  induction n as [|n IH]; intros st l pre l' st' He Ha.
  - simpl in Ha. inversion Ha; subst. exact He.
  - rewrite after_S in Ha. pose proof (call_ok st l He) as Hok.
    destruct (call st l) as [[out l1] [st1|]]; [|discriminate].
    destruct Hok as (_ & _ & _ & He1).
    destruct (after n st1 l1) as [[out' l2] nxt'] eqn:E. inversion Ha; subst.
    exact (IH st1 l1 out' l' st' He1 E).
Qed.

Lemma isAlpha_range r :
  isAlpha r = true -> r = 95 \/ 97 <= r <= 122 \/ 65 <= r <= 90.
Proof.
  unfold isAlpha.
  change (ch "_") with 95. change (ch "a") with 97. change (ch "z") with 122.
  change (ch "A") with 65. change (ch "Z") with 90.
  rewrite !orb_true_iff, !andb_true_iff, Z.eqb_eq, !Z.leb_le. lia.
Qed.

(** The start state in front of a letter or an underscore. *)
Lemma lexStart_alpha l k t :
  unread l = k :: t -> isAlpha (b2z k) = true ->
  lexStart l = ([], moved 1 1 l, Some lexKeyFn).
Proof.
  intros Hu Hk. pose proof (isAlpha_range _ Hk) as Hr.
  unfold lexStart. rewrite (next_ascii l k t Hu) by lia.
  assert (E1 : (b2z k =? eof) = false) by (apply Z.eqb_neq; unfold eof; lia).
  assert (E2 : isDash (b2z k) = false).
  { unfold isDash. change (ch "-") with 45. apply Z.eqb_neq. lia. }
  assert (E3 : isNewLine (b2z k) = false).
  { unfold isNewLine. change (ch "010") with 10. change (ch "013") with 13.
    apply orb_false_iff. split; apply Z.eqb_neq; lia. }
  assert (E4 : isSpace (b2z k) = false).
  { unfold isSpace. change (ch " ") with 32. change (ch "009") with 9.
    apply orb_false_iff. split; apply Z.eqb_neq; lia. }
  assert (E5 : (b2z k =? commentStart) = false).
  { unfold commentStart. change (ch "#") with 35. apply Z.eqb_neq. lia. }
  assert (E6 : (b2z k =? keyGroupStart) = false).
  { unfold keyGroupStart. change (ch "[") with 91. apply Z.eqb_neq. lia. }
  rewrite E1, E2, E3, E4, E5, E6, Hk. reflexivity.
Qed.

(** The loop of the key state over a run of letters, digits and
    underscores, in front of a byte that is none of them. *)
Lemma lexKey_loop_run fuel : forall key l c t,
  unread l = key ++ c :: t ->
  Forall (fun d => isAlphaNumeric (b2z d) = true) key ->
  b2z c < 128 -> isAlphaNumeric (b2z c) = false ->
  (length key <= fuel)%nat ->
  lexKey_loop fuel l
  = (if isSpace (b2z c) then None else Some (b2z c), moved (length key) 1 l).
Proof.
  induction fuel as [|fuel IH]; intros key l c t Hu Hk Hc Hn Hf.
  - destruct key; [|simpl in Hf; lia]. simpl in Hu. simpl.
    rewrite (next_ascii l c t Hu Hc), Hn. rewrite backup_moved by lia.
    destruct (isSpace (b2z c)); reflexivity.
  - destruct key as [|d key]; simpl in Hu.
    + simpl. rewrite (next_ascii l c t Hu Hc), Hn. rewrite backup_moved by lia.
      destruct (isSpace (b2z c)); reflexivity.
    + inversion Hk as [|? ? Hd Hk']; subst.
      pose proof (isAlphaNumeric_low _ Hd) as Hlow.
      simpl. rewrite (next_ascii l d _ Hu) by lia. rewrite Hd.
      rewrite (IH key (moved 1 1 l) c t); auto.
      * rewrite moved_moved. reflexivity.
      * rewrite unread_moved, Hu. reflexivity.
      * simpl in Hf. lia.
Qed.

Lemma lexKey_run l key c t :
  unread l = key ++ c :: t ->
  Forall (fun d => isAlphaNumeric (b2z d) = true) key ->
  b2z c < 128 -> isAlphaNumeric (b2z c) = false ->
  lexKey l
  = if isSpace (b2z c)
    then send tokenKey (moved (length key) 1 l) (Some lexKeySepFn)
    else errorf (moved (length key) 1 l) "bad keyname %#U" [ArgRune (b2z c)].
Proof.
  intros Hu Hk Hc Hn. unfold lexKey.
  rewrite (lexKey_loop_run _ key l c t Hu Hk Hc Hn).
  - destruct (isSpace (b2z c)); reflexivity.
  - pose proof (unread_length l) as Hl. rewrite Hu, length_app in Hl. lia.
Qed.

End KeyState.

(** X20: a key of a document: a letter or an underscore, then letters,
    digits and underscores.  When a space or a tab follows it, the
    scanner sends the key as a token and goes on to the separator;
    when any other byte follows it, the equals sign included, the scan
    ends with the error token bad keyname and Parse fails. *)
Theorem key_must_be_followed_by_a_space text n pre l k key c rest :
  Lexer.after n Lexer.lexStartFn (Lexer.init text) = (pre, l, Some Lexer.lexStartFn) ->
  Lexer.unread l = k :: key ++ c :: rest ->
  Lexer.isAlpha (b2z k) = true ->
  Forall (fun d => Lexer.isAlphaNumeric (b2z d) = true) key ->
  b2z c < 128 -> Lexer.isAlphaNumeric (b2z c) = false ->
  (Lexer.isSpace (b2z c) = true ->
     exists l',
       Lexer.after (S (S n)) Lexer.lexStartFn (Lexer.init text)
       = (pre ++ [Tok.mk tokenKey (Lexer.pos l) (str (k :: key)) []], l',
          Some Lexer.lexKeySepFn)
       /\ Lexer.unread l' = c :: rest)
  /\ (Lexer.isSpace (b2z c) = false ->
      Lexer.lex text
      = Some (pre ++ [Tok.mk tokenError (Lexer.pos l) "bad keyname %#U" [ArgRune (b2z c)]])
      /\ (exists err, Tree.Parse text = Err err)
      /\ Tree.Document (Tree.Parse text) = None).
Proof.
  intros Ha Hu Hk Hkey Hc Hn.
  assert (He : entered Lexer.lexStartFn l).
  { apply (after_entered n Lexer.lexStartFn (Lexer.init text) pre); [|exact Ha].
    split; simpl; [lia|reflexivity]. }
  destruct He as [Hb Hs]. simpl in Hs.
  pose proof (lexStart_alpha l k _ Hu Hk) as H1.
  pose proof (after_step n _ _ _ _ _ _ _ _ Ha H1) as Ha1.
  rewrite app_nil_r in Ha1.
  assert (Hu1 : Lexer.unread (Lexer.moved 1 1 l) = key ++ c :: rest).
  { rewrite unread_moved, Hu. reflexivity. }
  pose proof (lexKey_run _ key c rest Hu1 Hkey Hc Hn) as H2.
  rewrite moved_moved in H2.
  split; intros Hsp; rewrite Hsp in H2.
  - eexists. split.
    + rewrite (after_step (S n) _ _ _ _ _ _ _ _ Ha1 H2).
      unfold Lexer.send, Lexer.emit, Lexer.text. simpl. rewrite ?Hs.
      replace (Lexer.pos l + S (length key) - Lexer.pos l)%nat
        with (S (length key)) by lia.
      change (drop (Lexer.pos l) (Lexer.input l)) with (Lexer.unread l).
      rewrite Hu. simpl. rewrite take_app_length. reflexivity.
    + unfold Lexer.unread in *. simpl. rewrite <- drop_drop, Hu. simpl.
      rewrite drop_app_length. reflexivity.
  - unfold Lexer.errorf in H2. simpl in H2. rewrite Hs in H2.
    exact (Parse_after text (S n) pre Lexer.lexKeyFn _ _ _ Ha1 H2 eq_refl).
Qed.

Lemma key_must_be_followed_by_a_space_witness :
  Lexer.lex "a=1"
  = Some ([] ++ [Tok.mk tokenError 0 "bad keyname %#U" [ArgRune (b2z "="%char)]])
  /\ (exists err, Tree.Parse "a=1" = Err err)
  /\ Tree.Document (Tree.Parse "a=1") = None.
Proof.
  exact (proj2 (key_must_be_followed_by_a_space "a=1" 0%nat [] (Lexer.init "a=1")
                  "a"%char [] "="%char ["1"%char]
                  eq_refl eq_refl eq_refl ltac:(constructor) eq_refl eq_refl)
               eq_refl).
Defined.

(** ** Blank lines *)

Section TextOfTheTree.
Import Tree.
Variable s : string.

Lemma alike_bind {A B} (r r' : M A) (k k' : A * Tree -> M B) :
  alike s r r' ->
  (forall a t, alike s (k (a, t)) (k' (a, retext s t))) ->
  alike s (rbind r k) (rbind r' k').
Proof.
  intros H Hk. destruct r as [[a t]|e|w|]; simpl in *.
  - rewrite H. simpl. apply Hk.
  - destruct H as [line ->]. simpl. eauto.
  - rewrite H. reflexivity.
  - rewrite H. reflexivity.
Qed.

Lemma errorf_alike {A} t format a :
  alike s (@errorf A t format a) (errorf (retext s t) format a).
Proof. unfold errorf. simpl. eauto. Qed.

Lemma next_alike t : alike s (next t) (next (retext s t)).
Proof.
  unfold next, nextToken. destruct t as [R tx lx lp t0 t1 t2 pc]. simpl.
  destruct pc as [|[|[|[|pc]]]]; simpl; try reflexivity.
  destruct lx; simpl; reflexivity.
Qed.

Lemma peek_alike t : alike s (peek t) (peek (retext s t)).
Proof.
  unfold peek, nextToken. destruct t as [R tx lx lp t0 t1 t2 pc]. simpl.
  destruct pc as [|[|[|[|pc]]]]; simpl; try reflexivity.
  destruct lx; simpl; reflexivity.
Qed.

Lemma nextNonSpace_loop_alike fuel : forall t,
  alike s (nextNonSpace_loop fuel t) (nextNonSpace_loop fuel (retext s t)).
Proof.
  induction fuel as [|fuel IH]; intros t; simpl; [reflexivity|].
  apply alike_bind; [apply next_alike|]. intros tok t1. simpl.
  destruct (decide (Tok.typ tok = tokenSpace)); [apply IH|reflexivity].
Qed.

Lemma nextNonSpace_alike t : alike s (nextNonSpace t) (nextNonSpace (retext s t)).
Proof. unfold nextNonSpace. apply nextNonSpace_loop_alike. Qed.

Lemma peekNonSpace_alike t : alike s (peekNonSpace t) (peekNonSpace (retext s t)).
Proof.
  unfold peekNonSpace. apply alike_bind; [apply nextNonSpace_alike|].
  intros tok t1. reflexivity.
Qed.

Lemma expect_alike expected context t :
  alike s (expect expected context t) (expect expected context (retext s t)).
Proof.
  unfold expect. apply alike_bind; [apply nextNonSpace_alike|].
  intros tok t1. simpl. destruct (decide (Tok.typ tok = expected)); [reflexivity|].
  apply errorf_alike.
Qed.

Lemma value_array_alike f :
  (forall t, alike s (value_fuel f t) (value_fuel f (retext s t)))
  /\ (forall pos acc t,
        alike s (array_fuel f pos acc t) (array_fuel f pos acc (retext s t))).
Proof.
  induction f as [|f [IHv IHa]]; [split; intros; reflexivity|]. split.
  - intros t. simpl. apply alike_bind; [apply nextNonSpace_alike|].
    intros tok t1. simpl.
    destruct (Tok.typ tok); try apply errorf_alike.
    + reflexivity.
    + destruct (newNumber (Tok.pos tok) (Tok.val tok)); [reflexivity|apply errorf_alike].
    + destruct (strconv.Unquote (Tok.val tok)); [reflexivity|apply errorf_alike].
    + destruct (time.Parse (Tok.val tok)); [reflexivity|apply errorf_alike].
    + apply alike_bind; [apply peek_alike|]. intros ptok t2. apply IHa.
  - intros pos acc t. simpl. apply alike_bind; [apply peekNonSpace_alike|].
    intros tok t1. simpl.
    assert (Helem : alike s
      (let? (node, t) := value_fuel f t1 in
       let? (tok2, t) := peekNonSpace t in
       let? (_, t) := (if decide (Tok.typ tok2 = tokenArrayEnd) then Ok (tok2, t)
                       else expect tokenArraySep "array" t) in
       array_fuel f pos (acc ++ [node]) t)
      (let? (node, t) := value_fuel f (retext s t1) in
       let? (tok2, t) := peekNonSpace t in
       let? (_, t) := (if decide (Tok.typ tok2 = tokenArrayEnd) then Ok (tok2, t)
                       else expect tokenArraySep "array" t) in
       array_fuel f pos (acc ++ [node]) t)).
    { apply alike_bind; [apply IHv|]. intros node t2. simpl.
      apply alike_bind; [apply peekNonSpace_alike|]. intros tok2 t3. simpl.
      apply alike_bind; [|intros x t4; apply IHa].
      destruct (decide (Tok.typ tok2 = tokenArrayEnd)); [reflexivity|apply expect_alike]. }
    destruct (Tok.typ tok); try exact Helem.
    apply alike_bind; [apply nextNonSpace_alike|]. intros x t2. reflexivity.
Qed.

Lemma value_alike t : alike s (value t) (value (retext s t)).
Proof. unfold value. apply (proj1 (value_array_alike _)). Qed.

Lemma entry_alike t : alike s (entry t) (entry (retext s t)).
Proof.
  unfold entry. apply alike_bind; [apply nextNonSpace_alike|]. intros tok t1. simpl.
  apply alike_bind; [apply expect_alike|]. intros x t2. simpl.
  apply alike_bind; [apply value_alike|]. intros v t3. reflexivity.
Qed.

Lemma entryGroup_loop_alike fuel : forall entries t,
  alike s (entryGroup_loop fuel entries t) (entryGroup_loop fuel entries (retext s t)).
Proof.
  induction fuel as [|fuel IH]; intros entries t; simpl; [reflexivity|].
  apply alike_bind; [apply peekNonSpace_alike|]. intros tok t1. simpl.
  destruct (Tok.typ tok); try reflexivity.
  apply alike_bind; [apply entry_alike|]. intros e t2. apply IH.
Qed.

Lemma entryGroup_alike t : alike s (entryGroup t) (entryGroup (retext s t)).
Proof.
  unfold entryGroup. apply alike_bind; [apply nextNonSpace_alike|]. intros tok t1. simpl.
  destruct (parseKeyGroup tok) as [kg|e|w|]; simpl; try reflexivity.
  - apply alike_bind; [apply peek_alike|]. intros ptok t2. cbv beta iota.
    apply alike_bind; [apply (entryGroup_loop_alike (S (pending t2)) [] t2)|].
    intros es t3. reflexivity.
  - exists (line e). destruct e; reflexivity.
Qed.

Lemma top_alike t : alike s (top t) (top (retext s t)).
Proof.
  unfold top. apply alike_bind; [apply peekNonSpace_alike|]. intros tok t1. simpl.
  destruct (Tok.typ tok); try apply errorf_alike.
  - apply alike_bind; [apply nextNonSpace_alike|]. intros x t2. apply errorf_alike.
  - apply entryGroup_alike.
  - apply entry_alike.
Qed.

Lemma parse_loop_alike fuel : forall t,
  alike s (parse_loop fuel t) (parse_loop fuel (retext s t)).
Proof.
  induction fuel as [|fuel IH]; intros t; simpl; [reflexivity|].
  apply alike_bind; [apply peek_alike|]. intros tok t1. simpl.
  destruct (decide (Tok.typ tok = tokenEOF)); [reflexivity|].
  apply alike_bind; [apply top_alike|]. intros node t2. simpl.
  destruct (Root t2) as [[p nodes]|]; apply IH.
Qed.

Lemma parse_alike t : alike s (parse t) (parse (retext s t)).
Proof.
  unfold parse. apply alike_bind; [apply peek_alike|]. intros tok t1.
  apply parse_loop_alike.
Qed.

End TextOfTheTree.

Section SameTokens.

(** Parse depends on the text through its tokens only, but for the
    text that the tree keeps and the line of an error. *)
Lemma Parse_same_tokens text text' :
  Lexer.lex text = Lexer.lex text' ->
  match Tree.Parse text with
  | Ok t => Tree.Parse text' = Ok (retext text' t)
  | Err e => exists line,
      Tree.Parse text' = Err (Tree.mkError line (Tree.what e) (Tree.wargs e))
  | Crash w => Tree.Parse text' = Crash w
  | OutOfFuel => Tree.Parse text' = OutOfFuel
  end.
Proof.
  intros H. unfold Tree.Parse. rewrite <- H.
  destruct (Lexer.lex text) as [toks|]; [|reflexivity].
  pose proof (parse_alike text'
                (Tree.mk None text toks 0 Tree.zeroToken Tree.zeroToken Tree.zeroToken 0))
    as Ha.
  change (retext text' (Tree.mk None text toks 0 Tree.zeroToken Tree.zeroToken
                          Tree.zeroToken 0))
    with (Tree.mk None text' toks 0 Tree.zeroToken Tree.zeroToken Tree.zeroToken 0) in Ha.
  destruct (Tree.parse (Tree.mk None text toks 0 Tree.zeroToken Tree.zeroToken
                          Tree.zeroToken 0)) as [[[] t]|e|w|]; simpl in *.
  - rewrite Ha. reflexivity.
  - destruct Ha as [line ->]. simpl. eauto.
  - rewrite Ha. reflexivity.
  - rewrite Ha. reflexivity.
Qed.

Lemma Document_same_tokens text text' :
  Lexer.lex text = Lexer.lex text' ->
  Tree.Document (Tree.Parse text) = Tree.Document (Tree.Parse text').
Proof.
  intros H. pose proof (Parse_same_tokens text text' H) as Hp.
  destruct (Tree.Parse text) as [t|e|w|].
  - rewrite Hp. reflexivity.
  - destruct Hp as [line ->]. reflexivity.
  - rewrite Hp. reflexivity.
  - rewrite Hp. reflexivity.
Qed.

Lemma Unmarshal_same_tokens text text' v st :
  Lexer.lex text = Lexer.lex text' ->
  Decode.Unmarshal text v = Ok st -> Decode.Unmarshal text' v = Ok st.
Proof.
  intros H. pose proof (Parse_same_tokens text text' H) as Hp.
  unfold Decode.Unmarshal.
  destruct (Tree.Parse text) as [t|e|w|]; try discriminate.
  rewrite Hp. simpl. auto.
Qed.

(** The end-of-input token of a blank line. *)
Lemma blank_line_token text n pre l c1 c2 t :
  Lexer.after n Lexer.lexStartFn (Lexer.init text) = (pre, l, Some Lexer.lexStartFn) ->
  Lexer.unread l = c1 :: c2 :: t ->
  Lexer.isNewLine (b2z c1) = true -> Lexer.isNewLine (b2z c2) = true ->
  Lexer.lex text = Some (pre ++ [Tok.mk tokenEOF (Lexer.pos l) (str [c1]) []]).
Proof.
  intros Ha Hu H1 H2.
  assert (He : entered Lexer.lexStartFn l).
  { apply (after_entered n Lexer.lexStartFn (Lexer.init text) pre); [|exact Ha].
    split; simpl; [lia|reflexivity]. }
  destruct He as [_ Hs]. simpl in Hs.
  rewrite (lex_after text n pre Lexer.lexStartFn l
             (Tok.mk tokenEOF (Lexer.start l) (Lexer.text (Lexer.moved 1 1 l)) [])
             (Lexer.ignore (Lexer.moved 1 1 l)) Ha).
  - unfold Lexer.text. simpl. rewrite Hs.
    replace (Lexer.pos l + 1 - Lexer.pos l)%nat with 1%nat by lia.
    change (drop (Lexer.pos l) (Lexer.input l)) with (Lexer.unread l).
    rewrite Hu. reflexivity.
  - simpl. rewrite (lexStart_blank_line l c1 c2 t Hu H1 H2). reflexivity.
Qed.

End SameTokens.

(** C1, as the code has it: a comment is passed over, a blank line is
    not.  In the start state a comment marker and the text up to the
    next newline, or to the end of the input, send no token and leave
    the scanner in the start state in front of that newline; one newline
    rune is passed over; but two newline runes in a row make the scanner
    send end-of-input and stop: the tokens of a text whose scan comes
    to the start state in front of two newline runes are those sent so
    far and end-of-input, whatever follows.  Parse and Unmarshal depend
    on the text through its tokens only, so what follows the blank line
    has no effect: two texts whose scans come to a blank line at the
    same position with the same tokens have the same document and the
    same decode result.  Of the entries a and b with a blank line
    between them only a is parsed and decoded, with a comment line
    between them both are; a blank line inside an array makes Parse
    fail. *)
Theorem C1_comments_are_passed_over_and_blank_lines_end_the_scan l body tail :
  Lexer.unread l = "#"%char :: body ++ tail ->
  Forall (fun c => c <> newline) body ->
  (tail = [] \/ exists t, tail = newline :: t) ->
  (forall fuel,
     Lexer.run (S fuel) Lexer.lexStartFn l
     = Lexer.run fuel Lexer.lexStartFn
         (Lexer.ignore (Lexer.moved (1 + length body) (length (take 1 tail)) l)))
  /\ (forall l2 c1 t, Lexer.unread l2 = c1 :: t ->
        Lexer.isNewLine (b2z c1) = true ->
        (t = [] \/ exists c2 t', t = c2 :: t' /\ Lexer.isNewLine (b2z c2) = false) ->
        exists w, forall fuel,
          Lexer.run (S fuel) Lexer.lexStartFn l2
          = Lexer.run fuel Lexer.lexStartFn (Lexer.ignore (Lexer.moved 1 w l2)))
  /\ (forall l2 c1 c2 t fuel, Lexer.unread l2 = c1 :: c2 :: t ->
        Lexer.isNewLine (b2z c1) = true -> Lexer.isNewLine (b2z c2) = true ->
        Lexer.run (S fuel) Lexer.lexStartFn l2
        = Some [Tok.mk tokenEOF (Lexer.start l2) (Lexer.text (Lexer.moved 1 1 l2)) []])
  /\ (forall text n pre l2 c1 c2 t,
        Lexer.after n Lexer.lexStartFn (Lexer.init text)
          = (pre, l2, Some Lexer.lexStartFn) ->
        Lexer.unread l2 = c1 :: c2 :: t ->
        Lexer.isNewLine (b2z c1) = true -> Lexer.isNewLine (b2z c2) = true ->
        Lexer.lex text = Some (pre ++ [Tok.mk tokenEOF (Lexer.pos l2) (str [c1]) []]))
  /\ (forall text text',
        Lexer.lex text = Lexer.lex text' ->
        Tree.Document (Tree.Parse text) = Tree.Document (Tree.Parse text')
        /\ (forall v st, Decode.Unmarshal text v = Ok st <-> Decode.Unmarshal text' v = Ok st)
        /\ (forall e, Tree.Parse text = Err e ->
              exists line,
                Tree.Parse text' = Err (Tree.mkError line (Tree.what e) (Tree.wargs e))))
  /\ (forall text text' n n' pre l1 l2 c1 c2 c2' t t',
        Lexer.after n Lexer.lexStartFn (Lexer.init text)
          = (pre, l1, Some Lexer.lexStartFn) ->
        Lexer.after n' Lexer.lexStartFn (Lexer.init text')
          = (pre, l2, Some Lexer.lexStartFn) ->
        Lexer.pos l2 = Lexer.pos l1 ->
        Lexer.unread l1 = c1 :: c2 :: t -> Lexer.unread l2 = c1 :: c2' :: t' ->
        Lexer.isNewLine (b2z c1) = true ->
        Lexer.isNewLine (b2z c2) = true -> Lexer.isNewLine (b2z c2') = true ->
        Tree.Document (Tree.Parse text) = Tree.Document (Tree.Parse text')
        /\ (forall v st,
              Decode.Unmarshal text v = Ok st <-> Decode.Unmarshal text' v = Ok st))
  /\ (let target := Examples.ptr (reflect.TStruct
                      [reflect.mkField "A" "" true reflect.TBool;
                       reflect.mkField "B" "" true (reflect.TInt 64)]) in
      let comment := "a = true" +:+ nl +:+ "# b = 1" +:+ nl +:+ "b = 2" +:+ nl in
      let blank := "a = true" +:+ nl +:+ nl +:+ "b = 2" +:+ nl in
      Tree.Document (Tree.Parse comment)
      = Some [EntryNode 0 (newKey 0 "a") (Bool_ (newBool 4 true));
              EntryNode 17 (newKey 17 "b") (Number (mkNumber 21 true false 2 0 "2"))]
      /\ Tree.Document (Tree.Parse blank)
         = Some [EntryNode 0 (newKey 0 "a") (Bool_ (newBool 4 true))]
      /\ Decode.target (Decode.Unmarshal comment target)
         = Some (reflect.VStruct [reflect.VBool true; reflect.VInt 2])
      /\ Decode.target (Decode.Unmarshal blank target)
         = Some (reflect.VStruct [reflect.VBool true; reflect.VInt 0])
      /\ Lexer.lex ("a = [true" +:+ nl +:+ nl +:+ "]")
         = Some [Tok.mk tokenKey 0 "a" []; Tok.mk tokenKeySep 2 "=" [];
                 Tok.mk tokenArrayStart 4 "[" []; Tok.mk tokenBool 5 "true" [];
                 Tok.mk tokenEOF 9 nl []]
      /\ Tree.Parse ("a = [true" +:+ nl +:+ nl +:+ "]")
         = Err (Tree.mkError 1 "unexpected %s in %s"
                  [Tree.tokArg (Tok.mk tokenEOF 9 nl []); ArgString "array"])).
Proof.
  intros Hu Hb Htail. split; [|split; [|split; [|split; [|split; [|split]]]]].
  - intros fuel. simpl. rewrite (lexStart_comment l body tail Hu Hb Htail).
    destruct (Lexer.run fuel _ _); reflexivity.
  - intros l2 c1 t Hu2 H1 Ht.
    destruct (lexStart_newline l2 c1 t Hu2 H1 Ht) as [w Hw]. exists w.
    intros fuel. simpl. rewrite Hw. destruct (Lexer.run fuel _ _); reflexivity.
  - intros l2 c1 c2 t fuel Hu2 H1 H2. simpl.
    rewrite (lexStart_blank_line l2 c1 c2 t Hu2 H1 H2). reflexivity.
  - intros text n pre l2 c1 c2 t Ha Hu2 H1 H2.
    exact (blank_line_token text n pre l2 c1 c2 t Ha Hu2 H1 H2).
  - intros text text' H. split; [exact (Document_same_tokens text text' H)|]. split.
    + intros v st. split.
      * apply Unmarshal_same_tokens. exact H.
      * apply Unmarshal_same_tokens. symmetry. exact H.
    + intros e He. pose proof (Parse_same_tokens text text' H) as Hp.
      rewrite He in Hp. exact Hp.
  - intros text text' n n' pre l1 l2 c1 c2 c2' t t' Ha Ha' Hpos Hu1 Hu2 H1 H2 H2'.
    assert (H : Lexer.lex text = Lexer.lex text').
    { rewrite (blank_line_token text n pre l1 c1 c2 t Ha Hu1 H1 H2).
      rewrite (blank_line_token text' n' pre l2 c1 c2' t' Ha' Hu2 H1 H2').
      rewrite Hpos. reflexivity. }
    split; [exact (Document_same_tokens text text' H)|].
    intros v st. split.
    + apply Unmarshal_same_tokens. exact H.
    + apply Unmarshal_same_tokens. symmetry. exact H.
  - vm_compute. repeat split; reflexivity.
Qed.

Lemma C1_comments_are_passed_over_and_blank_lines_end_the_scan_witness :
  Lexer.run 4 Lexer.lexStartFn (Lexer.init ("# c" +:+ nl +:+ "b"))
  = Lexer.run 3 Lexer.lexStartFn (Lexer.mk (bytes ("# c" +:+ nl +:+ "b")) 3 3 1 0)
  /\ Tree.Document (Tree.Parse ("a = true" +:+ nl +:+ nl +:+ "b = 2" +:+ nl))
     = Tree.Document (Tree.Parse ("a = true" +:+ nl +:+ nl +:+ "b = 5x")).
Proof.
  pose proof (C1_comments_are_passed_over_and_blank_lines_end_the_scan
                (Lexer.init ("# c" +:+ nl +:+ "b")) (bytes " c") (bytes (nl +:+ "b"))
                eq_refl
                ltac:(repeat constructor; discriminate)
                (or_intror (ex_intro _ (bytes "b") eq_refl)))
    as (H1 & _ & _ & _ & _ & H6 & _).
  split; [exact (H1 3%nat)|].
  eapply (fun l1 l2 c1 c2 c2' t t' A B C D E F G I =>
            proj1 (H6 ("a = true" +:+ nl +:+ nl +:+ "b = 2" +:+ nl)
                      ("a = true" +:+ nl +:+ nl +:+ "b = 5x") 5%nat 5%nat
                      [Tok.mk tokenKey 0 "a" []; Tok.mk tokenKeySep 2 "=" [];
                       Tok.mk tokenBool 4 "true" []]
                      l1 l2 c1 c2 c2' t t' A B C D E F G I)).
  - vm_compute. reflexivity.
  - vm_compute. reflexivity.
  - reflexivity.
  - reflexivity.
  - reflexivity.
  - reflexivity.
  - reflexivity.
  - reflexivity.
Defined.
